(** * nvtt Surface: a shallow embedding of [src/nvtt/Surface.cpp]

    The development follows the source file top-down: the integer helpers
    of the anonymous namespace, [nv::countMipmaps], [nv::getTargetExtent],
    the copy-on-write [Surface] handle, the shape-changing operations, the
    statistics, the RGBM codec, the dithered quantizer and the normal
    transforms.

    Conventions.
    - [int] and [uint] are 32-bit; they are modelled by [Z] and every
      operation that can leave the range is followed by its wrap-around
      ([to_int], [to_uint]).
    - [float] values are modelled by exact rationals [Q]: the arithmetic is
      the one the code writes down, without rounding.  [Q]'s division is
      total ([x / 0] is [0]) where IEEE gives an infinity or a NaN, so the
      statements that go through a division say that the divisor is not
      zero; the normal transforms, whose divisor is zero on ordinary
      inputs, divide with [fdiv], which has no result there. *)

From Stdlib Require Import ZArith QArith Qminmax Qround Qabs Lia Lqa Bool.
From stdpp Require Import base option list gmap.

Local Open Scope Z_scope.

(** ** Machine integers *)

Definition to_uint (z : Z) : Z := z mod 2 ^ 32.

Definition to_int (z : Z) : Z := (z + 2 ^ 31) mod 2 ^ 32 - 2 ^ 31.

Definition INT_MAX : Z := 2 ^ 31 - 1.

(** ** Power-of-two helpers *)

(** Modelled from the spec: [nextPowerOfTwo] (nvcore) is not among the
    sources.  It is the power-of-two ceiling: the least power of two that
    is not below [v], computed on [uint]. *)
Definition nextPowerOfTwo (v : Z) : Z := to_uint (2 ^ Z.log2_up v).

(** [previousPowerOfTwo]: 1 -> 1, 2 -> 2, 3 -> 2, 4 -> 4, 5 -> 4, ... *)
Definition previousPowerOfTwo (v : Z) : Z :=
  Z.quot (nextPowerOfTwo (to_uint (v + 1))) 2.

Definition nearestPowerOfTwo (v : Z) : Z :=
  let np2 := nextPowerOfTwo v in
  let pp2 := previousPowerOfTwo v in
  if to_uint (np2 - v) <=? to_uint (v - pp2) then np2 else pp2.

(** ** Mipmap counting *)

(** The loop of [nv::countMipmaps(uint w, uint h, uint d)].  [fuel] bounds
    the number of iterations that are unrolled; [None] means that the
    loop was still running when the fuel ran out. *)
Fixpoint countMipmaps_loop (fuel : nat) (w h d mipmap : Z) : option Z :=
  match fuel with
  | O => None
  | S fuel' =>
      if negb (w =? 1) || negb (h =? 1) || negb (d =? 1) then
        countMipmaps_loop fuel'
          (Z.max 1 (Z.quot w 2)) (Z.max 1 (Z.quot h 2)) (Z.max 1 (Z.quot d 2))
          (to_uint (mipmap + 1))
      else Some (to_uint (mipmap + 1))
  end.

(** A [uint] is halved to 1 in at most 32 steps, so 33 rounds of the loop
    are enough for every input (see [countMipmaps_total]). *)
Definition countMipmaps (w h d : Z) : option Z := countMipmaps_loop 33 w h d 0.

(** ** Extent rounding *)

Inductive RoundMode :=
| RoundMode_None
| RoundMode_ToNextPowerOfTwo
| RoundMode_ToNearestPowerOfTwo
| RoundMode_ToPreviousPowerOfTwo.

Inductive TextureType := TextureType_2D | TextureType_Cube | TextureType_3D.

Global Instance RoundMode_eq_dec : EqDecision RoundMode.
Proof. solve_decision. Defined.

Global Instance TextureType_eq_dec : EqDecision TextureType.
Proof. solve_decision. Defined.

(** The cap after the first step of [getTargetExtent]: rounded down to a
    power of two unless the mode is [RoundMode_None]. *)
Definition roundedMaxExtent (maxExtent : Z) (roundMode : RoundMode) : Z :=
  if bool_decide (roundMode <> RoundMode_None) && (0 <? maxExtent)
  then to_int (previousPowerOfTwo (to_uint maxExtent))
  else maxExtent.

(** "Scale extents without changing aspect ratio." *)
Definition scaleExtent (w h d maxExtent : Z) : Z * Z * Z :=
  let m := Z.max (Z.max w h) d in
  if (0 <? maxExtent) && (maxExtent <? m) then
    (Z.max (Z.quot (to_int (w * maxExtent)) m) 1,
     Z.max (Z.quot (to_int (h * maxExtent)) m) 1,
     Z.max (Z.quot (to_int (d * maxExtent)) m) 1)
  else (w, h, d).

Definition shapeExtent (whd : Z * Z * Z) (textureType : TextureType) : Z * Z * Z :=
  let '(w, h, d) := whd in
  match textureType with
  | TextureType_2D => (w, h, 1)
  | TextureType_Cube =>
      let s := Z.quot (to_int (w + h)) 2 in (s, s, 1)
  | TextureType_3D => (w, h, d)
  end.

Definition roundAxis (roundMode : RoundMode) (v : Z) : Z :=
  match roundMode with
  | RoundMode_None => v
  | RoundMode_ToNextPowerOfTwo => to_int (nextPowerOfTwo (to_uint v))
  | RoundMode_ToNearestPowerOfTwo => to_int (nearestPowerOfTwo (to_uint v))
  | RoundMode_ToPreviousPowerOfTwo => to_int (previousPowerOfTwo (to_uint v))
  end.

(** [nv::getTargetExtent]; the three in/out pointers become the arguments
    and the returned triple. *)
Definition getTargetExtent (width height depth maxExtent : Z)
    (roundMode : RoundMode) (textureType : TextureType) : Z * Z * Z :=
  let maxExtent := roundedMaxExtent maxExtent roundMode in
  let '(w, h, d) :=
    shapeExtent (scaleExtent width height depth maxExtent) textureType in
  (roundAxis roundMode w, roundAxis roundMode h, roundAxis roundMode d).


(** ** Loops *)

(** [for (i = 0; i < n; i++) s = body i s]. *)
Definition for_loop {S : Type} (n : nat) (body : nat -> S -> S) (s : S) : S :=
  foldl (fun s i => body i s) s (seq 0 n).

(** ** Floating point values as rationals *)

(** A [float] is modelled by the rational it denotes and the operations
    are exact: there is no rounding, no overflow or underflow and no NaN.
    Where a property needs this it says "in exact arithmetic". *)

Local Open Scope Q_scope.

(** [nv::clamp(x, a, b)] and [nv::max]; both are nvcore templates that are
    not among the sources.  Modelled from the spec: clamp confines [x] to
    [[a, b]]. *)
Definition fmax (a b : Q) : Q := Qmax a b.

Definition fclamp (x a b : Q) : Q := Qmin (Qmax x a) b.

(** [floorf] and [ifloor], of the exact value.  The code floors a value
    that has been rounded to binary32, and the conversion to [int] in
    [ifloor] is undefined outside the range of [int]. *)
Definition floorf (x : Q) : Q := inject_Z (Qfloor x).

Definition ifloor (x : Q) : Z := Qfloor x.

(** A division whose divisor may be zero: no (finite) result there. *)
Definition fdiv (a b : Q) : option Q :=
  if Qeq_bool b 0 then None else Some (a / b).

(** ** The pixel buffer *)

(** Modelled from the spec: [FloatImage] (nvimage) is not among the
    sources.  It owns per-channel floating-point storage for a W x H x D
    image: one plane of [W*H*D] values per component, pixel [(x, y, z)] of a
    plane stored at index [(z*H + y)*W + x]. *)
Record FloatImage := mkFloatImage {
  fi_width : Z;
  fi_height : Z;
  fi_depth : Z;
  fi_planes : list (list Q)
}.

Definition pixelCount (img : FloatImage) : nat :=
  Z.to_nat (fi_width img * fi_height img * fi_depth img).

(** [allocate(c, w, h, d)]: a buffer of the given shape.  The C++ buffer is
    uninitialised; the callers modelled here overwrite or [clear] it. *)
Definition fi_allocate (c : nat) (w h d : Z) : FloatImage :=
  {| fi_width := w; fi_height := h; fi_depth := d;
     fi_planes := replicate c (replicate (Z.to_nat (w * h * d)) 0) |}.

Definition fi_clear (img : FloatImage) : FloatImage :=
  {| fi_width := fi_width img; fi_height := fi_height img;
     fi_depth := fi_depth img;
     fi_planes := (fun p => replicate (length p) 0) <$> fi_planes img |}.

(** [img->channel(c)[i]], read and written. *)
Definition fi_channel (img : FloatImage) (c : nat) : list Q :=
  default [] (fi_planes img !! c).

Definition chan_get (img : FloatImage) (c i : nat) : Q :=
  default 0 (fi_channel img c !! i).

Definition chan_set (img : FloatImage) (c i : nat) (v : Q) : FloatImage :=
  {| fi_width := fi_width img; fi_height := fi_height img;
     fi_depth := fi_depth img;
     fi_planes := alter (fun p => <[i := v]> p) c (fi_planes img) |}.

(** [img->pixel(c, x, y, z)], read and written. *)
Definition pixel_index (img : FloatImage) (x y z : nat) : nat :=
  ((z * Z.to_nat (fi_height img) + y) * Z.to_nat (fi_width img) + x)%nat.

Definition pixel (img : FloatImage) (c x y z : nat) : Q :=
  chan_get img c (pixel_index img x y z).

Definition set_pixel (img : FloatImage) (c x y z : nat) (v : Q) : FloatImage :=
  chan_set img c (pixel_index img x y z) v.

(** The shape of a buffer, and the buffers the Surface layer works on:
    four planes of [pixelCount] values. *)
Definition fi_shape (img : FloatImage) : Z * Z * Z :=
  (fi_width img, fi_height img, fi_depth img).

Definition fi_wf (img : FloatImage) : Prop :=
  length (fi_planes img) = 4%nat /\
  Forall (fun p => length p = pixelCount img) (fi_planes img).

(** The four components of pixel [i]. *)
Definition Color : Type := Q * Q * Q * Q.

Definition read_color (img : FloatImage) (i : nat) : Color :=
  (chan_get img 0 i, chan_get img 1 i, chan_get img 2 i, chan_get img 3 i).

Definition write_color (img : FloatImage) (i : nat) (c : Color) : FloatImage :=
  let '(r, g, b, a) := c in
  chan_set (chan_set (chan_set (chan_set img 0 i r) 1 i g) 2 i b) 3 i a.

(** [for (i = 0; i < count; i++)] with a body that rewrites pixel [i] from
    its own components: the shape of the codec loops. *)
Definition map_pixels (k : Color -> Color) (img : FloatImage) : FloatImage :=
  for_loop (pixelCount img) (fun i img => write_color img i (k (read_color img i))) img.

(** ** Surface state *)

Inductive WrapMode := WrapMode_Clamp | WrapMode_Repeat | WrapMode_Mirror.

Inductive AlphaMode := AlphaMode_None | AlphaMode_Transparency.

Global Instance WrapMode_eq_dec : EqDecision WrapMode.
Proof. solve_decision. Defined.

Global Instance AlphaMode_eq_dec : EqDecision AlphaMode.
Proof. solve_decision. Defined.

(** [Surface::Private]: the reference count of its [RefCounted] base and
    the fields the methods reach through [m->].  The image is owned by the
    state, so it is held by value: copying a state copies the buffer. *)
Record Private := mkPrivate {
  refCount : nat;
  wrapMode : WrapMode;
  alphaMode : AlphaMode;
  isNormalMap : bool;
  type : TextureType;
  image : option FloatImage
}.

Definition set_refCount (n : nat) (st : Private) : Private :=
  mkPrivate n (wrapMode st) (alphaMode st) (isNormalMap st) (type st) (image st).

Definition set_wrapMode (wm : WrapMode) (st : Private) : Private :=
  mkPrivate (refCount st) wm (alphaMode st) (isNormalMap st) (type st) (image st).

Definition set_alphaMode (am : AlphaMode) (st : Private) : Private :=
  mkPrivate (refCount st) (wrapMode st) am (isNormalMap st) (type st) (image st).

Definition set_isNormalMap (b : bool) (st : Private) : Private :=
  mkPrivate (refCount st) (wrapMode st) (alphaMode st) b (type st) (image st).

Definition set_type (t : TextureType) (st : Private) : Private :=
  mkPrivate (refCount st) (wrapMode st) (alphaMode st) (isNormalMap st) t (image st).

Definition set_image (img : option FloatImage) (st : Private) : Private :=
  mkPrivate (refCount st) (wrapMode st) (alphaMode st) (isNormalMap st) (type st) img.

(** [m->image->...] in a method that has already returned on a null
    surface. *)
Definition on_image (f : FloatImage -> FloatImage) (st : Private) : Private :=
  set_image (f <$> image st) st.

(** Modelled from the spec: the constructors of [Surface::Private]
    (Surface.h) are not among the sources.  A state is created empty, with
    reference count 0; copying a state deep-copies the buffer and starts
    again at reference count 0. *)
Definition Private_new : Private :=
  mkPrivate 0 WrapMode_Mirror AlphaMode_None false TextureType_2D None.

Definition Private_copy (p : Private) : Private := set_refCount 0 p.

(** ** Handles and the store of shared states *)

(** A [Surface] is the pointer [m]; the states live in a store.  Every
    method takes the handle and the store and gives both back, because
    [detach] may redirect [m]. *)
Record Surface := mkSurface { m : positive }.

Abbreviation heap := (gmap positive Private).

Definition deref (this : Surface) (σ : heap) : Private :=
  default Private_new (σ !! m this).

(** [RefCounted::addRef] and [RefCounted::release]; the latter deletes the
    object when the count reaches zero. *)
Definition addRef (p : positive) (σ : heap) : heap :=
  alter (fun st => set_refCount (S (refCount st)) st) p σ.

Definition release (p : positive) (σ : heap) : heap :=
  match σ !! p with
  | Some st =>
      if decide (refCount st <= 1)%nat then delete p σ
      else <[p := set_refCount (pred (refCount st)) st]> σ
  | None => σ
  end.

(** [new Surface::Private(...)]: a fresh address. *)
Definition alloc (st : Private) (σ : heap) : positive * heap :=
  let p := fresh (dom σ) in (p, <[p := st]> σ).

(** [Surface::Surface()] *)
Definition Surface_new (σ : heap) : Surface * heap :=
  let '(p, σ) := alloc Private_new σ in
  (mkSurface p, addRef p σ).

(** [Surface::Surface(const Surface & tex)] *)
Definition Surface_copy (tex : Surface) (σ : heap) : Surface * heap :=
  (mkSurface (m tex), addRef (m tex) σ).

(** [Surface::~Surface()] *)
Definition Surface_delete (this : Surface) (σ : heap) : heap :=
  release (m this) σ.

(** [Surface::operator=] *)
Definition Surface_assign (this tex : Surface) (σ : heap) : Surface * heap :=
  let σ := addRef (m tex) σ in
  let σ := release (m this) σ in
  (mkSurface (m tex), σ).

(** [Surface::detach] *)
Definition detach (this : Surface) (σ : heap) : Surface * heap :=
  if decide (1 < refCount (deref this σ))%nat then
    let σ := release (m this) σ in
    let '(p, σ) := alloc (Private_copy (deref this σ)) σ in
    (mkSurface p, addRef p σ)
  else (this, σ).

(** The common shape of the mutating methods: [detach();] and then writes
    through [m->]. *)
Definition update (f : Private -> Private) (this : Surface) (σ : heap) : heap :=
  alter f (m this) σ.

Definition mutating (f : Private -> Private) (this : Surface) (σ : heap)
    : Surface * heap :=
  let '(this, σ) := detach this σ in
  (this, update f this σ).

(** Accessors: they never detach. *)
Definition isNull (this : Surface) (σ : heap) : bool :=
  bool_decide (image (deref this σ) = None).

Definition width (this : Surface) (σ : heap) : Z :=
  match image (deref this σ) with Some img => fi_width img | None => 0%Z end.

Definition height (this : Surface) (σ : heap) : Z :=
  match image (deref this σ) with Some img => fi_height img | None => 0%Z end.

Definition depth (this : Surface) (σ : heap) : Z :=
  match image (deref this σ) with Some img => fi_depth img | None => 0%Z end.

Definition Surface_type (this : Surface) (σ : heap) : TextureType :=
  type (deref this σ).

(** What a handle shows of the pixels. *)
Definition observe (this : Surface) (σ : heap) : option FloatImage :=
  image (deref this σ).

(** [Surface::setWrapMode], [setAlphaMode], [setNormalMap] *)
Definition setWrapMode (wm : WrapMode) (this : Surface) (σ : heap) : Surface * heap :=
  if decide (wrapMode (deref this σ) <> wm)
  then mutating (set_wrapMode wm) this σ else (this, σ).

Definition setAlphaMode (am : AlphaMode) (this : Surface) (σ : heap) : Surface * heap :=
  if decide (alphaMode (deref this σ) <> am)
  then mutating (set_alphaMode am) this σ else (this, σ).

Definition setNormalMap (b : bool) (this : Surface) (σ : heap) : Surface * heap :=
  if decide (isNormalMap (deref this σ) <> b)
  then mutating (set_isNormalMap b) this σ else (this, σ).

(** [Surface::countMipmaps] *)
Definition Surface_countMipmaps (this : Surface) (σ : heap) : option Z :=
  match image (deref this σ) with
  | None => Some 0%Z
  | Some img => to_int <$> countMipmaps (fi_width img) (fi_height img) 1
  end.

(** ** External collaborators *)

Inductive InputFormat := InputFormat_BGRA_8UB | InputFormat_RGBA_16F | InputFormat_RGBA_32F.

Inductive ResizeFilter :=
| ResizeFilter_Box | ResizeFilter_Triangle | ResizeFilter_Kaiser | ResizeFilter_Mitchell.

Inductive Decoder := Decoder_D3D10 | Decoder_D3D9 | Decoder_NV5x.

(** Modelled from the spec: the [Format] enumeration (nvtt.h) is not among
    the sources.  BC1, BC2 and BC3 are the block-compression names of DXT1,
    DXT3 and DXT5. *)
Inductive Format :=
| Format_RGBA
| Format_DXT1 | Format_DXT1a | Format_DXT3 | Format_DXT5 | Format_DXT5n
| Format_BC4 | Format_BC5
| Format_DXT1n | Format_CTX1
| Format_BC6 | Format_BC7.

Definition Format_BC1 : Format := Format_DXT1.
Definition Format_BC2 : Format := Format_DXT3.
Definition Format_BC3 : Format := Format_DXT5.

Global Instance InputFormat_eq_dec : EqDecision InputFormat.
Proof. solve_decision. Defined.

Global Instance ResizeFilter_eq_dec : EqDecision ResizeFilter.
Proof. solve_decision. Defined.

Global Instance Decoder_eq_dec : EqDecision Decoder.
Proof. solve_decision. Defined.

Global Instance Format_eq_dec : EqDecision Format.
Proof. solve_decision. Defined.

(** [Color32]: four bytes. *)
Record Color32 := mkColor32 { c32_b : Z; c32_g : Z; c32_r : Z; c32_a : Z }.

(** [ColorBlock::color(x, y)] of a decoded 4x4 block. *)
Definition ColorBlock : Type := nat -> nat -> Color32.

(** The reconstruction kernels that [resize] builds. *)
Inductive Filter :=
| BoxFilter (width : Q)
| TriangleFilter (width : Q)
| KaiserFilter (width : Q) (params : option (Q * Q))
| MitchellFilter (params : option (Q * Q)).

(** A [const void *] input: the same memory read at the element type the
    format asks for. *)
Record Buffer := mkBuffer {
  as_color32 : nat -> Color32;
  as_uint8 : nat -> Z;
  as_uint16 : nat -> Z;
  as_float : nat -> Q
}.

(** Modelled from the spec: the primitives of nvmath, nvimage and libm that
    the Surface layer calls and that are not among the sources.  They are
    consumed as black boxes; [fi_resize] returns a buffer of the shape it
    was asked for. *)
Class Collaborators := {
  half_to_float : Z -> Q;
  sqrtf : Q -> Q;
  fi_resize : Filter -> Z -> Z -> Z -> WrapMode -> option nat ->
              FloatImage -> FloatImage;
  fi_resize_shape : forall k w h d wm a img,
      fi_shape (fi_resize k w h d wm a img) = (w, h, d);
  BlockDXT1_decodeBlock : list Z -> bool -> ColorBlock;
  BlockDXT1_decodeBlockNV5x : list Z -> ColorBlock;
  BlockDXT3_decodeBlock : list Z -> bool -> ColorBlock;
  BlockDXT3_decodeBlockNV5x : list Z -> ColorBlock;
  BlockDXT5_decodeBlock : list Z -> bool -> ColorBlock;
  BlockDXT5_decodeBlockNV5x : list Z -> ColorBlock;
  BlockATI1_decodeBlock : list Z -> bool -> ColorBlock;
  BlockATI2_decodeBlock : list Z -> bool -> ColorBlock
}.

(** [blockSize] *)
Definition blockSize (format : Format) : Z :=
  if bool_decide (format = Format_DXT1 \/ format = Format_DXT1a \/ format = Format_DXT1n) then 8
  else if bool_decide (format = Format_DXT3) then 16
  else if bool_decide (format = Format_DXT5 \/ format = Format_DXT5n) then 16
  else if bool_decide (format = Format_BC4) then 8
  else if bool_decide (format = Format_BC5) then 16
  else if bool_decide (format = Format_CTX1) then 8
  else if bool_decide (format = Format_BC6) then 16
  else if bool_decide (format = Format_BC7) then 16
  else 0.

(** ** Shape-changing operations *)

Section ShapeOperations.
Context `{Collaborators}.

(** The fill loops of [Surface::setImage] (interleaved input). *)
Definition setImage_fill (format : InputFormat) (data : Buffer)
    (img : FloatImage) : FloatImage :=
  let count := pixelCount img in
  if decide (format = InputFormat_BGRA_8UB) then
    for_loop count (fun i img =>
      let src := as_color32 data i in
      write_color img i
        (inject_Z (c32_r src) / 255, inject_Z (c32_g src) / 255,
         inject_Z (c32_b src) / 255, inject_Z (c32_a src) / 255)) img
  else if decide (format = InputFormat_RGBA_16F) then
    for_loop count (fun i img =>
      write_color img i
        (half_to_float (as_uint16 data (4 * i + 0)),
         half_to_float (as_uint16 data (4 * i + 1)),
         half_to_float (as_uint16 data (4 * i + 2)),
         half_to_float (as_uint16 data (4 * i + 3)))) img
  else if decide (format = InputFormat_RGBA_32F) then
    for_loop count (fun i img =>
      write_color img i
        (as_float data (4 * i + 0), as_float data (4 * i + 1),
         as_float data (4 * i + 2), as_float data (4 * i + 3))) img
  else img.

Definition setImage_body (format : InputFormat) (w h d : Z) (data : Buffer)
    (st : Private) : Private :=
  let img := fi_allocate 4 w h d in
  let st := set_image (Some img) st in
  let st := set_type (if (d =? 1)%Z then TextureType_2D else TextureType_3D) st in
  on_image (setImage_fill format data) st.

(** [Surface::setImage(format, w, h, d, data)].  Each fill loop is written
    [TRY { ... } CATCH { return false; }], and both macros expand to
    nothing (their Windows definitions are under [#if 0]): the block
    [{ return false; }] follows the loop unconditionally.  The method
    returns false once it has filled the buffer, for each of the three
    formats; the [return true] at its end is reached by no format. *)
Definition setImage (format : InputFormat) (w h d : Z) (data : Buffer)
    (this : Surface) (σ : heap) : bool * Surface * heap :=
  let '(this, σ) := mutating (setImage_body format w h d data) this σ in
  (if decide (format = InputFormat_BGRA_8UB) then false
   else if decide (format = InputFormat_RGBA_16F) then false
   else if decide (format = InputFormat_RGBA_32F) then false
   else true, this, σ).

(** The fill loops of the planar [Surface::setImage]: one plane after the
    other. *)
Definition fill_plane (c : nat) (v : nat -> Q) (img : FloatImage) : FloatImage :=
  for_loop (pixelCount img) (fun i img => chan_set img c i (v i)) img.

Definition setImage_planar_fill (format : InputFormat) (r g b a : Buffer)
    (img : FloatImage) : FloatImage :=
  if decide (format = InputFormat_BGRA_8UB) then
    let img := fill_plane 0 (fun i => inject_Z (as_uint8 r i) / 255) img in
    let img := fill_plane 1 (fun i => inject_Z (as_uint8 g i) / 255) img in
    let img := fill_plane 2 (fun i => inject_Z (as_uint8 b i) / 255) img in
    fill_plane 3 (fun i => inject_Z (as_uint8 a i) / 255) img
  else if decide (format = InputFormat_RGBA_16F) then
    let img := fill_plane 0 (fun i => half_to_float (as_uint16 r i)) img in
    let img := fill_plane 1 (fun i => half_to_float (as_uint16 g i)) img in
    let img := fill_plane 2 (fun i => half_to_float (as_uint16 b i)) img in
    fill_plane 3 (fun i => half_to_float (as_uint16 a i)) img
  else if decide (format = InputFormat_RGBA_32F) then
    let img := fill_plane 0 (as_float r) img in
    let img := fill_plane 1 (as_float g) img in
    let img := fill_plane 2 (as_float b) img in
    fill_plane 3 (as_float a) img
  else img.

Definition setImage_planar_body (format : InputFormat) (w h d : Z)
    (r g b a : Buffer) (st : Private) : Private :=
  let img := fi_allocate 4 w h d in
  let st := set_image (Some img) st in
  let st := set_type (if (d =? 1)%Z then TextureType_2D else TextureType_3D) st in
  on_image (setImage_planar_fill format r g b a) st.

(** [Surface::setImage(format, w, h, d, r, g, b, a)] *)
Definition setImage_planar (format : InputFormat) (w h d : Z)
    (r g b a : Buffer) (this : Surface) (σ : heap) : bool * Surface * heap :=
  let '(this, σ) := mutating (setImage_planar_body format w h d r g b a) this σ in
  (true, this, σ).

(** The block that [ptr] points at, decoded as [setImage2D] does. *)
Definition decode_block (format : Format) (decoder : Decoder)
    (colors : ColorBlock) (block : list Z) : ColorBlock :=
  if decide (format = Format_BC1) then
    if decide (decoder = Decoder_D3D10) then BlockDXT1_decodeBlock block false
    else if decide (decoder = Decoder_D3D9) then BlockDXT1_decodeBlock block false
    else if decide (decoder = Decoder_NV5x) then BlockDXT1_decodeBlockNV5x block
    else colors
  else if decide (format = Format_BC2) then
    if decide (decoder = Decoder_D3D10) then BlockDXT3_decodeBlock block false
    else if decide (decoder = Decoder_D3D9) then BlockDXT3_decodeBlock block false
    else if decide (decoder = Decoder_NV5x) then BlockDXT3_decodeBlockNV5x block
    else colors
  else if decide (format = Format_BC3) then
    if decide (decoder = Decoder_D3D10) then BlockDXT5_decodeBlock block false
    else if decide (decoder = Decoder_D3D9) then BlockDXT5_decodeBlock block false
    else if decide (decoder = Decoder_NV5x) then BlockDXT5_decodeBlockNV5x block
    else colors
  else if decide (format = Format_BC4) then
    BlockATI1_decodeBlock block (bool_decide (decoder = Decoder_D3D9))
  else if decide (format = Format_BC5) then
    BlockATI2_decodeBlock block (bool_decide (decoder = Decoder_D3D9))
  else colors.

(** The 4x4 scatter of one decoded block, clipped to [w] x [h]. *)
Definition scatter_block (w h : Z) (x y : nat) (colors : ColorBlock)
    (img : FloatImage) : FloatImage :=
  for_loop 4 (fun yy => for_loop 4 (fun xx img =>
    let c := colors xx yy in
    if ((Z.of_nat (x * 4 + xx) <? w) && (Z.of_nat (y * 4 + yy) <? h))%Z then
      let img := set_pixel img 0 (x * 4 + xx) (y * 4 + yy) 0 (inject_Z (c32_r c) * 1 / 255) in
      let img := set_pixel img 1 (x * 4 + xx) (y * 4 + yy) 0 (inject_Z (c32_g c) * 1 / 255) in
      let img := set_pixel img 2 (x * 4 + xx) (y * 4 + yy) 0 (inject_Z (c32_b c) * 1 / 255) in
      set_pixel img 3 (x * 4 + xx) (y * 4 + yy) 0 (inject_Z (c32_a c) * 1 / 255)
    else img)) img.

(** The block loop: the state is the image and the offset of [ptr]. *)
Definition setImage2D_fill (format : Format) (decoder : Decoder) (w h : Z)
    (data : list Z) (img : FloatImage) : FloatImage :=
  let bw := Z.quot (to_int (w + 3)) 4 in
  let bh := Z.quot (to_int (h + 3)) 4 in
  let bs := blockSize format in
  fst (for_loop (Z.to_nat bh) (fun y => for_loop (Z.to_nat bw) (fun x '(img, ptr) =>
    let colors := decode_block format decoder (fun _ _ => mkColor32 0 0 0 0)
                    (take (Z.to_nat bs) (drop ptr data)) in
    (scatter_block w h x y colors img, (ptr + Z.to_nat bs)%nat))) (img, 0%nat)).

Definition setImage2D_body (format : Format) (decoder : Decoder) (w h : Z)
    (data : list Z) (st : Private) : Private :=
  let img := fi_allocate 4 w h 1 in
  let st := set_image (Some img) st in
  let st := set_type TextureType_2D st in
  on_image (setImage2D_fill format decoder w h data) st.

(** [Surface::setImage2D] *)
Definition setImage2D (format : Format) (decoder : Decoder) (w h : Z)
    (data : list Z) (this : Surface) (σ : heap) : bool * Surface * heap :=
  if decide (format <> Format_BC1 /\ format <> Format_BC2 /\ format <> Format_BC3
             /\ format <> Format_BC4 /\ format <> Format_BC5)
  then (false, this, σ)
  else
    let '(this, σ) := mutating (setImage2D_body format decoder w h data) this σ in
    (true, this, σ).
End ShapeOperations.

Section Resampling.
Context `{Collaborators}.

(** [getDefaultFilterWidthAndParams]; [params] is left as it was for the
    box and triangle filters. *)
Definition getDefaultFilterWidthAndParams (filter : ResizeFilter)
    (params : Q * Q) : Q * (Q * Q) :=
  if decide (filter = ResizeFilter_Box) then (1 # 2, params)
  else if decide (filter = ResizeFilter_Triangle) then (1, params)
  else if decide (filter = ResizeFilter_Kaiser) then (3, (4, 1))
  else (2, (1 / 3, 1 / 3)).

Definition resize_body (w h d : Z) (filter : ResizeFilter) (filterWidth : Q)
    (params : option (Q * Q)) (st : Private) : Private :=
  match image st with
  | None => st
  | Some img =>
      let wrapMode := wrapMode st in
      let img :=
        if decide (alphaMode st = AlphaMode_Transparency) then
          if decide (filter = ResizeFilter_Box) then
            fi_resize (BoxFilter filterWidth) w h d wrapMode (Some 3%nat) img
          else if decide (filter = ResizeFilter_Triangle) then
            fi_resize (TriangleFilter filterWidth) w h d wrapMode (Some 3%nat) img
          else if decide (filter = ResizeFilter_Kaiser) then
            fi_resize (KaiserFilter filterWidth params) w h d wrapMode (Some 3%nat) img
          else
            fi_resize (MitchellFilter params) w h d wrapMode (Some 3%nat) img
        else
          if decide (filter = ResizeFilter_Box) then
            fi_resize (BoxFilter filterWidth) w h d wrapMode None img
          else if decide (filter = ResizeFilter_Triangle) then
            fi_resize (TriangleFilter filterWidth) w h d wrapMode None img
          else if decide (filter = ResizeFilter_Kaiser) then
            fi_resize (KaiserFilter filterWidth params) w h d wrapMode None img
          else
            fi_resize (MitchellFilter params) w h d wrapMode None img in
      set_image (Some img) st
  end.

(** [Surface::resize(w, h, d, filter, filterWidth, params)] *)
Definition resize (w h d : Z) (filter : ResizeFilter) (filterWidth : Q)
    (params : option (Q * Q)) (this : Surface) (σ : heap) : Surface * heap :=
  if isNull this σ
     || ((w =? width this σ) && (h =? height this σ) && (d =? depth this σ))%Z
  then (this, σ)
  else mutating (resize_body w h d filter filterWidth params) this σ.

(** [Surface::resize(w, h, d, filter)] *)
Definition resize_default (w h d : Z) (filter : ResizeFilter)
    (this : Surface) (σ : heap) : Surface * heap :=
  let '(filterWidth, params) := getDefaultFilterWidthAndParams filter (0, 0) in
  resize w h d filter filterWidth (Some params) this σ.

(** [Surface::resize(maxExtent, roundMode, filter, filterWidth, params)] *)
Definition resize_extent (maxExtent : Z) (roundMode : RoundMode)
    (filter : ResizeFilter) (filterWidth : Q) (params : option (Q * Q))
    (this : Surface) (σ : heap) : Surface * heap :=
  match image (deref this σ) with
  | None => (this, σ)
  | Some img =>
      let '(w, h, d) :=
        getTargetExtent (fi_width img) (fi_height img) (fi_depth img)
          maxExtent roundMode (type (deref this σ)) in
      resize w h d filter filterWidth params this σ
  end.

(** The copy loops of [Surface::canvasSize]. *)
Definition canvasSize_copy (w h d : Z) (img new_img : FloatImage) : FloatImage :=
  for_loop (Z.to_nat d) (fun z =>
    for_loop (Z.to_nat h) (fun y =>
      for_loop (Z.to_nat w) (fun x new_img =>
        let new_img := set_pixel new_img 0 x y z (pixel img 0 x y z) in
        let new_img := set_pixel new_img 1 x y z (pixel img 1 x y z) in
        let new_img := set_pixel new_img 2 x y z (pixel img 2 x y z) in
        set_pixel new_img 3 x y z (pixel img 3 x y z)))) new_img.

Definition canvasSize_body (w h d : Z) (st : Private) : Private :=
  match image st with
  | None => st
  | Some img =>
      let new_img := fi_clear (fi_allocate 4 w h d) in
      let w := to_int (Z.min (to_uint w) (fi_width img)) in
      let h := to_int (Z.min (to_uint h) (fi_height img)) in
      let d := to_int (Z.min (to_uint d) (fi_depth img)) in
      let new_img := canvasSize_copy w h d img new_img in
      let st := set_image (Some new_img) st in
      set_type (if (d =? 1)%Z then TextureType_2D else TextureType_3D) st
  end.

(** [Surface::canvasSize] *)
Definition canvasSize (w h d : Z) (this : Surface) (σ : heap) : Surface * heap :=
  if isNull this σ
     || ((w =? width this σ) && (h =? height this σ) && (d =? depth this σ))%Z
  then (this, σ)
  else mutating (canvasSize_body w h d) this σ.
End Resampling.

(** ** Statistics *)

(** The loop of [Surface::histogram] over the plane [c]; [bins] is the
    caller's array.  [binPtr[idx]++] is an [int] increment.  The index is
    the floor of the exact value of [c[i] * scale + bias]; whatever the
    code's rounding and conversion make of it, the two tests confine it
    to [0, binCount - 1]. *)
Definition histogram_bin (scale bias : Q) (binCount : Z) (v : Q) : Z :=
  let f := v * scale + bias in
  let idx := ifloor f in
  let idx := if (idx <? 0)%Z then 0%Z else idx in
  let idx := if (idx >? binCount - 1)%Z then (binCount - 1)%Z else idx in
  idx.

Definition histogram_loop (c : list Q) (count : nat) (rangeMin rangeMax : Q)
    (binCount : Z) (bins : list Z) : list Z :=
  let scale := inject_Z binCount / rangeMax in
  let bias := - scale * rangeMin in
  for_loop count (fun i bins =>
    let idx := histogram_bin scale bias binCount (default 0 (c !! i)) in
    alter (fun n => to_int (n + 1)) (Z.to_nat idx) bins) bins.

(** [Surface::histogram]; the method is [const], only [bins] changes. *)
Definition histogram (channel : nat) (rangeMin rangeMax : Q) (binCount : Z)
    (bins : list Z) (this : Surface) (σ : heap) : list Z :=
  match image (deref this σ) with
  | None => bins
  | Some img =>
      histogram_loop (fi_channel img channel) (pixelCount img)
        rangeMin rangeMax binCount bins
  end.

(** ** RGBM *)

(** One round of the loop of [Surface::toRGBM]; [threshold] has already
    been clamped.  ([1 - threshold] is zero for [threshold = 1]: the C++
    stores a NaN in alpha there, [Q]'s division gives 0.) *)
Definition toRGBM_pixel (threshold : Q) (c : Color) : Color :=
  let '(r, g, b, _) := c in
  let R := fclamp r 0 1 in
  let G := fclamp g 0 1 in
  let B := fclamp b 0 1 in
  let M := fmax (fmax R G) (fmax B threshold) in
  (R / M, G / M, B / M, (M - threshold) / (1 - threshold)).

(** [irange] is computed and never used. *)
Definition toRGBM_image (range threshold : Q) (img : FloatImage) : FloatImage :=
  let threshold := fclamp threshold (1 # 1000000) 1 in
  let irange := 1 / range in
  map_pixels (toRGBM_pixel threshold) img.

(** [Surface::toRGBM] *)
Definition toRGBM (range threshold : Q) (this : Surface) (σ : heap) : Surface * heap :=
  if isNull this σ then (this, σ)
  else mutating (on_image (toRGBM_image range threshold)) this σ.

Definition fromRGBM_pixel (range : Q) (c : Color) : Color :=
  let '(r, g, b, a) := c in
  let M := a * range in
  (r * M, g * M, b * M, 1).

Definition fromRGBM_image (range : Q) (img : FloatImage) : FloatImage :=
  map_pixels (fromRGBM_pixel range) img.

(** [Surface::fromRGBM] *)
Definition fromRGBM (range : Q) (this : Surface) (σ : heap) : Surface * heap :=
  if isNull this σ then (this, σ)
  else mutating (on_image (fromRGBM_image range)) this σ.

(** ** Dithered quantizer *)

Definition arr_get (a : list Q) (i : nat) : Q := default 0 (a !! i).

(** [a[i] += v] *)
Definition arr_add (a : list Q) (i : nat) (v : Q) : list Q :=
  <[i := arr_get a i + v]> a.

Definition quantize_scale (bits : Z) (exactEndPoints : bool) : Q :=
  if exactEndPoints then inject_Z (to_int (to_int (Z.shiftl 1 bits) - 1))
  else inject_Z (to_int (Z.shiftl 1 bits)).

Definition quantize_offset (exactEndPoints : bool) : Q :=
  if exactEndPoints then 0 else 1 # 2.

(** The loop of the undithered path.  The argument of [floorf] is the
    exact value of [c * scale + offset]; the code rounds the product and
    the sum to binary32 first, which moves a value within rounding distance
    below an integer up to that integer. *)
Definition quantize_plain (channel : nat) (scale offset : Q) (img : FloatImage)
    : FloatImage :=
  for_loop (pixelCount img) (fun i img =>
    chan_set img channel i (floorf (chan_get img channel i * scale + offset) / scale))
    img.

(** The body of the innermost loop of the Floyd-Steinberg path.  The pixel
    is always taken from slice 0: [img->pixel(channel, x, y, 0)]. *)
Definition quantize_dither_pixel (channel : nat) (scale offset : Q) (y x : nat)
    (s : FloatImage * list Q * list Q) : FloatImage * list Q * list Q :=
  let '(img, row0, row1) := s in
  let f := pixel img channel x y 0 in
  let qf := floorf ((f + arr_get row0 (1 + x)) * scale + offset) / scale in
  let diff := f - qf in
  let img := set_pixel img channel x y 0 qf in
  let row0 := arr_add row0 (1 + x + 1) ((7 / 16) * diff) in
  let row1 := arr_add row1 (1 + x - 1) ((3 / 16) * diff) in
  let row1 := arr_add row1 (1 + x + 0) ((5 / 16) * diff) in
  let row1 := arr_add row1 (1 + x + 1) ((1 / 16) * diff) in
  (img, row0, row1).

Definition quantize_dither_row (channel : nat) (scale offset : Q) (w y : nat)
    (s : FloatImage * list Q * list Q) : FloatImage * list Q * list Q :=
  let '(img, row0, row1) :=
    for_loop w (quantize_dither_pixel channel scale offset y) s in
  (img, row1, replicate (w + 2) 0).

Definition quantize_dither (channel : nat) (scale offset : Q) (img : FloatImage)
    : FloatImage :=
  let w := Z.to_nat (fi_width img) in
  let h := Z.to_nat (fi_height img) in
  let d := Z.to_nat (fi_depth img) in
  for_loop d (fun z img =>
    let row0 := replicate (w + 2) 0 in
    let row1 := replicate (w + 2) 0 in
    fst (fst (for_loop h (quantize_dither_row channel scale offset w)
                (img, row0, row1)))) img.

Definition quantize_image (channel : nat) (bits : Z) (exactEndPoints dither : bool)
    (img : FloatImage) : FloatImage :=
  let scale := quantize_scale bits exactEndPoints in
  let offset := quantize_offset exactEndPoints in
  if negb dither then quantize_plain channel scale offset img
  else quantize_dither channel scale offset img.

(** [Surface::quantize] *)
Definition quantize (channel : nat) (bits : Z) (exactEndPoints dither : bool)
    (this : Surface) (σ : heap) : Surface * heap :=
  if isNull this σ then (this, σ)
  else mutating (on_image (quantize_image channel bits exactEndPoints dither)) this σ.

(** ** Normal transforms *)

Inductive NormalTransform :=
| NormalTransform_Orthographic
| NormalTransform_Stereographic
| NormalTransform_Paraboloid
| NormalTransform_Quartic.

Record Vector3 := mkVector3 { v_x : Q; v_y : Q; v_z : Q }.

(** How the Newton loop of the quartic transform ends: it left the loop at
    [t]; a division by zero made [t] non-finite; or it was still running
    when the fuel ran out. *)
Inductive NewtonResult := Converged (t : Q) | NotFinite | StillRunning.

Section NormalTransforms.
Context `{Collaborators}.

(** The positive root of [a t^2 + b t + c = 0] as the paraboloid branch
    computes it; also the "initial approximation" of the quartic branch.
    In exact arithmetic [a] is zero only for x = y = 0.  In binary32 the
    products x*x and y*y also underflow to zero for a normal very close to
    the axis, so the code divides by zero on more inputs than those for
    which [paraboloid_t] has no result. *)
Definition paraboloid_a (n : Vector3) : Q := (v_x n * v_x n) + (v_y n * v_y n).

Definition paraboloid_discriminant (n : Vector3) : Q :=
  let a := paraboloid_a n in
  let b := v_z n in
  let c := -1 in
  b * b - 4 * a * c.

Definition paraboloid_denominator (n : Vector3) : Q := 2 * paraboloid_a n.

Definition paraboloid_t (n : Vector3) : option Q :=
  let b := v_z n in
  fdiv (- b + sqrtf (paraboloid_discriminant n)) (paraboloid_denominator n).

(** [d = fabs(n.z * t - (1 - n.x*n.x*t*t) * (1 - n.y*n.y*t*t))] *)
Definition quartic_d (n : Vector3) (t : Q) : Q :=
  Qabs (v_z n * t - (1 - v_x n * v_x n * t * t) * (1 - v_y n * v_y n * t * t)).

Definition quartic_ft (n : Vector3) (t : Q) : Q :=
  1 - v_z n * t - (v_x n * v_x n + v_y n * v_y n) * t * t
  + v_x n * v_x n * v_y n * v_y n * t * t * t * t.

Definition quartic_fit (n : Vector3) (t : Q) : Q :=
  - v_z n - 2 * (v_x n * v_x n + v_y n * v_y n) * t
  + 4 * v_x n * v_x n * v_y n * v_y n * t * t * t.

(** [while (d > 0.0001) { ... }] *)
Fixpoint quartic_newton (fuel : nat) (n : Vector3) (t : Q) : NewtonResult :=
  match fuel with
  | O => StillRunning
  | S fuel' =>
      if Qlt_le_dec (1 # 10000) (quartic_d n t) then
        match fdiv (quartic_ft n t) (quartic_fit n t) with
        | Some step => quartic_newton fuel' n (t - step)
        | None => NotFinite
        end
      else Converged t
  end.

(** The branches of the per-pixel loop of [Surface::transformNormals], on
    the normal [n] that [normalizeSafe] returned.  [None]: a component of
    the result is not a finite number, or (quartic) the loop did not end
    within [fuel] rounds. *)
Definition transformNormal (fuel : nat) (xform : NormalTransform) (n : Vector3)
    : option Vector3 :=
  match xform with
  | NormalTransform_Orthographic => Some (mkVector3 (v_x n) (v_y n) 0)
  | NormalTransform_Stereographic =>
      x ← fdiv (v_x n) (1 + v_z n);
      y ← fdiv (v_y n) (1 + v_z n);
      Some (mkVector3 x y 0)
  | NormalTransform_Paraboloid =>
      t ← paraboloid_t n;
      Some (mkVector3 (v_x n * t) (v_y n * t) 0)
  | NormalTransform_Quartic =>
      t ← paraboloid_t n;
      match quartic_newton fuel n t with
      | Converged t => Some (mkVector3 (v_x n * t) (v_y n * t) 0)
      | _ => None
      end
  end.
End NormalTransforms.

(** A concrete set of collaborators, for running the model: a square root
    that is exact on squares of rationals, a resampler that returns an
    empty buffer of the requested shape, decoders that return black. *)
Definition Qsqrt_floor (q : Q) : Q :=
  Z.sqrt (Qnum q * Z.pos (Qden q)) # Qden q.

Definition blank_resize (k : Filter) (w h d : Z) (wm : WrapMode) (a : option nat)
    (img : FloatImage) : FloatImage :=
  fi_allocate 4 w h d.

Definition black_block : ColorBlock := fun _ _ => mkColor32 0 0 0 255.

Definition is_unit (n : Vector3) : Prop :=
  v_x n * v_x n + v_y n * v_y n + v_z n * v_z n == 1.

Definition model_collaborators : Collaborators :=
  {| half_to_float := fun bits => inject_Z bits;
     sqrtf := Qsqrt_floor;
     fi_resize := blank_resize;
     fi_resize_shape := fun _ _ _ _ _ _ _ => eq_refl;
     BlockDXT1_decodeBlock := fun _ _ => black_block;
     BlockDXT1_decodeBlockNV5x := fun _ => black_block;
     BlockDXT3_decodeBlock := fun _ _ => black_block;
     BlockDXT3_decodeBlockNV5x := fun _ => black_block;
     BlockDXT5_decodeBlock := fun _ _ => black_block;
     BlockDXT5_decodeBlockNV5x := fun _ => black_block;
     BlockATI1_decodeBlock := fun _ _ => black_block;
     BlockATI2_decodeBlock := fun _ _ => black_block |}.

(** ** Sample surfaces *)

Definition sample_buffer : Buffer :=
  mkBuffer (fun _ => mkColor32 0 0 0 255) (fun _ => 255%Z) (fun _ => 0%Z)
           (fun _ => 1 # 4).

(** A fresh surface given a 1x1x1 image. *)
Definition sample_2d : bool * Surface * heap :=
  setImage (H := model_collaborators) InputFormat_RGBA_32F 1 1 1 sample_buffer
    (Surface_new ∅).1 (Surface_new ∅).2.

(** ... then resized, or given a larger canvas, to 1x1x2. *)
Definition sample_resized : Surface * heap :=
  resize (H := model_collaborators) 1 1 2 ResizeFilter_Box (1 # 2) None
    sample_2d.1.2 sample_2d.2.

Definition sample_canvas : Surface * heap :=
  canvasSize 1 1 2 sample_2d.1.2 sample_2d.2.

(** ... or copied into a second handle. *)
Definition sample_copy : Surface * heap :=
  Surface_copy sample_2d.1.2 sample_2d.2.

(** The buffer of [sample_2d]. *)
Definition sample_image : FloatImage :=
  mkFloatImage 1 1 1 [[1 # 4]; [1 # 4]; [1 # 4]; [1 # 4]].

(** The 1x1x1 sample encoded to RGBM and decoded again, with range 1 and
    the default threshold 0.25. *)
Definition sample_rgbm_encoded : Surface * heap :=
  toRGBM 1 (1 # 4) sample_2d.1.2 sample_2d.2.

Definition sample_rgbm_decoded : Surface * heap :=
  fromRGBM 1 sample_rgbm_encoded.1 sample_rgbm_encoded.2.

(** Pixel [i] as a handle shows it. *)
Definition observe_color (this : Surface) (σ : heap) (i : nat) : option Color :=
  (fun img => read_color img i) <$> observe this σ.

(** Equality of colours, and closeness of two values up to the rounding of
    single-precision arithmetic on values of this size. *)
Definition color_eq (c c' : Color) : Prop :=
  c.1.1.1 == c'.1.1.1 /\ c.1.1.2 == c'.1.1.2 /\ c.1.2 == c'.1.2 /\ c.2 == c'.2.

Definition approx_eq (x y : Q) : Prop := Qabs (x - y) <= 1 # 1000000.

(** A 2x1x1 surface whose channels all hold 0.25, quantized to 8 bits with
    exact end points, with and without dithering. *)
Definition sample_flat : bool * Surface * heap :=
  setImage (H := model_collaborators) InputFormat_RGBA_32F 2 1 1 sample_buffer
    (Surface_new ∅).1 (Surface_new ∅).2.

Definition sample_dithered : Surface * heap :=
  quantize 0 8 true true sample_flat.1.2 sample_flat.2.

Definition sample_undithered : Surface * heap :=
  quantize 0 8 true false sample_flat.1.2 sample_flat.2.

(** A store with one 2x1x1 surface whose red channel holds 51/255 = 0.2. *)
Definition sample_fifth_image : FloatImage :=
  mkFloatImage 2 1 1 [[51 # 255; 51 # 255]; [0; 0]; [0; 0]; [1; 1]].

Definition sample_fifth_state : Private :=
  mkPrivate 1 WrapMode_Mirror AlphaMode_None false TextureType_2D
    (Some sample_fifth_image).

Definition sample_fifth : heap := {[ 1%positive := sample_fifth_state ]}.

(** ** Flat channels and the quantizer *)

Definition channel_const (img : FloatImage) (channel : nat) (v : Q) : Prop :=
  forall i, (i < pixelCount img)%nat -> chan_get img channel i == v.

(** [v] is a value the quantizer maps to itself. *)
Definition quantizer_fixed (scale offset v : Q) : Prop :=
  floorf (v * scale + offset) / scale == v.

(** The state of the Floyd-Steinberg loops on a flat channel: the channel
    is still flat and both error rows hold zeros. *)
Definition dither_inv (img0 : FloatImage) (channel : nat) (v : Q)
    (s : FloatImage * list Q * list Q) : Prop :=
  fi_wf s.1.1 /\ fi_shape s.1.1 = fi_shape img0
  /\ channel_const s.1.1 channel v
  /\ (forall j, arr_get s.1.2 j == 0) /\ (forall j, arr_get s.2 j == 0).

(** A store with one 1x1x1 surface whose red channel holds 1.5, and the
    normal that points straight up. *)
Definition sample_hist_state : Private :=
  mkPrivate 1 WrapMode_Mirror AlphaMode_None false TextureType_2D
    (Some (mkFloatImage 1 1 1 [[3 # 2]; [0]; [0]; [1]])).

Definition sample_hist : heap := {[ 1%positive := sample_hist_state ]}.

Definition normal_up : Vector3 := mkVector3 0 0 1.

Definition normal_flat : Vector3 := mkVector3 (3 # 5) (4 # 5) 0.

(** ** The histogram bucket as the specification words it *)

(** "bin floor((f - min) / (max - min) * binCount) ... with any
    out-of-range value clamped to the first or last bin". *)
Definition spec_histogram_bin (rangeMin rangeMax : Q) (binCount : Z) (f : Q) : Z :=
  Z.min (binCount - 1)
    (Z.max 0 (Qfloor ((f - rangeMin) / (rangeMax - rangeMin) * inject_Z binCount))).

(** ** The reference-counting discipline *)

(** [hs] lists the handles that are alive: position [i] is the [i]-th
    [Surface] variable of the program.  The count of a state is the number
    of handles that point at it, and only referenced states are kept. *)
Definition holders (hs : list Surface) (p : positive) : nat :=
  length (filter (fun s => m s = p) hs).

Definition store_wf (hs : list Surface) (σ : heap) : Prop :=
  Forall (fun s => is_Some (σ !! m s)) hs
  /\ map_Forall (fun p st => refCount st = holders hs p) σ.

Global Instance store_wf_dec hs σ : Decision (store_wf hs σ).
Proof. unfold store_wf. apply _. Defined.

(** ** The texture-type invariant *)

(** "[textureType = 3D] iff depth > 1, [= 2D] iff depth == 1", for a state
    that holds a buffer. *)
Definition type_matches_depth (st : Private) : Prop :=
  match image st with
  | Some img =>
      (type st = TextureType_3D <-> (fi_depth img > 1)%Z)
      /\ (type st = TextureType_2D <-> fi_depth img = 1%Z)
  | None => True
  end.

Definition state_shape (st : Private) : option (Z * Z * Z) :=
  fi_shape <$> image st.

(** ** More of the integer helpers *)

(** The loop of [nv::countMipmaps(uint w)], with fuel as for the
    three-argument one. *)
Fixpoint countMipmaps1_loop (fuel : nat) (w mipmap : Z) : option Z :=
  match fuel with
  | O => None
  | S fuel' =>
      if negb (w =? 1)%Z then
        countMipmaps1_loop fuel' (Z.max 1 (Z.quot w 2)) (to_uint (mipmap + 1))
      else Some (to_uint (mipmap + 1))
  end.

Definition countMipmaps1 (w : Z) : option Z := countMipmaps1_loop 33 w 0.

(** ** Counting references *)

(** The store agrees with a count [cnt] of the references to each address:
    a state records the count of its address, and an address without a
    state has none. *)
Definition counted (cnt : positive -> nat) (σ : heap) : Prop :=
  forall p, match σ !! p with
            | Some st => refCount st = cnt p
            | None => cnt p = 0%nat
            end.

(** ** More per-pixel codecs *)

(** The loops of [toSrgb], [toLinearFromSrgb] and [toXenonSrgb]: the first
    three planes, each rewritten value by value. *)
Definition map_rgb_planes (k : Q -> Q) (img : FloatImage) : FloatImage :=
  for_loop 3 (fun c =>
    for_loop (pixelCount img) (fun i img => chan_set img c i (k (chan_get img c i))))
    img.

(** Modelled from the spec: the libm power function that the sRGB curves
    call and that is not among the sources. *)
Class Libm := {
  powf : Q -> Q -> Q
}.

Section Srgb.
Context `{Libm}.

(** [static float toSrgb(float f)]; a rational is never a NaN, so the first
    test does not fire. *)
Definition toSrgb_value (f : Q) : Q :=
  if Qle_bool f 0 then 0
  else if Qle_bool f (31308 # 10000000) then (1292 # 100) * f
  else if Qle_bool f 1 then (powf f (41666 # 100000) * (1055 # 1000)) - (55 # 1000)
  else 1.

(** [static float fromSrgb(float f)]; the division by 12.92 is exact
    here and rounded in the code. *)
Definition fromSrgb_value (f : Q) : Q :=
  if Qlt_le_dec f 0 then 0
  else if Qlt_le_dec f (4045 # 100000) then f / (1292 # 100)
  else if Qle_bool f 1 then powf ((f + (55 # 1000)) / (1055 # 1000)) (24 # 10)
  else 1.

Definition toSrgb_image (img : FloatImage) : FloatImage :=
  map_rgb_planes toSrgb_value img.

Definition toLinearFromSrgb_image (img : FloatImage) : FloatImage :=
  map_rgb_planes fromSrgb_value img.

(** [Surface::toSrgb] and [Surface::toLinearFromSrgb] *)
Definition toSrgb (this : Surface) (σ : heap) : Surface * heap :=
  if isNull this σ then (this, σ)
  else mutating (on_image toSrgb_image) this σ.

Definition toLinearFromSrgb (this : Surface) (σ : heap) : Surface * heap :=
  if isNull this σ then (this, σ)
  else mutating (on_image toLinearFromSrgb_image) this σ.
End Srgb.

(** [static float toXenonSrgb(float f)] *)
Definition toXenonSrgb_value (f : Q) : Q :=
  if Qlt_le_dec f 0 then 0
  else if Qlt_le_dec f (1 / 16) then 4 * f
  else if Qlt_le_dec f (1 / 8) then (1 # 4) + 2 * (f - (625 # 10000))
  else if Qlt_le_dec f (1 # 2) then (375 # 1000) + 1 * (f - (125 # 1000))
  else if Qlt_le_dec f 1 then (75 # 100) + (1 # 2) * (f - (1 # 2))
  else 1.

(** [Surface::toXenonSrgb] *)
Definition toXenonSrgb (this : Surface) (σ : heap) : Surface * heap :=
  if isNull this σ then (this, σ)
  else mutating (on_image (map_rgb_planes toXenonSrgb_value)) this σ.

(** The loop bodies of [Surface::toYCoCg] and [Surface::fromYCoCg]. *)
Definition toYCoCg_pixel (c : Color) : Color :=
  let '(R, G, B, _) := c in
  let Y := (2 * G + R + B) * (1 # 4) in
  let Co := R - B in
  let Cg := (2 * G - R - B) * (1 # 2) in
  (Co, Cg, 1, Y).

Definition fromYCoCg_pixel (c : Color) : Color :=
  let '(Co, Cg, b, Y) := c in
  let scale := b * (1 # 2) in
  let Co := Co * scale in
  let Cg := Cg * scale in
  let R := Y + Co - Cg in
  let G := Y + Cg in
  let B := Y - Co - Cg in
  (R, G, B, 1).

(** [Surface::toYCoCg] and [Surface::fromYCoCg] *)
Definition toYCoCg (this : Surface) (σ : heap) : Surface * heap :=
  if isNull this σ then (this, σ)
  else mutating (on_image (map_pixels toYCoCg_pixel)) this σ.

Definition fromYCoCg (this : Surface) (σ : heap) : Surface * heap :=
  if isNull this σ then (this, σ)
  else mutating (on_image (map_pixels fromYCoCg_pixel)) this σ.

(** [Surface::fill] *)
Definition fill (red green blue alpha : Q) (this : Surface) (σ : heap)
    : Surface * heap :=
  if isNull this σ then (this, σ)
  else mutating (on_image (map_pixels (fun _ => (red, green, blue, alpha)))) this σ.

(** [Surface::premultiplyAlpha] *)
Definition premultiplyAlpha_pixel (c : Color) : Color :=
  let '(r, g, b, a) := c in (r * a, g * a, b * a, a).

Definition premultiplyAlpha (this : Surface) (σ : heap) : Surface * heap :=
  if isNull this σ then (this, σ)
  else mutating (on_image (map_pixels premultiplyAlpha_pixel)) this σ.

(** [Surface::toGreyScale]: the weights are divided by their sum first.
    In exact arithmetic the divided weights sum to 1; in binary32 they
    need not. *)
Definition toGreyScale_pixel (redScale greenScale blueScale alphaScale : Q)
    (c : Color) : Color :=
  let '(r, g, b, a) := c in
  let grey := r * redScale + g * greenScale + b * blueScale + a * alphaScale in
  (grey, grey, grey, grey).

Definition toGreyScale_image (redScale greenScale blueScale alphaScale : Q)
    (img : FloatImage) : FloatImage :=
  let sum := redScale + greenScale + blueScale + alphaScale in
  let redScale := redScale / sum in
  let greenScale := greenScale / sum in
  let blueScale := blueScale / sum in
  let alphaScale := alphaScale / sum in
  map_pixels (toGreyScale_pixel redScale greenScale blueScale alphaScale) img.

Definition toGreyScale (redScale greenScale blueScale alphaScale : Q)
    (this : Surface) (σ : heap) : Surface * heap :=
  if isNull this σ then (this, σ)
  else mutating (on_image (toGreyScale_image redScale greenScale blueScale alphaScale))
         this σ.

(** [Surface::abs] *)
Definition abs_image (channel : nat) (img : FloatImage) : FloatImage :=
  for_loop (pixelCount img) (fun i img =>
    chan_set img channel i (Qabs (chan_get img channel i))) img.

Definition Surface_abs (channel : nat) (this : Surface) (σ : heap) : Surface * heap :=
  if isNull this σ then (this, σ)
  else mutating (on_image (abs_image channel)) this σ.

(** A rational stand-in for [powf], exact for the exponent 1, to run the
    examples; the properties below hold for every instance. *)
Definition model_libm : Libm := {| powf := fun x _ => x |}.

(** The 1x1x1 sample filled with a dark colour. *)
Definition sample_dark : Surface * heap :=
  fill (1 # 1000) (1 # 1000) (1 # 1000) 1 sample_2d.1.2 sample_2d.2.

Definition sample_dark_image : FloatImage :=
  mkFloatImage 1 1 1 [[1 # 1000]; [1 # 1000]; [1 # 1000]; [1]].

(** The number of samples a histogram array holds. *)
Definition bin_total (bins : list Z) : Z := foldr Z.add 0%Z bins.

(** [FLT_MAX], the largest finite [float]. *)
Definition FLT_MAX : Q := inject_Z (2 ^ 128 - 2 ^ 104).

(** The loop of [Surface::range] over the plane [c]. *)
Definition range_loop (c : list Q) (count : nat) : Q * Q :=
  for_loop count (fun p r =>
    let f := arr_get c p in
    let r := if Qlt_le_dec f r.1 then (f, r.2) else r in
    if Qlt_le_dec r.2 f then (r.1, f) else r) (FLT_MAX, - FLT_MAX).

(** [Surface::range]: the pair [(rangeMin, rangeMax)] it stores. *)
Definition range (channel : nat) (this : Surface) (σ : heap) : Q * Q :=
  match image (deref this σ) with
  | None => (FLT_MAX, - FLT_MAX)
  | Some img => range_loop (fi_channel img channel) (pixelCount img)
  end.

(** ** Binarize *)

(** [float(f > threshold)] *)
Definition above (threshold f : Q) : Q :=
  if Qlt_le_dec threshold f then 1 else 0.

(** The loop of the undithered path of [Surface::binarize]. *)
Definition binarize_plain (channel : nat) (threshold : Q) (img : FloatImage)
    : FloatImage :=
  for_loop (pixelCount img) (fun i img =>
    chan_set img channel i (above threshold (chan_get img channel i))) img.

(** The Floyd-Steinberg path, with the loops of the dithered quantizer;
    here too the pixel is taken from slice 0. *)
Definition binarize_dither_pixel (channel : nat) (threshold : Q) (y x : nat)
    (s : FloatImage * list Q * list Q) : FloatImage * list Q * list Q :=
  let '(img, row0, row1) := s in
  let f := pixel img channel x y 0 in
  let qf := above threshold (f + arr_get row0 (1 + x)) in
  let diff := f - qf in
  let img := set_pixel img channel x y 0 qf in
  let row0 := arr_add row0 (1 + x + 1) ((7 / 16) * diff) in
  let row1 := arr_add row1 (1 + x - 1) ((3 / 16) * diff) in
  let row1 := arr_add row1 (1 + x + 0) ((5 / 16) * diff) in
  let row1 := arr_add row1 (1 + x + 1) ((1 / 16) * diff) in
  (img, row0, row1).

Definition binarize_dither_row (channel : nat) (threshold : Q) (w y : nat)
    (s : FloatImage * list Q * list Q) : FloatImage * list Q * list Q :=
  let '(img, row0, row1) :=
    for_loop w (binarize_dither_pixel channel threshold y) s in
  (img, row1, replicate (w + 2) 0).

Definition binarize_dither (channel : nat) (threshold : Q) (img : FloatImage)
    : FloatImage :=
  let w := Z.to_nat (fi_width img) in
  let h := Z.to_nat (fi_height img) in
  let d := Z.to_nat (fi_depth img) in
  for_loop d (fun z img =>
    let row0 := replicate (w + 2) 0 in
    let row1 := replicate (w + 2) 0 in
    fst (fst (for_loop h (binarize_dither_row channel threshold w)
                (img, row0, row1)))) img.

Definition binarize_image (channel : nat) (threshold : Q) (dither : bool)
    (img : FloatImage) : FloatImage :=
  if negb dither then binarize_plain channel threshold img
  else binarize_dither channel threshold img.

(** [Surface::binarize] *)
Definition binarize (channel : nat) (threshold : Q) (dither : bool)
    (this : Surface) (σ : heap) : Surface * heap :=
  if isNull this σ then (this, σ)
  else mutating (on_image (binarize_image channel threshold dither)) this σ.

(** The first index after slice 0. *)
Definition slice_size (img : FloatImage) : nat :=
  (Z.to_nat (fi_width img) * Z.to_nat (fi_height img))%nat.

(** [img] has the shape of [img0] and agrees with it outside slice 0 of
    the plane [channel]. *)
Definition untouched (img0 : FloatImage) (channel : nat) (img : FloatImage) : Prop :=
  fi_shape img = fi_shape img0
  /\ forall c j, c <> channel \/ (slice_size img0 <= j)%nat ->
       chan_get img c j = chan_get img0 c j.

(** The buffer of [sample_canvas]: the sample pixel and a cleared slice. *)
Definition sample_canvas_image : FloatImage :=
  mkFloatImage 1 1 2 [[1 # 4; 0]; [1 # 4; 0]; [1 # 4; 0]; [1 # 4; 0]].

(** ** Canvas copies *)

(** [new] still has the shape of [new0]; the pixels at the coordinates in
    [S] hold the colours [img] has at those coordinates and the others
    are clear. *)
Definition copied (img new0 : FloatImage) (S : nat -> nat -> nat -> Prop)
    (new : FloatImage) : Prop :=
  fi_wf new /\ fi_shape new = fi_shape new0
  /\ forall x y z,
       (x < Z.to_nat (fi_width new0))%nat -> (y < Z.to_nat (fi_height new0))%nat ->
       (z < Z.to_nat (fi_depth new0))%nat ->
       (S x y z -> read_color new (pixel_index new0 x y z)
                   = read_color img (pixel_index img x y z))
       /\ (~ S x y z -> read_color new (pixel_index new0 x y z) = (0, 0, 0, 0)).

(** The body of the innermost loop of [canvasSize_copy]. *)
Definition canvasSize_step (img : FloatImage) (x y z : nat) (new_img : FloatImage)
    : FloatImage :=
  let new_img := set_pixel new_img 0 x y z (pixel img 0 x y z) in
  let new_img := set_pixel new_img 1 x y z (pixel img 1 x y z) in
  let new_img := set_pixel new_img 2 x y z (pixel img 2 x y z) in
  set_pixel new_img 3 x y z (pixel img 3 x y z).

(** ** Reconstructing normals *)


Section Reconstruct.
Context `{Collaborators} `{VectorMath}.

End Reconstruct.


(** * Properties *)

Local Open Scope Z_scope.

(** ** Machine integers and powers of two *)

Lemma to_uint_small z : 0 <= z < 2 ^ 32 -> to_uint z = z.
Proof. intros Hz. unfold to_uint. apply Z.mod_small. exact Hz. Qed.

Lemma to_int_small z : - 2 ^ 31 <= z < 2 ^ 31 -> to_int z = z.
Proof. intros Hz. unfold to_int. rewrite Z.mod_small; lia. Qed.

Lemma to_int_range z : - 2 ^ 31 <= to_int z < 2 ^ 31.
Proof.
  unfold to_int.
  pose proof (Z.mod_pos_bound (z + 2 ^ 31) (2 ^ 32) ltac:(lia)). lia.
Qed.

Lemma to_int_le z : 0 <= z -> to_int z <= z.
Proof.
  intros Hz. unfold to_int.
  pose proof (Z.mod_le (z + 2 ^ 31) (2 ^ 32) ltac:(lia) ltac:(lia)). lia.
Qed.

Lemma quot_le_bound x m c : 0 < m -> 0 <= c -> x <= m * c -> Z.quot x m <= c.
Proof.
  intros Hm Hc Hx. destruct (Z.lt_ge_cases x 0) as [Hneg | Hpos].
  - assert (Z.quot x m <= 0); [| lia].
    replace x with (- (- x)) by lia. rewrite Z.quot_opp_l by lia.
    pose proof (Z.quot_pos (- x) m ltac:(lia) Hm). lia.
  - rewrite Z.quot_div_nonneg by lia. apply Z.div_le_upper_bound; lia.
Qed.

Lemma pow2_le_31 k : 0 <= k <= 31 -> 0 < 2 ^ k <= 2 ^ 31.
Proof.
  intros Hk. split; [apply Z.pow_pos_nonneg; lia |].
  apply Z.pow_le_mono_r; lia.
Qed.

Lemma nextPowerOfTwo_eq v :
  1 <= v <= 2 ^ 31 -> nextPowerOfTwo v = 2 ^ Z.log2_up v.
Proof.
  intros Hv. unfold nextPowerOfTwo. apply to_uint_small.
  assert (Hk : 0 <= Z.log2_up v <= 31).
  { split; [apply Z.log2_up_nonneg |]. apply Z.log2_up_le_pow2; lia. }
  pose proof (pow2_le_31 _ Hk). lia.
Qed.

Lemma nextPowerOfTwo_ge v : 1 <= v <= 2 ^ 31 -> v <= nextPowerOfTwo v.
Proof.
  intros Hv. rewrite nextPowerOfTwo_eq by exact Hv.
  apply Z.log2_log2_up_spec. lia.
Qed.

Lemma nextPowerOfTwo_le_pow2 v k :
  0 <= k <= 31 -> 1 <= v <= 2 ^ k -> nextPowerOfTwo v <= 2 ^ k.
Proof.
  intros Hk Hv. pose proof (pow2_le_31 k Hk).
  rewrite nextPowerOfTwo_eq by lia.
  apply Z.pow_le_mono_r; [lia |]. apply Z.log2_up_le_pow2; lia.
Qed.

Lemma previousPowerOfTwo_eq v :
  1 <= v < 2 ^ 31 -> previousPowerOfTwo v = 2 ^ Z.log2 v.
Proof.
  intros Hv. unfold previousPowerOfTwo.
  rewrite to_uint_small by lia. rewrite nextPowerOfTwo_eq by lia.
  rewrite Z.log2_up_eqn by lia.
  replace (Z.pred (v + 1)) with v by lia.
  rewrite Z.pow_succ_r by apply Z.log2_nonneg.
  rewrite Z.mul_comm. apply Z.quot_mul. lia.
Qed.

Lemma previousPowerOfTwo_bounds v :
  1 <= v < 2 ^ 31 -> 1 <= previousPowerOfTwo v <= v.
Proof.
  intros Hv. rewrite previousPowerOfTwo_eq by exact Hv.
  pose proof (Z.log2_spec v ltac:(lia)).
  pose proof (Z.pow_pos_nonneg 2 (Z.log2 v) ltac:(lia) (Z.log2_nonneg v)). lia.
Qed.

Lemma nearestPowerOfTwo_cases v :
  nearestPowerOfTwo v = nextPowerOfTwo v \/ nearestPowerOfTwo v = previousPowerOfTwo v.
Proof.
  unfold nearestPowerOfTwo.
  destruct (to_uint (nextPowerOfTwo v - v) <=? to_uint (v - previousPowerOfTwo v));
    [left | right]; reflexivity.
Qed.

(** ** Extent rounding *)

(** An axis that is already below a power of two stays below it, whatever
    the rounding mode. *)
Lemma roundAxis_le_pow2 roundMode v k :
  0 <= k <= 30 -> 1 <= v <= 2 ^ k -> roundAxis roundMode v <= 2 ^ k.
Proof.
  intros Hk Hv.
  assert (H30 : 0 < 2 ^ k <= 2 ^ 30).
  { split; [apply Z.pow_pos_nonneg; lia | apply Z.pow_le_mono_r; lia]. }
  assert (Hn : 1 <= nextPowerOfTwo v <= 2 ^ k).
  { split.
    - pose proof (nextPowerOfTwo_ge v ltac:(lia)). lia.
    - apply nextPowerOfTwo_le_pow2; lia. }
  pose proof (previousPowerOfTwo_bounds v ltac:(lia)) as Hp.
  destruct roundMode; simpl; rewrite ?to_uint_small by lia.
  - lia.
  - rewrite to_int_small; lia.
  - destruct (nearestPowerOfTwo_cases v) as [-> | ->]; rewrite to_int_small; lia.
  - rewrite to_int_small; lia.
Qed.

Lemma scaleAxis_bounds v m c :
  1 <= v <= m -> 1 <= c ->
  1 <= Z.max (Z.quot (to_int (v * c)) m) 1 <= c.
Proof.
  intros Hv Hc. split; [lia |].
  apply Z.max_lub; [| lia].
  apply quot_le_bound; [lia | lia |].
  pose proof (to_int_le (v * c) ltac:(nia)). nia.
Qed.

(** After the scaling step every axis lies between 1 and the cap. *)
Lemma scaleExtent_bounds w h d c :
  1 <= w -> 1 <= h -> 1 <= d -> 1 <= c ->
  let '(w', h', d') := scaleExtent w h d c in
  (1 <= w' <= c) /\ (1 <= h' <= c) /\ (1 <= d' <= c).
Proof.
  intros Hw Hh Hd Hc. unfold scaleExtent.
  destruct (0 <? c) eqn:E0; [| apply Z.ltb_ge in E0; lia].
  destruct (c <? Z.max (Z.max w h) d) eqn:E; simpl.
  - repeat split; try lia; apply scaleAxis_bounds; lia.
  - apply Z.ltb_ge in E. lia.
Qed.

Lemma roundedMaxExtent_None maxExtent :
  roundedMaxExtent maxExtent RoundMode_None = maxExtent.
Proof. reflexivity. Qed.

(** With a rounding mode the cap becomes the largest power of two that is
    not above the given one. *)
Lemma roundedMaxExtent_pow2 maxExtent roundMode :
  roundMode <> RoundMode_None -> 1 <= maxExtent <= INT_MAX ->
  roundedMaxExtent maxExtent roundMode = 2 ^ Z.log2 maxExtent
  /\ 0 <= Z.log2 maxExtent <= 30
  /\ 1 <= roundedMaxExtent maxExtent roundMode <= maxExtent.
Proof.
  unfold INT_MAX. intros Hmode Hc. unfold roundedMaxExtent.
  rewrite bool_decide_eq_true_2 by exact Hmode.
  destruct (0 <? maxExtent) eqn:E0; [| apply Z.ltb_ge in E0; lia]. simpl.
  rewrite to_uint_small by lia.
  pose proof (previousPowerOfTwo_bounds maxExtent ltac:(lia)) as Hb.
  rewrite to_int_small by lia.
  rewrite previousPowerOfTwo_eq in * by lia.
  assert (Z.log2 maxExtent < 31).
  { apply Z.log2_lt_pow2; lia. }
  pose proof (Z.log2_nonneg maxExtent). repeat split; lia.
Qed.

Lemma cube_side_le x c : 0 <= x <= 2 * c -> Z.quot (to_int x) 2 <= c.
Proof.
  intros Hx. apply quot_le_bound; [lia | lia |].
  pose proof (to_int_le x ltac:(lia)). lia.
Qed.

(** The side of a cube face after rounding. *)
Lemma cube_side_round_le roundMode w h k :
  0 <= k <= 30 -> 1 <= w <= 2 ^ k -> 1 <= h <= 2 ^ k ->
  roundAxis roundMode (Z.quot (to_int (w + h)) 2) <= 2 ^ k.
Proof.
  intros Hk Hw Hh.
  assert (H30 : 0 < 2 ^ k <= 2 ^ 30).
  { split; [apply Z.pow_pos_nonneg; lia | apply Z.pow_le_mono_r; lia]. }
  destruct (Z.lt_ge_cases (w + h) (2 ^ 31)) as [Hlt | Hge].
  - rewrite to_int_small by lia. rewrite Z.quot_div_nonneg by lia.
    apply roundAxis_le_pow2; [lia |].
    pose proof (Z.div_le_lower_bound (w + h) 2 1 ltac:(lia) ltac:(lia)).
    pose proof (Z.div_le_upper_bound (w + h) 2 (2 ^ k) ltac:(lia) ltac:(lia)).
    lia.
  - assert (w + h = 2 ^ 31) as -> by lia.
    assert (roundAxis roundMode (Z.quot (to_int (2 ^ 31)) 2) <= 0)
      by (destruct roundMode; vm_compute; discriminate).
    lia.
Qed.

Lemma getTargetExtent_unfold width height depth maxExtent roundMode textureType :
  getTargetExtent width height depth maxExtent roundMode textureType =
  let '(w, h, d) :=
    shapeExtent
      (scaleExtent width height depth (roundedMaxExtent maxExtent roundMode))
      textureType in
  (roundAxis roundMode w, roundAxis roundMode h, roundAxis roundMode d).
Proof. reflexivity. Qed.

(** C4. For positive extents and a positive cap, no axis that
    [getTargetExtent] writes back exceeds the power-of-two ceiling of the
    cap it was given.  On the way: the cap is not raised by its own
    rounding, it is a power of two when a rounding mode is set, and the
    scaled extents (hence the largest of them) do not exceed it. *)
Theorem getTargetExtent_le_cap_ceiling
    (width height depth maxExtent : Z) (roundMode : RoundMode)
    (textureType : TextureType) :
  0 < width -> 0 < height -> 0 < depth -> 0 < maxExtent <= INT_MAX ->
  let cap := roundedMaxExtent maxExtent roundMode in
  let scaled := scaleExtent width height depth cap in
  let target := getTargetExtent width height depth maxExtent roundMode textureType in
  (cap <= maxExtent /\ (roundMode <> RoundMode_None -> cap = 2 ^ Z.log2 maxExtent))
  /\ Z.max (Z.max scaled.1.1 scaled.1.2) scaled.2 <= cap
  /\ target.1.1 <= nextPowerOfTwo maxExtent
  /\ target.1.2 <= nextPowerOfTwo maxExtent
  /\ target.2 <= nextPowerOfTwo maxExtent.
Proof.
  intros Hw Hh Hd Hc cap scaled target. unfold INT_MAX in Hc.
  pose proof (nextPowerOfTwo_ge maxExtent ltac:(lia)) as Hceil.
  assert (Hcap : 1 <= cap <= maxExtent
                 /\ (roundMode <> RoundMode_None ->
                     cap = 2 ^ Z.log2 maxExtent /\ 0 <= Z.log2 maxExtent <= 30)).
  { destruct (decide (roundMode = RoundMode_None)) as [-> | Hmode].
    - subst cap. rewrite roundedMaxExtent_None. split; [lia | congruence].
    - destruct (roundedMaxExtent_pow2 maxExtent roundMode Hmode) as (He & Hk & Hb).
      { unfold INT_MAX. lia. }
      subst cap. split; [lia | intros _; split; assumption]. }
  destruct Hcap as [Hcap Hpow].
  pose proof (scaleExtent_bounds width height depth cap
                ltac:(lia) ltac:(lia) ltac:(lia) ltac:(lia)) as Hs.
  subst target. rewrite getTargetExtent_unfold. fold cap. subst scaled.
  destruct (scaleExtent width height depth cap) as [[sw sh] sd]. simpl.
  destruct Hs as (Hsw & Hsh & Hsd).
  split; [split; [lia | intros Hm; apply Hpow, Hm] |].
  split; [lia |].
  destruct (decide (roundMode = RoundMode_None)) as [-> | Hmode].
  - (* no rounding: the axes are the scaled ones *)
    destruct textureType; simpl; repeat split; try lia;
      pose proof (cube_side_le (sw + sh) cap ltac:(lia)); lia.
  - destruct (Hpow Hmode) as [Hk Hk30].
    rewrite Hk in Hsw, Hsh, Hsd.
    assert (H1 : 1 <= 1 <= 2 ^ Z.log2 maxExtent) by lia.
    pose proof (roundAxis_le_pow2 roundMode sw _ Hk30 Hsw).
    pose proof (roundAxis_le_pow2 roundMode sh _ Hk30 Hsh).
    pose proof (roundAxis_le_pow2 roundMode sd _ Hk30 Hsd).
    pose proof (roundAxis_le_pow2 roundMode 1 _ Hk30 H1).
    pose proof (cube_side_round_le roundMode sw sh _ Hk30 Hsw Hsh).
    destruct textureType; simpl; repeat split; lia.
Qed.

Lemma getTargetExtent_le_cap_ceiling_witness :
  (getTargetExtent 300 200 1 100 RoundMode_ToNextPowerOfTwo TextureType_Cube).1.1
  <= nextPowerOfTwo 100.
Proof.
  apply (getTargetExtent_le_cap_ceiling 300 200 1 100
           RoundMode_ToNextPowerOfTwo TextureType_Cube);
    unfold INT_MAX; lia.
Defined.

(** ** Mipmap counting *)

Lemma halve_bounds v n :
  0 <= v < 2 ^ (Z.of_nat (S (S n))) ->
  0 <= Z.max 1 (Z.quot v 2) < 2 ^ (Z.of_nat (S n)).
Proof.
  intros Hv. rewrite (Nat2Z.inj_succ (S n)), Z.pow_succ_r in Hv by lia.
  rewrite Nat2Z.inj_succ, Z.pow_succ_r in * by lia.
  pose proof (Z.pow_pos_nonneg 2 (Z.of_nat n) ltac:(lia) ltac:(lia)).
  rewrite Z.quot_div_nonneg by lia.
  pose proof (Z.div_lt_upper_bound v 2 (2 * 2 ^ Z.of_nat n) ltac:(lia) ltac:(lia)).
  lia.
Qed.

(** The loop ends: extents below [2^(n+1)] need at most [n + 2] rounds. *)
Lemma countMipmaps_loop_total n : forall w h d mipmap,
  0 <= w < 2 ^ Z.of_nat (S n) -> 0 <= h < 2 ^ Z.of_nat (S n) ->
  0 <= d < 2 ^ Z.of_nat (S n) ->
  is_Some (countMipmaps_loop (S (S n)) w h d mipmap).
Proof.
  induction n as [| n IH]; intros w h d mipmap Hw Hh Hd.
  - change (2 ^ Z.of_nat 1) with 2 in *.
    assert (Hc : forall v, 0 <= v < 2 -> Z.max 1 (Z.quot v 2) = 1).
    { intros v Hv. assert (v = 0 \/ v = 1) as [-> | ->] by lia; reflexivity. }
    simpl. rewrite !Hc by assumption.
    destruct (negb (w =? 1) || negb (h =? 1) || negb (d =? 1)); simpl; eauto.
  - remember (S (S n)) as fuel. simpl.
    destruct (negb (w =? 1) || negb (h =? 1) || negb (d =? 1)); [| eauto].
    subst fuel. apply IH; apply halve_bounds; assumption.
Qed.

Lemma countMipmaps_total w h d :
  0 <= w < 2 ^ 32 -> 0 <= h < 2 ^ 32 -> 0 <= d < 2 ^ 32 ->
  is_Some (countMipmaps w h d).
Proof.
  intros Hw Hh Hd. unfold countMipmaps.
  apply (countMipmaps_loop_total 31); assumption.
Qed.

Lemma deref_insert p st (σ : heap) : deref (mkSurface p) (<[p := st]> σ) = st.
Proof. unfold deref. simpl. rewrite lookup_insert_eq. reflexivity. Qed.

(** C10. [Surface::countMipmaps] is the three-argument count of the
    buffer's width and height with depth 1: it returns that count (the
    loop ends), the buffer's own depth and contents have no influence on
    it, and a null surface gives 0. *)
Theorem Surface_countMipmaps_ignores_depth
    (σ : heap) (p : positive) (st : Private) (w h d : Z) (planes : list (list Q)) :
  0 <= w < 2 ^ 32 -> 0 <= h < 2 ^ 32 ->
  let this := mkSurface p in
  let σ1 := <[p := set_image (Some (mkFloatImage w h d planes)) st]> σ in
  (exists n, countMipmaps w h 1 = Some n
             /\ Surface_countMipmaps this σ1 = Some (to_int n))
  /\ (forall d' planes',
        Surface_countMipmaps this
          (<[p := set_image (Some (mkFloatImage w h d' planes')) st]> σ)
        = Surface_countMipmaps this σ1)
  /\ Surface_countMipmaps this (<[p := set_image None st]> σ) = Some 0.
Proof.
  intros Hw Hh this σ1. subst this σ1. unfold Surface_countMipmaps.
  rewrite !deref_insert. simpl.
  destruct (countMipmaps_total w h 1 Hw Hh ltac:(lia)) as [n Hn].
  split; [exists n; rewrite Hn; split; reflexivity |].
  split; [| reflexivity].
  intros d' planes'. rewrite deref_insert. reflexivity.
Qed.

Lemma Surface_countMipmaps_ignores_depth_witness :
  Surface_countMipmaps (mkSurface 1%positive)
    (<[1%positive := set_image (Some (mkFloatImage 256 4 64 [])) Private_new]> ∅)
  = Surface_countMipmaps (mkSurface 1%positive)
      (<[1%positive := set_image (Some (mkFloatImage 256 4 1 [])) Private_new]> ∅).
Proof.
  symmetry.
  apply (Surface_countMipmaps_ignores_depth ∅ 1%positive Private_new 256 4 64 []); lia.
Defined.

(** ** Copy-on-write *)

Lemma holders_cons s hs p :
  holders (s :: hs) p = ((if decide (m s = p) then 1 else 0) + holders hs p)%nat.
Proof.
  unfold holders. destruct (decide (m s = p)) as [E | E].
  - rewrite filter_cons_True by exact E. reflexivity.
  - rewrite filter_cons_False by exact E. reflexivity.
Qed.

Lemma holders_lookup hs i s : hs !! i = Some s -> (1 <= holders hs (m s))%nat.
Proof.
  revert i. induction hs as [| x hs IH]; intros [| i] Hi; simplify_eq/=.
  - rewrite holders_cons, decide_True by reflexivity. lia.
  - rewrite holders_cons. specialize (IH _ Hi). lia.
Qed.

(** Two distinct handles on one state: its count is at least two. *)
Lemma holders_shared hs i j s1 s2 :
  i <> j -> hs !! i = Some s1 -> hs !! j = Some s2 -> m s1 = m s2 ->
  (2 <= holders hs (m s1))%nat.
Proof.
  revert i j. induction hs as [| x hs IH]; intros [| i] [| j] Hij Hi Hj Hm;
    simplify_eq/=; rewrite holders_cons.
  - rewrite decide_True by reflexivity. rewrite Hm.
    pose proof (holders_lookup _ _ _ Hj). lia.
  - rewrite decide_True by (symmetry; exact Hm).
    pose proof (holders_lookup _ _ _ Hi). lia.
  - assert (i <> j) by congruence.
    specialize (IH i j ltac:(assumption) Hi Hj Hm). lia.
Qed.

Lemma holders_insert hs i s s' p :
  hs !! i = Some s ->
  (holders (<[i := s']> hs) p + (if decide (m s = p) then 1 else 0)
   = holders hs p + (if decide (m s' = p) then 1 else 0))%nat.
Proof.
  revert i. induction hs as [| x hs IH]; intros [| i] Hi; simplify_eq/=.
  - rewrite !holders_cons. lia.
  - rewrite !holders_cons. specialize (IH _ Hi). lia.
Qed.

Lemma store_wf_lookup hs σ p st :
  store_wf hs σ -> σ !! p = Some st -> refCount st = holders hs p.
Proof. intros [_ Hc] Hp. exact (Hc p st Hp). Qed.

Lemma store_wf_alive hs σ i s :
  store_wf hs σ -> hs !! i = Some s -> is_Some (σ !! m s).
Proof.
  intros [Ha _] Hi. rewrite Forall_forall in Ha. apply Ha.
  eapply list_elem_of_lookup_2. exact Hi.
Qed.

Lemma deref_lookup this σ st : σ !! m this = Some st -> deref this σ = st.
Proof. intros E. unfold deref. rewrite E. reflexivity. Qed.

(** What [detach] does to a handle whose state is shared. *)
Lemma detach_shared this σ st :
  σ !! m this = Some st -> (1 < refCount st)%nat ->
  let q := fresh (dom σ) in
  detach this σ =
    (mkSurface q,
     <[q := set_refCount 1 st]>
       (<[m this := set_refCount (pred (refCount st)) st]> σ))
  /\ q <> m this /\ σ !! q = None.
Proof.
  intros Hst Hrc q.
  assert (Hq : σ !! q = None).
  { apply not_elem_of_dom. apply is_fresh. }
  assert (Hne : q <> m this) by (intros E; rewrite E in Hq; congruence).
  split; [| split; assumption].
  unfold detach. rewrite (deref_lookup _ _ _ Hst).
  rewrite decide_True by exact Hrc.
  unfold release. rewrite Hst. rewrite decide_False by lia.
  unfold alloc. rewrite dom_insert_lookup_L by (rewrite Hst; eauto).
  fold q. unfold deref. rewrite lookup_insert_eq. simpl.
  unfold addRef. f_equal.
  apply map_eq. intros r. rewrite lookup_alter.
  destruct (decide (q = r)) as [<- | Hr].
  - rewrite !lookup_insert_eq. reflexivity.
  - rewrite !(lookup_insert_ne _ q r) by exact Hr. reflexivity.
Qed.

(** What [detach] does to the only handle of a state. *)
Lemma detach_sole this σ :
  (refCount (deref this σ) <= 1)%nat -> detach this σ = (this, σ).
Proof. intros Hrc. unfold detach. rewrite decide_False by lia. reflexivity. Qed.

Lemma holders_dead hs σ p :
  store_wf hs σ -> σ !! p = None -> holders hs p = 0%nat.
Proof.
  intros [Ha _] Hp. unfold holders.
  induction hs as [| s hs IH]; [reflexivity |].
  apply Forall_cons in Ha as [Hs Ha].
  rewrite filter_cons_False.
  - apply IH, Ha.
  - intros E. rewrite E, Hp in Hs. destruct Hs as [? ?]. discriminate.
Qed.

(** [detach] on a shared state keeps the discipline: the old state loses a
    holder, the clone has exactly one. *)
Lemma mutating_shared_wf hs σ i this st f :
  store_wf hs σ -> hs !! i = Some this -> σ !! m this = Some st ->
  (1 < refCount st)%nat -> (forall x, refCount (f x) = refCount x) ->
  store_wf (<[i := (mutating f this σ).1]> hs) (mutating f this σ).2.
Proof.
  intros Hwf Hi Hst Hrc Hf. unfold mutating.
  destruct (detach_shared this σ st Hst Hrc) as (-> & Hne & Hq).
  set (q := fresh (dom σ)) in *. simpl. unfold update. simpl.
  pose proof (holders_dead _ _ _ Hwf Hq) as Hq0.
  split.
  - apply Forall_forall. intros s Hs.
    apply list_elem_of_lookup in Hs as [k Hk].
    rewrite lookup_alter.
    destruct (decide (k = i)) as [-> | Hki].
    + rewrite list_lookup_insert_eq in Hk by (eapply lookup_lt_Some; exact Hi).
      simplify_eq/=. rewrite decide_True by reflexivity.
      rewrite lookup_insert_eq. simpl. eauto.
    + rewrite list_lookup_insert_ne in Hk by congruence.
      pose proof (store_wf_alive _ _ _ _ Hwf Hk) as [x Hx].
      destruct (decide (q = m s)) as [E | E]; [rewrite <- E in Hx; congruence |].
      rewrite lookup_insert_ne by exact E.
      destruct (decide (m this = m s)) as [E' | E'].
      * rewrite E', lookup_insert_eq. eauto.
      * rewrite lookup_insert_ne by exact E'. eauto.
  - intros r x Hx. rewrite lookup_alter in Hx.
    destruct (decide (q = r)) as [<- | Hqr].
    + rewrite lookup_insert_eq in Hx. simpl in Hx. simplify_eq.
      rewrite Hf. simpl.
      pose proof (holders_insert hs i this (mkSurface q) q Hi) as Hh.
      simpl in Hh. rewrite decide_False in Hh by congruence.
      rewrite decide_True in Hh by reflexivity. lia.
    + rewrite lookup_insert_ne in Hx by exact Hqr.
      pose proof (holders_insert hs i this (mkSurface q) r Hi) as Hh.
      simpl in Hh. rewrite (decide_False (P := q = r)) in Hh by exact Hqr.
      destruct (decide (m this = r)) as [E | Hpr].
      * rewrite E, lookup_insert_eq in Hx. simplify_eq. simpl.
        pose proof (store_wf_lookup _ _ _ _ Hwf Hst). lia.
      * rewrite lookup_insert_ne in Hx by exact Hpr.
        pose proof (store_wf_lookup _ _ _ _ Hwf Hx). lia.
Qed.

(** A state with two distinct handles has a count above one. *)
Lemma shared_refCount hs σ i j s1 s2 :
  store_wf hs σ -> i <> j -> hs !! i = Some s1 -> hs !! j = Some s2 ->
  m s1 = m s2 ->
  exists st, σ !! m s1 = Some st /\ (1 < refCount st)%nat.
Proof.
  intros Hwf Hij Hi Hj Hm.
  destruct (store_wf_alive _ _ _ _ Hwf Hi) as [st Hst].
  pose proof (store_wf_lookup _ _ _ _ Hwf Hst) as Hrc.
  pose proof (holders_shared _ _ _ _ _ Hij Hi Hj Hm) as H2.
  exists st. split; [exact Hst | lia].
Qed.

(** C2. Two handles share a state; one of them runs a mutating method,
    that is [detach()] followed by writes through [m->].  Then the handle
    that mutated has left the shared state for a clone of which it is the
    sole owner, the writes went to the clone, and the buffer seen through
    the other handle is the one it saw before.  The reference counts stay
    in step with the handles. *)
Theorem copy_on_write_independence
    (hs : list Surface) (σ : heap) (i j : nat) (s1 s2 : Surface)
    (f : Private -> Private) :
  store_wf hs σ -> i <> j -> hs !! i = Some s1 -> hs !! j = Some s2 ->
  m s1 = m s2 ->
  let s1' := (mutating f s1 σ).1 in
  let σ' := (mutating f s1 σ).2 in
  observe s2 σ' = observe s2 σ
  /\ m s1' <> m s2
  /\ deref s1' σ' = f (set_refCount 1 (deref s1 σ))
  /\ ((forall x, refCount (f x) = refCount x) ->
      refCount (deref s1' σ') = 1%nat /\ store_wf (<[i := s1']> hs) σ').
Proof.
  intros Hwf Hij Hi Hj Hm s1' σ'.
  destruct (shared_refCount _ _ _ _ _ _ Hwf Hij Hi Hj Hm) as (st & Hst & Hshared).
  pose proof (mutating_shared_wf hs σ i s1 st f Hwf Hi Hst Hshared) as Hpres.
  subst s1' σ'. revert Hpres. unfold mutating.
  destruct (detach_shared s1 σ st Hst Hshared) as (-> & Hne & Hq).
  set (q := fresh (dom σ)) in *. simpl. intros Hpres.
  unfold observe, deref, update. simpl. rewrite <- Hm.
  rewrite lookup_alter_eq, lookup_alter_ne by exact Hne.
  rewrite lookup_insert_eq. rewrite lookup_insert_ne by exact Hne.
  rewrite lookup_insert_eq, Hst. simpl.
  split; [reflexivity |]. split; [exact Hne |]. split; [reflexivity |].
  intros Hf. split; [rewrite Hf; reflexivity | apply Hpres, Hf].
Qed.

(** Two handles on one 1x1x1 image; the first one decodes RGBM. *)
Lemma copy_on_write_independence_witness :
  observe sample_copy.1
    (mutating (on_image (fromRGBM_image 2)) sample_2d.1.2 sample_copy.2).2
  = observe sample_copy.1 sample_copy.2.
Proof.
  apply (copy_on_write_independence [sample_2d.1.2; sample_copy.1] sample_copy.2
           0 1 sample_2d.1.2 sample_copy.1 (on_image (fromRGBM_image 2))).
  - apply (bool_decide_unpack _). vm_compute. exact I.
  - lia.
  - reflexivity.
  - reflexivity.
  - reflexivity.
Defined.

(** The methods modelled here are guards around [mutating]: none of them
    changes what the other handle of a shared state shows. *)
Lemma guarded_mutating_shared hs σ i j s1 s2 (guard : bool) f :
  store_wf hs σ -> i <> j -> hs !! i = Some s1 -> hs !! j = Some s2 ->
  m s1 = m s2 ->
  observe s2 (if guard then (s1, σ) else mutating f s1 σ).2 = observe s2 σ.
Proof.
  intros Hwf Hij Hi Hj Hm. destruct guard; [reflexivity |].
  destruct (shared_refCount _ _ _ _ _ _ Hwf Hij Hi Hj Hm) as (st & Hst & Hshared).
  unfold mutating.
  destruct (detach_shared s1 σ st Hst Hshared) as (-> & Hne & Hq).
  unfold observe, deref, update. simpl. rewrite <- Hm.
  rewrite lookup_alter_ne by exact Hne.
  rewrite lookup_insert_ne by exact Hne.
  rewrite lookup_insert_eq, Hst. reflexivity.
Qed.

Lemma codec_methods_shared hs σ i j s1 s2 range threshold channel bits e dith :
  store_wf hs σ -> i <> j -> hs !! i = Some s1 -> hs !! j = Some s2 ->
  m s1 = m s2 ->
  observe s2 (toRGBM range threshold s1 σ).2 = observe s2 σ
  /\ observe s2 (fromRGBM range s1 σ).2 = observe s2 σ
  /\ observe s2 (quantize channel bits e dith s1 σ).2 = observe s2 σ.
Proof.
  intros Hwf Hij Hi Hj Hm. unfold toRGBM, fromRGBM, quantize.
  repeat split; eapply guarded_mutating_shared; eassumption.
Qed.

(** ** Shape-changing operations *)

Lemma for_loop_ind {S : Type} (P : S -> Prop) n (body : nat -> S -> S) s :
  P s -> (forall i s, (i < n)%nat -> P s -> P (body i s)) -> P (for_loop n body s).
Proof.
  intros Hs Hbody. unfold for_loop.
  assert (Hin : forall i, i ∈ seq 0 n -> (i < n)%nat).
  { intros i Hi. apply elem_of_seq in Hi. lia. }
  revert s Hs Hin. generalize (seq 0 n) as l.
  induction l as [| i l IH]; intros s Hs Hin; simpl; [exact Hs |].
  apply IH.
  - apply Hbody; [apply Hin; left | exact Hs].
  - intros k Hk. apply Hin. right. exact Hk.
Qed.

Lemma for_loop_S {S : Type} n (body : nat -> S -> S) s :
  for_loop (Datatypes.S n) body s = body n (for_loop n body s).
Proof.
  unfold for_loop. rewrite seq_S, foldl_app. reflexivity.
Qed.

Lemma set_refCount_id st : set_refCount (refCount st) st = st.
Proof. destruct st; reflexivity. Qed.

(** The state a handle points at after a mutating method: the writes
    applied to the state it had, up to the reference count. *)
Lemma deref_mutating f this σ st :
  σ !! m this = Some st ->
  exists n, deref (mutating f this σ).1 (mutating f this σ).2
            = f (set_refCount n st).
Proof.
  intros Hst. unfold mutating.
  destruct (decide (1 < refCount st)%nat) as [Hrc | Hrc].
  - destruct (detach_shared this σ st Hst Hrc) as (-> & _ & _).
    exists 1%nat. simpl. unfold deref, update. simpl.
    rewrite lookup_alter_eq, lookup_insert_eq. reflexivity.
  - rewrite detach_sole by (rewrite (deref_lookup _ _ _ Hst); lia).
    exists (refCount st). simpl. unfold deref, update.
    rewrite lookup_alter_eq, Hst, set_refCount_id. reflexivity.
Qed.

Lemma chan_set_shape img c i v : fi_shape (chan_set img c i v) = fi_shape img.
Proof. reflexivity. Qed.

Lemma write_color_shape img i c : fi_shape (write_color img i c) = fi_shape img.
Proof. destruct c as [[[r g] b] a]. reflexivity. Qed.

Lemma map_pixels_shape k img : fi_shape (map_pixels k img) = fi_shape img.
Proof.
  unfold map_pixels.
  apply (for_loop_ind (fun x => fi_shape x = fi_shape img)); [reflexivity |].
  intros i x _ Hx. rewrite write_color_shape. exact Hx.
Qed.

Lemma fill_plane_shape c v img : fi_shape (fill_plane c v img) = fi_shape img.
Proof.
  unfold fill_plane.
  apply (for_loop_ind (fun x => fi_shape x = fi_shape img)); [reflexivity |].
  intros i x _ Hx. rewrite chan_set_shape. exact Hx.
Qed.

Section ShapeProperties.
Context `{Collaborators}.

Lemma setImage_fill_shape format data img :
  fi_shape (setImage_fill format data img) = fi_shape img.
Proof.
  unfold setImage_fill.
  repeat case_decide; try reflexivity;
    (apply (for_loop_ind (fun x => fi_shape x = fi_shape img)); [reflexivity |];
     intros i x _ Hx; rewrite write_color_shape; exact Hx).
Qed.

Lemma setImage_planar_fill_shape format r g b a img :
  fi_shape (setImage_planar_fill format r g b a img) = fi_shape img.
Proof.
  unfold setImage_planar_fill.
  repeat case_decide; rewrite ?fill_plane_shape; reflexivity.
Qed.

Lemma scatter_block_shape w h x y colors img :
  fi_shape (scatter_block w h x y colors img) = fi_shape img.
Proof.
  unfold scatter_block.
  apply (for_loop_ind (fun x => fi_shape x = fi_shape img)); [reflexivity |].
  intros yy img1 _ H1.
  apply (for_loop_ind (fun x => fi_shape x = fi_shape img)); [exact H1 |].
  intros xx img2 _ H2.
  destruct (_ && _); [| exact H2]. exact H2.
Qed.

Lemma setImage2D_fill_shape format decoder w h data img :
  fi_shape (setImage2D_fill format decoder w h data img) = fi_shape img.
Proof.
  unfold setImage2D_fill.
  apply (for_loop_ind (fun s => fi_shape (fst s) = fi_shape img)); [reflexivity |].
  intros y s1 _ H1.
  apply (for_loop_ind (fun s => fi_shape (fst s) = fi_shape img)); [exact H1 |].
  intros x [img2 ptr] _ H2. simpl in *.
  rewrite scatter_block_shape. exact H2.
Qed.

Lemma canvasSize_copy_shape w h d img new_img :
  fi_shape (canvasSize_copy w h d img new_img) = fi_shape new_img.
Proof.
  unfold canvasSize_copy.
  apply (for_loop_ind (fun x => fi_shape x = fi_shape new_img)); [reflexivity |].
  intros z i1 _ H1.
  apply (for_loop_ind (fun x => fi_shape x = fi_shape new_img)); [exact H1 |].
  intros y i2 _ H2.
  apply (for_loop_ind (fun x => fi_shape x = fi_shape new_img)); [exact H2 |].
  intros x i3 _ H3. exact H3.
Qed.
End ShapeProperties.

Lemma type_from_depth_matches st img d :
  image st = Some img -> fi_depth img = d -> 1 <= d ->
  type st = (if d =? 1 then TextureType_2D else TextureType_3D) ->
  type_matches_depth st.
Proof.
  intros Himg Hd H1 Ht. unfold type_matches_depth. rewrite Himg, Hd, Ht.
  destruct (d =? 1) eqn:E.
  - apply Z.eqb_eq in E. split; split; intros; try discriminate; try lia.
    reflexivity.
  - apply Z.eqb_neq in E. split; split; intros; try discriminate; try lia.
    reflexivity.
Qed.

Lemma fi_shape_depth img w h d : fi_shape img = (w, h, d) -> fi_depth img = d.
Proof. unfold fi_shape. intros E. congruence. Qed.

Section TextureType.
Context `{Collaborators}.

Lemma setImage_body_spec format w h d data st :
  1 <= d ->
  state_shape (setImage_body format w h d data st) = Some (w, h, d)
  /\ type_matches_depth (setImage_body format w h d data st).
Proof.
  intros Hd.
  assert (Hs : state_shape (setImage_body format w h d data st) = Some (w, h, d)).
  { unfold state_shape, setImage_body, on_image. simpl.
    rewrite setImage_fill_shape. reflexivity. }
  split; [exact Hs |].
  unfold state_shape in Hs.
  destruct (image (setImage_body format w h d data st)) as [img |] eqn:Himg;
    [| discriminate].
  simpl in Hs. simplify_eq.
  eapply type_from_depth_matches;
    [exact Himg | eapply fi_shape_depth; eassumption | exact Hd | reflexivity].
Qed.

Lemma setImage_planar_body_spec format w h d r g b a st :
  1 <= d ->
  state_shape (setImage_planar_body format w h d r g b a st) = Some (w, h, d)
  /\ type_matches_depth (setImage_planar_body format w h d r g b a st).
Proof.
  intros Hd.
  assert (Hs : state_shape (setImage_planar_body format w h d r g b a st)
               = Some (w, h, d)).
  { unfold state_shape, setImage_planar_body, on_image. simpl.
    rewrite setImage_planar_fill_shape. reflexivity. }
  split; [exact Hs |].
  unfold state_shape in Hs.
  destruct (image (setImage_planar_body format w h d r g b a st))
    as [img |] eqn:Himg; [| discriminate].
  simpl in Hs. simplify_eq.
  eapply type_from_depth_matches;
    [exact Himg | eapply fi_shape_depth; eassumption | exact Hd | reflexivity].
Qed.

Lemma setImage2D_body_spec format decoder w h data st :
  state_shape (setImage2D_body format decoder w h data st) = Some (w, h, 1)
  /\ type_matches_depth (setImage2D_body format decoder w h data st).
Proof.
  assert (Hs : state_shape (setImage2D_body format decoder w h data st)
               = Some (w, h, 1)).
  { unfold state_shape, setImage2D_body, on_image. simpl.
    rewrite setImage2D_fill_shape. reflexivity. }
  split; [exact Hs |].
  unfold state_shape in Hs.
  destruct (image (setImage2D_body format decoder w h data st))
    as [img |] eqn:Himg; [| discriminate].
  simpl in Hs. simplify_eq.
  eapply (type_from_depth_matches _ _ 1);
    [exact Himg | eapply fi_shape_depth; eassumption | lia | reflexivity].
Qed.

(** [canvasSize] takes the type from the depth of the copied region, which
    is the new depth when the canvas does not get deeper. *)
Lemma canvasSize_body_spec w h d st img :
  image st = Some img -> 1 <= d <= fi_depth img -> d <= INT_MAX ->
  state_shape (canvasSize_body w h d st) = Some (w, h, d)
  /\ type_matches_depth (canvasSize_body w h d st).
Proof.
  unfold INT_MAX. intros Himg Hd Hmax.
  assert (Hclip : to_int (Z.min (to_uint d) (fi_depth img)) = d).
  { rewrite to_uint_small by lia. rewrite Z.min_l by lia.
    apply to_int_small. lia. }
  assert (Hs : state_shape (canvasSize_body w h d st) = Some (w, h, d)).
  { unfold state_shape, canvasSize_body. rewrite Himg. simpl.
    rewrite canvasSize_copy_shape. reflexivity. }
  split; [exact Hs |].
  unfold state_shape in Hs.
  destruct (image (canvasSize_body w h d st)) as [img' |] eqn:Himg';
    [| discriminate].
  simpl in Hs. simplify_eq.
  eapply type_from_depth_matches;
    [exact Himg' | eapply fi_shape_depth; eassumption | lia |].
  unfold canvasSize_body. rewrite Himg. simpl. rewrite Hclip. reflexivity.
Qed.

Lemma resize_body_spec w h d filter filterWidth params st :
  type (resize_body w h d filter filterWidth params st) = type st
  /\ (image st <> None ->
      state_shape (resize_body w h d filter filterWidth params st)
      = Some (w, h, d)).
Proof.
  unfold resize_body, state_shape. destruct (image st) as [img |] eqn:Himg.
  - split; [reflexivity |]. intros _. simpl.
    repeat case_decide; rewrite fi_resize_shape; reflexivity.
  - split; [reflexivity | congruence].
Qed.
End TextureType.

Lemma shape_guard_false this σ st img w h d :
  σ !! m this = Some st -> image st = Some img -> fi_shape img <> (w, h, d) ->
  isNull this σ
  || ((w =? width this σ) && (h =? height this σ) && (d =? depth this σ)) = false.
Proof.
  intros Hst Himg Hne. unfold isNull, width, height, depth.
  rewrite (deref_lookup _ _ _ Hst), Himg.
  rewrite bool_decide_eq_false_2 by discriminate. simpl.
  destruct (w =? fi_width img) eqn:Ew; [| reflexivity].
  destruct (h =? fi_height img) eqn:Eh; [| reflexivity].
  destruct (d =? fi_depth img) eqn:Ed; [| reflexivity].
  apply Z.eqb_eq in Ew, Eh, Ed. exfalso. apply Hne.
  unfold fi_shape. congruence.
Qed.

(** C3, as the code has it.  On a live handle: after [setImage] (either
    overload, depth at least 1) and after an accepted [setImage2D] the type
    is 3D iff the depth is above 1 and 2D iff it is 1; the same holds after
    a [canvasSize] that changes the shape without making the canvas deeper;
    [resize] gives the buffer the requested shape and leaves the type as it
    was. *)
Theorem texture_type_after_shape_change `{Collaborators}
    (this : Surface) (σ : heap) (st : Private) :
  σ !! m this = Some st ->
  (forall format w h d data, 1 <= d ->
     let r := setImage format w h d data this σ in
     let st' := deref r.1.2 r.2 in
     state_shape st' = Some (w, h, d) /\ type_matches_depth st')
  /\ (forall format w h d r g b a, 1 <= d ->
     let r := setImage_planar format w h d r g b a this σ in
     let st' := deref r.1.2 r.2 in
     state_shape st' = Some (w, h, d) /\ type_matches_depth st')
  /\ (forall format decoder w h data,
     let r := setImage2D format decoder w h data this σ in
     r.1.1 = true ->
     let st' := deref r.1.2 r.2 in
     state_shape st' = Some (w, h, 1) /\ type_matches_depth st')
  /\ (forall w h d img,
     image st = Some img -> fi_shape img <> (w, h, d) ->
     1 <= d <= fi_depth img -> d <= INT_MAX ->
     let r := canvasSize w h d this σ in
     let st' := deref r.1 r.2 in
     state_shape st' = Some (w, h, d) /\ type_matches_depth st')
  /\ (forall w h d filter filterWidth params,
     let r := resize w h d filter filterWidth params this σ in
     let st' := deref r.1 r.2 in
     type st' = type st
     /\ (forall img, image st = Some img -> fi_shape img <> (w, h, d) ->
         state_shape st' = Some (w, h, d))).
Proof.
  intros Hst. repeat apply conj.
  - intros format w h d data Hd. unfold setImage.
    destruct (deref_mutating (setImage_body format w h d data) this σ st Hst)
      as [n Hn].
    destruct (mutating _ this σ) as [this' σ']. simpl in *. rewrite Hn.
    apply setImage_body_spec, Hd.
  - intros format w h d r g b a Hd. unfold setImage_planar.
    destruct (deref_mutating (setImage_planar_body format w h d r g b a) this σ st Hst)
      as [n Hn].
    destruct (mutating _ this σ) as [this' σ']. simpl in *. rewrite Hn.
    apply setImage_planar_body_spec, Hd.
  - intros format decoder w h data. unfold setImage2D.
    case_decide; [simpl; discriminate |].
    destruct (deref_mutating (setImage2D_body format decoder w h data) this σ st Hst)
      as [n Hn].
    destruct (mutating _ this σ) as [this' σ']. simpl in *. rewrite Hn.
    intros _. apply setImage2D_body_spec.
  - intros w h d img Himg Hne Hd Hmax. unfold canvasSize.
    rewrite (shape_guard_false this σ st img w h d Hst Himg Hne).
    destruct (deref_mutating (canvasSize_body w h d) this σ st Hst) as [n Hn].
    simpl. rewrite Hn.
    apply (canvasSize_body_spec w h d (set_refCount n st) img Himg Hd Hmax).
  - intros w h d filter filterWidth params. unfold resize.
    destruct (isNull this σ || _) eqn:Eg.
    + simpl. rewrite (deref_lookup _ _ _ Hst). split; [reflexivity |].
      intros img Himg Hne.
      rewrite (shape_guard_false this σ st img w h d Hst Himg Hne) in Eg.
      discriminate.
    + destruct (deref_mutating (resize_body w h d filter filterWidth params)
                  this σ st Hst) as [n Hn].
      simpl. rewrite Hn.
      destruct (resize_body_spec w h d filter filterWidth params (set_refCount n st))
        as [Ht Hs].
      split; [exact Ht |].
      intros img Himg _. apply Hs. simpl. rewrite Himg. discriminate.
Qed.

Lemma texture_type_after_shape_change_witness :
  type_matches_depth
    (deref (setImage (H := model_collaborators) InputFormat_BGRA_8UB 2 2 3
              sample_buffer sample_2d.1.2 sample_2d.2).1.2
           (setImage (H := model_collaborators) InputFormat_BGRA_8UB 2 2 3
              sample_buffer sample_2d.1.2 sample_2d.2).2).
Proof.
  assert (Hst : sample_2d.2 !! m sample_2d.1.2 = Some (deref sample_2d.1.2 sample_2d.2))
    by (vm_compute; reflexivity).
  destruct (texture_type_after_shape_change (H := model_collaborators)
              sample_2d.1.2 sample_2d.2 _ Hst) as [HsetImage _].
  apply (HsetImage InputFormat_BGRA_8UB 2 2 3 sample_buffer). lia.
Defined.

(** C3 does not hold as stated: a 2D surface of depth 1 that is resized, or
    given a larger canvas, to depth 2 is still tagged 2D. *)
Lemma texture_type_not_recomputed :
  (state_shape (deref sample_resized.1 sample_resized.2) = Some (1, 1, 2)
   /\ type (deref sample_resized.1 sample_resized.2) = TextureType_2D
   /\ ~ type_matches_depth (deref sample_resized.1 sample_resized.2))
  /\ (state_shape (deref sample_canvas.1 sample_canvas.2) = Some (1, 1, 2)
      /\ type (deref sample_canvas.1 sample_canvas.2) = TextureType_2D
      /\ ~ type_matches_depth (deref sample_canvas.1 sample_canvas.2)).
Proof.
  assert (Hr : state_shape (deref sample_resized.1 sample_resized.2) = Some (1, 1, 2)
               /\ type (deref sample_resized.1 sample_resized.2) = TextureType_2D)
    by (split; vm_compute; reflexivity).
  assert (Hc : state_shape (deref sample_canvas.1 sample_canvas.2) = Some (1, 1, 2)
               /\ type (deref sample_canvas.1 sample_canvas.2) = TextureType_2D)
    by (split; vm_compute; reflexivity).
  assert (Hno : forall st, state_shape st = Some (1, 1, 2) ->
                  type st = TextureType_2D -> ~ type_matches_depth st).
  { intros st Hs Ht. unfold type_matches_depth, state_shape in *.
    destruct (image st) as [img |]; [| discriminate].
    simpl in Hs. assert (Hd : fi_depth img = 2).
    { apply (fi_shape_depth img 1 1 2). congruence. }
    intros [_ [H2 _]]. specialize (H2 Ht). lia. }
  destruct Hr as [Hr1 Hr2]. destruct Hc as [Hc1 Hc2].
  repeat split; try assumption; apply Hno; assumption.
Qed.

(** ** Compressed ingestion *)

(** C9. A format other than BC1..BC5 is rejected before anything else
    happens: [setImage2D] returns [false] and hands back the handle and
    the whole store as they were, so no state was detached and no pixel or
    metadata changed. *)
Theorem setImage2D_rejects `{Collaborators}
    (format : Format) (decoder : Decoder) (w h : Z) (data : list Z)
    (this : Surface) (σ : heap) :
  format <> Format_BC1 -> format <> Format_BC2 -> format <> Format_BC3 ->
  format <> Format_BC4 -> format <> Format_BC5 ->
  setImage2D format decoder w h data this σ = (false, this, σ).
Proof.
  intros H1 H2 H3 H4 H5. unfold setImage2D.
  rewrite decide_True by (repeat split; assumption). reflexivity.
Qed.

Lemma setImage2D_rejects_witness :
  setImage2D (H := model_collaborators) Format_BC7 Decoder_D3D10 4 4 []
    sample_copy.1 sample_copy.2
  = (false, sample_copy.1, sample_copy.2).
Proof.
  apply (setImage2D_rejects (H := model_collaborators) Format_BC7 Decoder_D3D10
           4 4 [] sample_copy.1 sample_copy.2); discriminate.
Defined.

(** The five block formats are the ones that get past the guard. *)
Lemma setImage2D_accepts `{Collaborators} format decoder w h data this σ :
  format = Format_BC1 \/ format = Format_BC2 \/ format = Format_BC3
  \/ format = Format_BC4 \/ format = Format_BC5 ->
  (setImage2D format decoder w h data this σ).1.1 = true.
Proof.
  intros Hf. unfold setImage2D. rewrite decide_False by tauto.
  destruct (mutating _ this σ). reflexivity.
Qed.

(** ** The pixel buffer *)

Lemma fi_wf_plane img c :
  fi_wf img -> (c < 4)%nat ->
  exists p, fi_planes img !! c = Some p /\ length p = pixelCount img.
Proof.
  intros [Hlen Hall] Hc.
  destruct (lookup_lt_is_Some_2 (fi_planes img) c ltac:(lia)) as [p Hp].
  exists p. split; [exact Hp |].
  exact (Forall_lookup_1 _ _ _ _ Hall Hp).
Qed.

Lemma chan_set_wf img c i v : fi_wf img -> fi_wf (chan_set img c i v).
Proof.
  intros [Hlen Hall]. split.
  - simpl. rewrite length_alter. exact Hlen.
  - simpl. change (pixelCount (chan_set img c i v)) with (pixelCount img).
    apply Forall_alter; [exact Hall |].
    intros p _ Hp. rewrite length_insert. exact Hp.
Qed.

Lemma chan_get_set_eq img c i v :
  fi_wf img -> (c < 4)%nat -> (i < pixelCount img)%nat ->
  chan_get (chan_set img c i v) c i = v.
Proof.
  intros Hwf Hc Hi. destruct (fi_wf_plane img c Hwf Hc) as (p & Hp & Hl).
  unfold chan_get, fi_channel, chan_set. simpl.
  rewrite list_lookup_alter_eq, Hp. simpl.
  rewrite list_lookup_insert_eq by lia. reflexivity.
Qed.

Lemma chan_get_set_ne img c c' i j v :
  c <> c' \/ i <> j ->
  chan_get (chan_set img c i v) c' j = chan_get img c' j.
Proof.
  intros Hne. unfold chan_get, fi_channel, chan_set. simpl.
  destruct (decide (c = c')) as [<- | Hc].
  - rewrite list_lookup_alter_eq.
    destruct (fi_planes img !! c) as [p |]; simpl; [| reflexivity].
    rewrite list_lookup_insert_ne by (destruct Hne; congruence). reflexivity.
  - rewrite list_lookup_alter_ne by exact Hc. reflexivity.
Qed.

Lemma write_color_wf img i c : fi_wf img -> fi_wf (write_color img i c).
Proof.
  intros Hwf. destruct c as [[[r g] b] a]. unfold write_color.
  repeat apply chan_set_wf. exact Hwf.
Qed.

Lemma read_write_color_eq img i c :
  fi_wf img -> (i < pixelCount img)%nat -> read_color (write_color img i c) i = c.
Proof.
  intros Hwf Hi. destruct c as [[[r g] b] a]. unfold read_color, write_color.
  assert (W1 := chan_set_wf img 0 i r Hwf).
  assert (W2 := chan_set_wf _ 1 i g W1).
  assert (W3 := chan_set_wf _ 2 i b W2).
  rewrite (chan_get_set_eq _ 3) by (try assumption; lia).
  rewrite (chan_get_set_ne _ 3 2), (chan_get_set_eq _ 2)
    by (try assumption; try lia; left; lia).
  rewrite (chan_get_set_ne _ 3 1), (chan_get_set_ne _ 2 1), (chan_get_set_eq _ 1)
    by (try assumption; try lia; left; lia).
  rewrite (chan_get_set_ne _ 3 0), (chan_get_set_ne _ 2 0), (chan_get_set_ne _ 1 0),
    (chan_get_set_eq _ 0) by (try assumption; try lia; left; lia).
  reflexivity.
Qed.

Lemma read_write_color_ne img i j c :
  i <> j -> read_color (write_color img i c) j = read_color img j.
Proof.
  intros Hij. destruct c as [[[r g] b] a]. unfold read_color, write_color.
  rewrite !chan_get_set_ne by (right; exact Hij). reflexivity.
Qed.

(** A per-pixel loop rewrites pixel [i] from pixel [i] of the input. *)
Lemma map_pixels_prefix k img n :
  fi_wf img -> (n <= pixelCount img)%nat ->
  let out := for_loop n (fun i x => write_color x i (k (read_color x i))) img in
  fi_wf out /\ fi_shape out = fi_shape img
  /\ forall i, read_color out i
               = if decide (i < n)%nat then k (read_color img i) else read_color img i.
Proof.
  intros Hwf. induction n as [| n IH]; intros Hn out; subst out.
  - split; [exact Hwf |]. split; [reflexivity |]. intros i.
    rewrite decide_False by lia. reflexivity.
  - rewrite for_loop_S. destruct (IH ltac:(lia)) as (Hw & Hs & Hr).
    set (x := for_loop n _ img) in *. simpl.
    split; [apply write_color_wf, Hw |].
    split; [rewrite write_color_shape; exact Hs |].
    intros i. destruct (decide (i = n)) as [-> | Hin].
    + rewrite read_write_color_eq.
      * rewrite Hr. rewrite decide_False by lia. rewrite decide_True by lia.
        reflexivity.
      * exact Hw.
      * unfold pixelCount, fi_shape in *. injection Hs as -> -> ->. lia.
    + rewrite read_write_color_ne by congruence. rewrite Hr.
      destruct (decide (i < n)%nat), (decide (i < S n)%nat); try lia; reflexivity.
Qed.

Lemma pixelCount_shape img img' :
  fi_shape img = fi_shape img' -> pixelCount img = pixelCount img'.
Proof. unfold fi_shape, pixelCount. intros E. injection E as -> -> ->. reflexivity. Qed.

Lemma map_pixels_spec k img :
  fi_wf img ->
  fi_wf (map_pixels k img) /\ fi_shape (map_pixels k img) = fi_shape img
  /\ forall i, (i < pixelCount img)%nat ->
               read_color (map_pixels k img) i = k (read_color img i).
Proof.
  intros Hwf. destruct (map_pixels_prefix k img (pixelCount img) Hwf ltac:(lia))
    as (Hw & Hs & Hr).
  split; [exact Hw |]. split; [exact Hs |].
  intros i Hi. unfold map_pixels. rewrite Hr, decide_True by exact Hi. reflexivity.
Qed.

(** ** RGBM *)

Local Open Scope Q_scope.

Lemma fclamp_id x a b : a <= x <= b -> fclamp x a b == x.
Proof.
  intros Hx. unfold fclamp. rewrite Q.max_l by lra. rewrite Q.min_l by lra.
  reflexivity.
Qed.

Lemma fclamp_bounds x a b : a <= b -> a <= fclamp x a b <= b.
Proof.
  intros Hab. unfold fclamp. split.
  - apply Q.min_glb; [apply Q.le_max_r | exact Hab].
  - apply Q.le_min_r.
Qed.

(** The clamped threshold is positive, and stays below 1 if it was. *)
Lemma threshold_bounds threshold :
  threshold < 1 ->
  1 # 1000000 <= fclamp threshold (1 # 1000000) 1 < 1.
Proof.
  intros Ht. pose proof (fclamp_bounds threshold (1 # 1000000) 1 ltac:(lra)) as Hb.
  split; [lra |]. unfold fclamp in *.
  destruct (Q.max_spec threshold (1 # 1000000)) as [[_ E] | [_ E]];
    rewrite E; rewrite Q.min_l; lra.
Qed.

Lemma rgbm_M_bounds r g b t :
  0 <= r <= 1 -> 0 <= g <= 1 -> 0 <= b <= 1 -> 0 < t <= 1 ->
  let M := fmax (fmax r g) (fmax b t) in
  t <= M <= 1 /\ r <= M /\ g <= M /\ b <= M.
Proof.
  intros Hr Hg Hb Ht M. subst M. unfold fmax.
  pose proof (Q.le_max_l (Qmax r g) (Qmax b t)).
  pose proof (Q.le_max_r (Qmax r g) (Qmax b t)).
  pose proof (Q.le_max_l r g). pose proof (Q.le_max_r r g).
  pose proof (Q.le_max_l b t). pose proof (Q.le_max_r b t).
  assert (Qmax (Qmax r g) (Qmax b t) <= 1).
  { repeat apply Q.max_lub; lra. }
  repeat split; lra.
Qed.

(** One pixel through the encoder and the decoder, for range 1: every
    channel comes back multiplied by the stored alpha. *)
Lemma RGBM_pixel_roundtrip t r g b a :
  0 <= r <= 1 -> 0 <= g <= 1 -> 0 <= b <= 1 -> 0 < t < 1 ->
  let M := fmax (fmax r g) (fmax b t) in
  color_eq (toRGBM_pixel t (r, g, b, a))
           (r / M, g / M, b / M, (M - t) / (1 - t))
  /\ color_eq (fromRGBM_pixel 1 (toRGBM_pixel t (r, g, b, a)))
              (r * ((M - t) / ((1 - t) * M)), g * ((M - t) / ((1 - t) * M)),
               b * ((M - t) / ((1 - t) * M)), 1).
Proof.
  intros Hr Hg Hb Ht M.
  destruct (rgbm_M_bounds r g b t Hr Hg Hb ltac:(lra)) as (HM & _).
  fold M in HM.
  pose proof (fclamp_id r 0 1 Hr) as Er.
  pose proof (fclamp_id g 0 1 Hg) as Eg.
  pose proof (fclamp_id b 0 1 Hb) as Eb.
  assert (EM : fmax (fmax (fclamp r 0 1) (fclamp g 0 1)) (fmax (fclamp b 0 1) t) == M).
  { subst M. unfold fmax. rewrite Er, Eg, Eb. reflexivity. }
  unfold toRGBM_pixel, fromRGBM_pixel, color_eq. simpl.
  rewrite !EM, Er, Eg, Eb.
  repeat split; try reflexivity; field; lra.
Qed.

Lemma lookup_mutating f this σ st :
  σ !! m this = Some st ->
  exists n, (mutating f this σ).2 !! m (mutating f this σ).1
            = Some (f (set_refCount n st)).
Proof.
  intros Hst. unfold mutating.
  destruct (decide (1 < refCount st)%nat) as [Hrc | Hrc].
  - destruct (detach_shared this σ st Hst Hrc) as (-> & _ & _).
    exists 1%nat. simpl. unfold update. simpl.
    rewrite lookup_alter_eq, lookup_insert_eq. reflexivity.
  - rewrite detach_sole by (rewrite (deref_lookup _ _ _ Hst); lia).
    exists (refCount st). simpl. unfold update.
    rewrite lookup_alter_eq, Hst, set_refCount_id. reflexivity.
Qed.

(** A per-image method on a live, non-null handle: the handle stays live
    and shows the transformed buffer. *)
Lemma image_method_spec (F : FloatImage -> FloatImage) this σ st img :
  σ !! m this = Some st -> image st = Some img ->
  let r := if isNull this σ then (this, σ) else mutating (on_image F) this σ in
  exists st', r.2 !! m r.1 = Some st' /\ image st' = Some (F img).
Proof.
  intros Hst Himg r. subst r. unfold isNull.
  rewrite (deref_lookup _ _ _ Hst), Himg.
  rewrite bool_decide_eq_false_2 by discriminate.
  destruct (lookup_mutating (on_image F) this σ st Hst) as [n Hn].
  eexists. split; [exact Hn |]. simpl. rewrite Himg. reflexivity.
Qed.

Lemma observe_color_lookup this σ st img i :
  σ !! m this = Some st -> image st = Some img ->
  observe_color this σ i = Some (read_color img i).
Proof.
  intros Hst Himg. unfold observe_color, observe.
  rewrite (deref_lookup _ _ _ Hst), Himg. reflexivity.
Qed.

Lemma color_eq_trans c1 c2 c3 : color_eq c1 c2 -> color_eq c2 c3 -> color_eq c1 c3.
Proof.
  intros (A1 & A2 & A3 & A4) (B1 & B2 & B3 & B4).
  repeat split; etransitivity; eassumption.
Qed.

(** C1, as the code has it, for range 1 and a threshold below 1.  Pixel
    [i] of a surface has channels in [0, 1].  [toRGBM] stores R/M, G/M,
    B/M and the alpha (M - t)/(1 - t), where t is the clamped threshold
    and M = max(R, G, B, t); [fromRGBM] multiplies RGB by alpha times the
    range.  So the round trip returns RGB scaled by (M - t)/((1 - t) M);
    it is the identity on RGB when the largest channel is 1. *)
Theorem RGBM_round_trip_factor
    (this : Surface) (σ : heap) (st : Private) (img : FloatImage)
    (threshold : Q) (i : nat) (r g b a : Q) :
  σ !! m this = Some st -> image st = Some img -> fi_wf img ->
  (i < pixelCount img)%nat -> read_color img i = (r, g, b, a) ->
  0 <= r <= 1 -> 0 <= g <= 1 -> 0 <= b <= 1 -> threshold < 1 ->
  let t := fclamp threshold (1 # 1000000) 1 in
  let M := fmax (fmax r g) (fmax b t) in
  let enc := toRGBM 1 threshold this σ in
  let dec := fromRGBM 1 enc.1 enc.2 in
  exists ce cd,
    observe_color enc.1 enc.2 i = Some ce
    /\ observe_color dec.1 dec.2 i = Some cd
    /\ color_eq ce (r / M, g / M, b / M, (M - t) / (1 - t))
    /\ cd = (ce.1.1.1 * (ce.2 * 1), ce.1.1.2 * (ce.2 * 1), ce.1.2 * (ce.2 * 1), 1)
    /\ color_eq cd (r * ((M - t) / ((1 - t) * M)), g * ((M - t) / ((1 - t) * M)),
                    b * ((M - t) / ((1 - t) * M)), 1)
    /\ (fmax (fmax r g) b == 1 -> color_eq cd (r, g, b, 1)).
Proof.
  intros Hst Himg Hwf Hi Hc Hr Hg Hb Hth t M enc dec.
  pose proof (threshold_bounds threshold Hth) as Ht. fold t in Ht.
  destruct (image_method_spec (toRGBM_image 1 threshold) this σ st img Hst Himg)
    as (st1 & Hst1 & Himg1).
  fold (toRGBM 1 threshold this σ) in Hst1. fold enc in Hst1.
  destruct (image_method_spec (fromRGBM_image 1) enc.1 enc.2 st1 _ Hst1 Himg1)
    as (st2 & Hst2 & Himg2).
  fold (fromRGBM 1 enc.1 enc.2) in Hst2. fold dec in Hst2.
  destruct (map_pixels_spec (toRGBM_pixel t) img Hwf) as (Hwf1 & Hs1 & Hread1).
  destruct (map_pixels_spec (fromRGBM_pixel 1) _ Hwf1) as (_ & _ & Hread2).
  pose proof (pixelCount_shape _ _ Hs1) as Hcount.
  destruct (RGBM_pixel_roundtrip t r g b a Hr Hg Hb ltac:(lra)) as [Henc Hdec].
  fold M in Henc, Hdec.
  exists (toRGBM_pixel t (r, g, b, a)).
  exists (fromRGBM_pixel 1 (toRGBM_pixel t (r, g, b, a))).
  split.
  { rewrite (observe_color_lookup _ _ _ _ i Hst1 Himg1).
    unfold toRGBM_image. fold t. rewrite Hread1 by exact Hi. rewrite Hc. reflexivity. }
  split.
  { rewrite (observe_color_lookup _ _ _ _ i Hst2 Himg2).
    unfold fromRGBM_image, toRGBM_image. fold t.
    rewrite Hread2 by (rewrite Hcount; exact Hi).
    rewrite Hread1 by exact Hi. rewrite Hc. reflexivity. }
  split; [exact Henc |].
  split; [reflexivity |].
  split; [exact Hdec |].
  intros Hmax. eapply color_eq_trans; [exact Hdec |].
  assert (EM : M == 1).
  { destruct (rgbm_M_bounds r g b t Hr Hg Hb ltac:(lra)) as ((_ & HM1) & _).
    fold M in HM1. apply Qle_antisym; [exact HM1 |].
    rewrite <- Hmax. subst M. unfold fmax.
    apply Q.max_lub.
    - apply Q.le_max_l.
    - apply (Qle_trans _ (Qmax b t)); [apply Q.le_max_l | apply Q.le_max_r]. }
  unfold color_eq. simpl. rewrite !EM.
  repeat split; try reflexivity; field; lra.
Qed.

Lemma sample_2d_live :
  sample_2d.2 !! m sample_2d.1.2 = Some (deref sample_2d.1.2 sample_2d.2)
  /\ image (deref sample_2d.1.2 sample_2d.2) = Some sample_image
  /\ fi_wf sample_image.
Proof.
  split; [vm_compute; reflexivity |]. split; [vm_compute; reflexivity |].
  split; [reflexivity | repeat constructor].
Qed.

Lemma RGBM_round_trip_factor_witness :
  exists ce cd,
    observe_color sample_rgbm_encoded.1 sample_rgbm_encoded.2 0 = Some ce
    /\ observe_color sample_rgbm_decoded.1 sample_rgbm_decoded.2 0 = Some cd
    /\ cd = (ce.1.1.1 * (ce.2 * 1), ce.1.1.2 * (ce.2 * 1), ce.1.2 * (ce.2 * 1), 1).
Proof.
  destruct sample_2d_live as (Hst & Himg & Hwf).
  destruct (RGBM_round_trip_factor sample_2d.1.2 sample_2d.2 _ sample_image
              (1 # 4) 0 (1 # 4) (1 # 4) (1 # 4) (1 # 4) Hst Himg Hwf)
    as (ce & cd & Hce & Hcd & _ & Hmul & _).
  - unfold pixelCount. simpl. lia.
  - reflexivity.
  - lra.
  - lra.
  - lra.
  - lra.
  - exists ce, cd. split; [exact Hce |]. split; [exact Hcd | exact Hmul].
Defined.

(** C1 does not hold as stated.  With range 1 and threshold 0.25, the
    colour (0.25, 0.25, 0.25) comes back as black, and the colour
    (0.5, 0.25, 0) comes back as (1/3, 1/6, 0). *)
Lemma RGBM_round_trip_fails :
  (observe_color sample_2d.1.2 sample_2d.2 0 = Some (1 # 4, 1 # 4, 1 # 4, 1 # 4)
   /\ exists cd,
        observe_color sample_rgbm_decoded.1 sample_rgbm_decoded.2 0 = Some cd
        /\ cd.1.1.1 == 0 /\ ~ approx_eq cd.1.1.1 (1 # 4))
  /\ (color_eq
        (fromRGBM_pixel 1
           (toRGBM_pixel (fclamp (1 # 4) (1 # 1000000) 1) (1 # 2, 1 # 4, 0, 1)))
        (1 # 3, 1 # 6, 0, 1)
      /\ ~ approx_eq (1 # 3) (1 # 2)).
Proof.
  split.
  - split; [vm_compute; reflexivity |].
    eexists. split; [vm_compute; reflexivity |].
    split; [reflexivity |].
    unfold approx_eq. vm_compute. intros Hle. apply Hle. reflexivity.
  - split; [repeat split; vm_compute; reflexivity |].
    unfold approx_eq. vm_compute. intros Hle. apply Hle. reflexivity.
Qed.

(** ** Dithered quantizer *)

Lemma floorf_fixed scale offset v f e :
  quantizer_fixed scale offset v -> f == v -> e == 0 ->
  floorf ((f + e) * scale + offset) / scale == v.
Proof.
  intros Hfix Hf He. unfold quantizer_fixed, floorf in *.
  assert (E : Qfloor ((f + e) * scale + offset) = Qfloor (v * scale + offset)).
  { apply Qfloor_comp. rewrite Hf, He. ring. }
  rewrite E. exact Hfix.
Qed.

Lemma floorf_fixed_plain scale offset v f :
  quantizer_fixed scale offset v -> f == v ->
  floorf (f * scale + offset) / scale == v.
Proof.
  intros Hfix Hf. unfold quantizer_fixed, floorf in *.
  assert (E : Qfloor (f * scale + offset) = Qfloor (v * scale + offset)).
  { apply Qfloor_comp. rewrite Hf. reflexivity. }
  rewrite E. exact Hfix.
Qed.

Lemma arr_get_replicate n j : arr_get (replicate n 0) j == 0.
Proof.
  unfold arr_get. destruct (replicate n 0 !! j) as [x |] eqn:E; simpl.
  - apply lookup_replicate in E as [-> _]. reflexivity.
  - reflexivity.
Qed.

Lemma arr_add_zero a i v :
  (forall j, arr_get a j == 0) -> v == 0 -> forall j, arr_get (arr_add a i v) j == 0.
Proof.
  intros Ha Hv j. unfold arr_add.
  destruct (decide (i = j)) as [<- | Hij].
  - unfold arr_get at 1.
    destruct (decide (i < length a)%nat) as [Hlt | Hge].
    + rewrite list_lookup_insert_eq by exact Hlt. simpl. rewrite Ha, Hv. reflexivity.
    + rewrite list_insert_ge by lia. apply Ha.
  - unfold arr_get at 1. rewrite list_lookup_insert_ne by exact Hij. apply Ha.
Qed.

Lemma chan_set_const img channel i v q :
  fi_wf img -> (channel < 4)%nat -> (i < pixelCount img)%nat ->
  channel_const img channel v -> q == v ->
  channel_const (chan_set img channel i q) channel v.
Proof.
  intros Hwf Hc Hi Hconst Hq j Hj.
  change (pixelCount (chan_set img channel i q)) with (pixelCount img) in Hj.
  destruct (decide (i = j)) as [<- | Hij].
  - rewrite chan_get_set_eq by assumption. exact Hq.
  - rewrite chan_get_set_ne by (right; exact Hij). apply Hconst, Hj.
Qed.

(** Inside the loops the pixel of slice 0 is a pixel of the buffer. *)
Lemma pixel_index_in_range img x y :
  (x < Z.to_nat (fi_width img))%nat -> (y < Z.to_nat (fi_height img))%nat ->
  (0 < Z.to_nat (fi_depth img))%nat ->
  (pixel_index img x y 0 < pixelCount img)%nat.
Proof.
  intros Hx Hy Hd. unfold pixel_index, pixelCount.
  rewrite !Z2Nat.inj_mul by lia.
  set (w := Z.to_nat (fi_width img)) in *.
  set (h := Z.to_nat (fi_height img)) in *.
  set (d := Z.to_nat (fi_depth img)) in *.
  assert (H1 : (y * w + x < h * w)%nat) by nia.
  assert (H2 : (h * w <= w * h * d)%nat) by nia.
  lia.
Qed.

(** On a flat channel of a fixed value one pixel of error diffusion writes
    the value back and spreads no error. *)
Lemma quantize_dither_pixel_inv img0 channel scale offset v y x s :
  quantizer_fixed scale offset v -> (channel < 4)%nat ->
  (x < Z.to_nat (fi_width img0))%nat -> (y < Z.to_nat (fi_height img0))%nat ->
  (0 < Z.to_nat (fi_depth img0))%nat ->
  dither_inv img0 channel v s ->
  dither_inv img0 channel v (quantize_dither_pixel channel scale offset y x s).
Proof.
  intros Hfix Hc Hx Hy Hd. destruct s as [[img row0] row1].
  intros (Hwf & Hs & Hconst & Hr0 & Hr1). simpl in *.
  assert (Hw : fi_width img = fi_width img0 /\ fi_height img = fi_height img0
               /\ fi_depth img = fi_depth img0).
  { unfold fi_shape in Hs. injection Hs as -> -> ->. auto. }
  destruct Hw as (Ew & Eh & Ed).
  assert (Hidx : (pixel_index img x y 0 < pixelCount img)%nat).
  { apply pixel_index_in_range; rewrite ?Ew, ?Eh, ?Ed; assumption. }
  unfold quantize_dither_pixel, pixel, set_pixel.
  set (f := chan_get img channel (pixel_index img x y 0)).
  set (qf := floorf ((f + arr_get row0 (1 + x)) * scale + offset) / scale).
  assert (Hf : f == v) by (apply Hconst, Hidx).
  assert (Hqf : qf == v) by (apply floorf_fixed; [exact Hfix | exact Hf | apply Hr0]).
  assert (Hdiff : forall c, c * (f - qf) == 0).
  { intros c. rewrite Hf, Hqf. ring. }
  unfold dither_inv. simpl.
  split; [apply chan_set_wf, Hwf |].
  split; [exact Hs |].
  split; [apply chan_set_const; assumption |].
  split.
  - apply arr_add_zero; [exact Hr0 | apply Hdiff].
  - repeat (apply arr_add_zero; [| apply Hdiff]). exact Hr1.
Qed.

Lemma quantize_dither_row_inv img0 channel scale offset v y s :
  quantizer_fixed scale offset v -> (channel < 4)%nat ->
  (y < Z.to_nat (fi_height img0))%nat -> (0 < Z.to_nat (fi_depth img0))%nat ->
  dither_inv img0 channel v s ->
  dither_inv img0 channel v
    (quantize_dither_row channel scale offset (Z.to_nat (fi_width img0)) y s).
Proof.
  intros Hfix Hc Hy Hd Hinv. unfold quantize_dither_row.
  assert (Hloop : dither_inv img0 channel v
            (for_loop (Z.to_nat (fi_width img0))
               (quantize_dither_pixel channel scale offset y) s)).
  { apply for_loop_ind; [exact Hinv |].
    intros x s' Hx Hs'. apply quantize_dither_pixel_inv; assumption. }
  destruct (for_loop _ _ s) as [[img row0] row1].
  destruct Hloop as (Hwf & Hs & Hconst & _ & Hr1). simpl in *.
  unfold dither_inv. simpl.
  split; [exact Hwf |]. split; [exact Hs |]. split; [exact Hconst |].
  split; [exact Hr1 |]. intros j. apply arr_get_replicate.
Qed.

(** The Floyd-Steinberg path keeps a flat channel of a fixed value flat. *)
Lemma quantize_dither_flat channel scale offset v img :
  quantizer_fixed scale offset v -> (channel < 4)%nat -> fi_wf img ->
  channel_const img channel v ->
  fi_wf (quantize_dither channel scale offset img)
  /\ fi_shape (quantize_dither channel scale offset img) = fi_shape img
  /\ channel_const (quantize_dither channel scale offset img) channel v.
Proof.
  intros Hfix Hc Hwf Hconst. unfold quantize_dither.
  apply (for_loop_ind
           (fun x => fi_wf x /\ fi_shape x = fi_shape img /\ channel_const x channel v)).
  { split; [exact Hwf |]. split; [reflexivity | exact Hconst]. }
  intros z img1 Hz (Hwf1 & Hs1 & Hc1).
  assert (Hslice : dither_inv img channel v
            (for_loop (Z.to_nat (fi_height img))
               (quantize_dither_row channel scale offset (Z.to_nat (fi_width img)))
               (img1, replicate (Z.to_nat (fi_width img) + 2) 0,
                replicate (Z.to_nat (fi_width img) + 2) 0))).
  { apply for_loop_ind.
    - unfold dither_inv. simpl.
      split; [exact Hwf1 |]. split; [exact Hs1 |]. split; [exact Hc1 |].
      split; intros j; apply arr_get_replicate.
    - intros y s Hy Hs. apply quantize_dither_row_inv; try assumption. lia. }
  destruct (for_loop _ _ _) as [[img2 row0] row1].
  destruct Hslice as (Hwf2 & Hs2 & Hc2 & _). simpl in *.
  split; [exact Hwf2 |]. split; [exact Hs2 | exact Hc2].
Qed.

(** So does the undithered path. *)
Lemma quantize_plain_flat channel scale offset v img :
  quantizer_fixed scale offset v -> (channel < 4)%nat -> fi_wf img ->
  channel_const img channel v ->
  fi_wf (quantize_plain channel scale offset img)
  /\ fi_shape (quantize_plain channel scale offset img) = fi_shape img
  /\ channel_const (quantize_plain channel scale offset img) channel v.
Proof.
  intros Hfix Hc Hwf Hconst. unfold quantize_plain.
  apply (for_loop_ind
           (fun x => fi_wf x /\ fi_shape x = fi_shape img /\ channel_const x channel v)).
  { split; [exact Hwf |]. split; [reflexivity | exact Hconst]. }
  intros i img1 Hi (Hwf1 & Hs1 & Hc1).
  assert (Hi1 : (i < pixelCount img1)%nat)
    by (rewrite (pixelCount_shape _ _ Hs1); exact Hi).
  split; [apply chan_set_wf, Hwf1 |]. split; [exact Hs1 |].
  apply chan_set_const; try assumption.
  apply floorf_fixed_plain; [exact Hfix |]. apply Hc1, Hi1.
Qed.

(** With 8 bits and exact end points the fixed values are the multiples of
    1/255. *)
Lemma quantizer_fixed_255 k :
  quantizer_fixed (quantize_scale 8 true) (quantize_offset true) (inject_Z k / 255).
Proof.
  unfold quantizer_fixed, floorf.
  change (quantize_scale 8 true) with (inject_Z 255).
  change (quantize_offset true) with 0.
  assert (E : Qfloor (inject_Z k / 255 * inject_Z 255 + 0) = k).
  { rewrite <- (Qfloor_Z k) at 2. apply Qfloor_comp. field. }
  rewrite E. reflexivity.
Qed.

Lemma observe_lookup this σ st : σ !! m this = Some st -> observe this σ = image st.
Proof. intros Hst. unfold observe. rewrite (deref_lookup _ _ _ Hst). reflexivity. Qed.

(** C6, as the code has it.  A channel that holds one value [k/255]
    everywhere - a value the 8-bit quantizer with exact end points maps to
    itself - comes out of the dithered path holding that value at every
    pixel, exactly as out of the undithered path: no error arises, so none
    is diffused. *)
Theorem quantize_dither_flat_fixed
    (this : Surface) (σ : heap) (st : Private) (img : FloatImage)
    (channel : nat) (k : Z) :
  σ !! m this = Some st -> image st = Some img -> fi_wf img ->
  (channel < 4)%nat -> channel_const img channel (inject_Z k / 255) ->
  let dith := quantize channel 8 true true this σ in
  let plain := quantize channel 8 true false this σ in
  exists imgd imgp,
    observe dith.1 dith.2 = Some imgd /\ observe plain.1 plain.2 = Some imgp
    /\ fi_shape imgd = fi_shape img /\ fi_shape imgp = fi_shape img
    /\ forall i, (i < pixelCount img)%nat ->
         chan_get imgd channel i == inject_Z k / 255
         /\ chan_get imgp channel i == inject_Z k / 255
         /\ chan_get imgd channel i == chan_get imgp channel i.
Proof.
  intros Hst Himg Hwf Hc Hconst dith plain.
  destruct (image_method_spec (quantize_image channel 8 true true) this σ st img
              Hst Himg) as (std & Hstd & Himgd).
  destruct (image_method_spec (quantize_image channel 8 true false) this σ st img
              Hst Himg) as (stp & Hstp & Himgp).
  fold (quantize channel 8 true true this σ) in Hstd. fold dith in Hstd.
  fold (quantize channel 8 true false this σ) in Hstp. fold plain in Hstp.
  pose proof (quantizer_fixed_255 k) as Hfix.
  destruct (quantize_dither_flat channel _ _ _ img Hfix Hc Hwf Hconst)
    as (_ & Hsd & Hcd).
  destruct (quantize_plain_flat channel _ _ _ img Hfix Hc Hwf Hconst)
    as (_ & Hsp & Hcp).
  exists (quantize_image channel 8 true true img).
  exists (quantize_image channel 8 true false img).
  split; [rewrite (observe_lookup _ _ _ Hstd); exact Himgd |].
  split; [rewrite (observe_lookup _ _ _ Hstp); exact Himgp |].
  unfold quantize_image. simpl.
  split; [exact Hsd |]. split; [exact Hsp |].
  intros i Hi.
  assert (Hd : chan_get (quantize_dither channel (quantize_scale 8 true)
                           (quantize_offset true) img) channel i == inject_Z k / 255).
  { apply Hcd. rewrite (pixelCount_shape _ _ Hsd). exact Hi. }
  assert (Hp : chan_get (quantize_plain channel (quantize_scale 8 true)
                           (quantize_offset true) img) channel i == inject_Z k / 255).
  { apply Hcp. rewrite (pixelCount_shape _ _ Hsp). exact Hi. }
  split; [exact Hd |]. split; [exact Hp |]. rewrite Hd, Hp. reflexivity.
Qed.

Lemma quantize_dither_flat_fixed_witness :
  exists imgd imgp,
    observe (quantize 0 8 true true (mkSurface 1) sample_fifth).1
            (quantize 0 8 true true (mkSurface 1) sample_fifth).2 = Some imgd
    /\ observe (quantize 0 8 true false (mkSurface 1) sample_fifth).1
               (quantize 0 8 true false (mkSurface 1) sample_fifth).2 = Some imgp
    /\ chan_get imgd 0 1 == chan_get imgp 0 1.
Proof.
  destruct (quantize_dither_flat_fixed (mkSurface 1) sample_fifth
              sample_fifth_state sample_fifth_image 0 51)
    as (imgd & imgp & Hd & Hp & _ & _ & Hall).
  - reflexivity.
  - reflexivity.
  - split; [reflexivity | repeat constructor].
  - lia.
  - intros i Hi. unfold pixelCount in Hi. simpl in Hi.
    assert (i = 0 \/ i = 1)%nat as [-> | ->] by lia; reflexivity.
  - exists imgd, imgp. split; [exact Hd |]. split; [exact Hp |].
    apply Hall. unfold pixelCount. simpl. lia.
Defined.

(** C6 does not hold as stated.  A 2x1 channel that holds 0.25 everywhere
    is quantized to 63/255 at both pixels without dithering; with
    dithering the second pixel becomes 64/255. *)
Lemma quantize_dither_flat_differs :
  observe_color sample_flat.1.2 sample_flat.2 0 = Some (1 # 4, 1 # 4, 1 # 4, 1 # 4)
  /\ observe_color sample_flat.1.2 sample_flat.2 1 = Some (1 # 4, 1 # 4, 1 # 4, 1 # 4)
  /\ exists cd cp,
       observe_color sample_dithered.1 sample_dithered.2 1 = Some cd
       /\ observe_color sample_undithered.1 sample_undithered.2 1 = Some cp
       /\ cd.1.1.1 == 64 # 255 /\ cp.1.1.1 == 63 # 255
       /\ ~ approx_eq cd.1.1.1 cp.1.1.1.
Proof.
  split; [vm_compute; reflexivity |]. split; [vm_compute; reflexivity |].
  eexists. eexists.
  split; [vm_compute; reflexivity |]. split; [vm_compute; reflexivity |].
  split; [vm_compute; reflexivity |]. split; [vm_compute; reflexivity |].
  unfold approx_eq. vm_compute. intros Hle. apply Hle. reflexivity.
Qed.

(** ** Statistics *)

Lemma histogram_bin_range scale bias binCount v :
  (0 < binCount)%Z ->
  (0 <= histogram_bin scale bias binCount v <= binCount - 1)%Z.
Proof.
  intros Hb. unfold histogram_bin.
  destruct (ifloor (v * scale + bias) <? 0)%Z eqn:E0.
  - destruct (0 >? binCount - 1)%Z eqn:E1; lia.
  - apply Z.ltb_ge in E0.
    destruct (ifloor (v * scale + bias) >? binCount - 1)%Z eqn:E1; lia.
Qed.

(** The bucket the code computes: the offset from [rangeMin] is divided by
    [rangeMax], not by the width of the range. *)
Lemma histogram_bin_formula rangeMin rangeMax binCount v :
  ~ rangeMax == 0 -> (0 < binCount)%Z ->
  histogram_bin (inject_Z binCount / rangeMax)
                (- (inject_Z binCount / rangeMax) * rangeMin) binCount v
  = Z.min (binCount - 1)
      (Z.max 0 (Qfloor ((v - rangeMin) / rangeMax * inject_Z binCount))).
Proof.
  intros Hmax Hb. unfold histogram_bin, ifloor.
  assert (E : Qfloor (v * (inject_Z binCount / rangeMax)
                      + - (inject_Z binCount / rangeMax) * rangeMin)
              = Qfloor ((v - rangeMin) / rangeMax * inject_Z binCount)).
  { apply Qfloor_comp. field. exact Hmax. }
  rewrite E.
  destruct (_ <? 0)%Z eqn:E0.
  - apply Z.ltb_lt in E0. destruct (0 >? binCount - 1)%Z eqn:E1; lia.
  - apply Z.ltb_ge in E0. destruct (_ >? binCount - 1)%Z eqn:E1; lia.
Qed.

(** Each pixel increments one bin, the one [histogram_bin] names. *)
Lemma histogram_loop_step c n rangeMin rangeMax binCount bins :
  histogram_loop c (S n) rangeMin rangeMax binCount bins
  = alter (fun k => to_int (k + 1))
      (Z.to_nat (histogram_bin (inject_Z binCount / rangeMax)
                   (- (inject_Z binCount / rangeMax) * rangeMin) binCount
                   (default 0 (c !! n))))
      (histogram_loop c n rangeMin rangeMax binCount bins).
Proof. unfold histogram_loop. rewrite for_loop_S. reflexivity. Qed.

(** With [rangeMin = 0] the code and the specification name the same bin. *)
Lemma histogram_bin_min_zero rangeMax binCount v :
  ~ rangeMax == 0 -> (0 < binCount)%Z ->
  histogram_bin (inject_Z binCount / rangeMax)
                (- (inject_Z binCount / rangeMax) * 0) binCount v
  = spec_histogram_bin 0 rangeMax binCount v.
Proof.
  intros Hmax Hb. rewrite histogram_bin_formula by assumption.
  unfold spec_histogram_bin. f_equal. f_equal. apply Qfloor_comp.
  field. repeat split; intros E; apply Hmax; lra.
Qed.

(** C5, at the input where code and specification part.  One pixel of
    value 1.5, range [1, 2], four bins: the specification's bucket is
    floor(0.5 / 1 * 4) = 2, the code increments bin 1. *)
Theorem histogram_divides_by_rangeMax :
  spec_histogram_bin 1 2 4 (3 # 2) = 2%Z
  /\ histogram 0 1 2 4 [0; 0; 0; 0]%Z (mkSurface 1) sample_hist = [0; 1; 0; 0]%Z.
Proof. split; vm_compute; reflexivity. Qed.

(** ** Normal transforms *)

Lemma fdiv_Some a b : ~ b == 0 -> fdiv a b = Some (a / b).
Proof.
  intros Hb. unfold fdiv. destruct (Qeq_bool b 0) eqn:E; [| reflexivity].
  apply Qeq_bool_iff in E. contradiction.
Qed.

Lemma fdiv_None a b : b == 0 -> fdiv a b = None.
Proof.
  intros Hb. unfold fdiv. apply Qeq_bool_iff in Hb. rewrite Hb. reflexivity.
Qed.

Lemma paraboloid_a_zero n : paraboloid_a n == 0 <-> v_x n == 0 /\ v_y n == 0.
Proof.
  unfold paraboloid_a. split.
  - intros Ha. split; nra.
  - intros [Hx Hy]. rewrite Hx, Hy. ring.
Qed.

(** C7.  The divisor 2a of the positive-root formula is 2(x^2 + y^2)
    itself: there is no floor under it.  For a normal on the z axis
    (x = y = 0 - for a unit normal, the poles (0, 0, 1) and (0, 0, -1))
    the products are exactly zero, the divisor is zero, and neither the
    paraboloid branch nor the quartic branch, which seeds its loop with
    the same quotient, has a finite result.  The orthographic branch has a
    result at the same normal, and so has the stereographic one away from
    the lower pole. *)
Theorem paraboloid_divides_by_zero `{Collaborators} (fuel : nat) (n : Vector3) :
  v_x n == 0 -> v_y n == 0 ->
  paraboloid_a n == 0
  /\ paraboloid_denominator n == 0
  /\ paraboloid_t n = None
  /\ transformNormal fuel NormalTransform_Paraboloid n = None
  /\ transformNormal fuel NormalTransform_Quartic n = None
  /\ transformNormal fuel NormalTransform_Orthographic n
     = Some (mkVector3 (v_x n) (v_y n) 0)
  /\ (~ 1 + v_z n == 0 ->
      transformNormal fuel NormalTransform_Stereographic n
      = Some (mkVector3 (v_x n / (1 + v_z n)) (v_y n / (1 + v_z n)) 0)).
Proof.
  intros Hx Hy.
  assert (Ha : paraboloid_a n == 0) by (apply paraboloid_a_zero; split; assumption).
  assert (Hden : paraboloid_denominator n == 0).
  { unfold paraboloid_denominator. rewrite Ha. reflexivity. }
  assert (Ht : paraboloid_t n = None).
  { unfold paraboloid_t. apply fdiv_None. exact Hden. }
  split; [exact Ha |]. split; [exact Hden |]. split; [exact Ht |].
  split; [simpl; rewrite Ht; reflexivity |].
  split; [simpl; rewrite Ht; reflexivity |].
  split; [reflexivity |].
  intros Hz. simpl. rewrite !(fdiv_Some _ _ Hz). reflexivity.
Qed.

Lemma paraboloid_divides_by_zero_witness :
  is_unit normal_up
  /\ paraboloid_denominator normal_up == 0
  /\ transformNormal (H := model_collaborators) 100 NormalTransform_Paraboloid
       normal_up = None
  /\ transformNormal (H := model_collaborators) 100 NormalTransform_Quartic
       normal_up = None.
Proof.
  destruct (paraboloid_divides_by_zero (H := model_collaborators) 100 normal_up)
    as (_ & Hden & _ & Hp & Hq & _).
  - reflexivity.
  - reflexivity.
  - split; [reflexivity |]. split; [exact Hden |]. split; [exact Hp | exact Hq].
Defined.

(** The Newton loop on two normals whose seed is 1: on (1, 0, 0) the seed
    is already a root and the loop is not entered; on (3/5, 4/5, 0) the
    residual at the seed is 0.2304 and the loop is entered. *)
Lemma quartic_newton_sample :
  paraboloid_t (H := model_collaborators) normal_flat = Some (781250 # 781250)
  /\ quartic_d normal_flat 1 == 144 # 625
  /\ quartic_newton 1 normal_flat 1 = StillRunning
  /\ quartic_newton 1 (mkVector3 1 0 0) 1 = Converged 1.
Proof. repeat split. Qed.

(** The loop stops only on [d <= 0.0001] or on a division by zero. *)
Lemma quartic_newton_converged fuel n : forall t t',
  quartic_newton fuel n t = Converged t' -> quartic_d n t' <= 1 # 10000.
Proof.
  induction fuel as [| fuel IH]; intros t t' E; simpl in E; [discriminate |].
  destruct (Qlt_le_dec (1 # 10000) (quartic_d n t)) as [Hgt | Hle].
  - destruct (fdiv (quartic_ft n t) (quartic_fit n t)); [| discriminate].
    eapply IH. exact E.
  - injection E as <-. exact Hle.
Qed.

(** ** Sample runs *)

Example previousPowerOfTwo_table :
  (previousPowerOfTwo <$> [1; 2; 3; 4; 5]%Z) = [1; 2; 2; 4; 4]%Z.
Proof. reflexivity. Qed.

Example nearestPowerOfTwo_table :
  (nearestPowerOfTwo <$> [3; 5; 6; 7; 12]%Z) = [4; 4; 8; 8; 16]%Z.
Proof. reflexivity. Qed.

Example getTargetExtent_nearest :
  getTargetExtent 300 200 1 256 RoundMode_ToNearestPowerOfTwo TextureType_2D
  = (256, 128, 1)%Z.
Proof. reflexivity. Qed.

Example getTargetExtent_scaled :
  getTargetExtent 300 200 7 100 RoundMode_None TextureType_3D = (100, 66, 2)%Z.
Proof. reflexivity. Qed.

Example countMipmaps_table :
  countMipmaps 1 1 1 = Some 1%Z /\ countMipmaps 256 1 1 = Some 9%Z
  /\ countMipmaps 300 1 1 = Some 9%Z /\ countMipmaps 0 1 1 = Some 2%Z.
Proof. repeat split. Qed.

(** * Further properties of the code *)

Local Open Scope Z_scope.

(** ** Mipmap counting, in closed form *)

Lemma log2_half v : 2 <= v -> Z.log2 (Z.quot v 2) = Z.log2 v - 1.
Proof.
  intros Hv. rewrite Z.quot_div_nonneg by lia.
  pose proof (Z.log2_spec v ltac:(lia)) as [Hlo Hhi].
  assert (Hk : 1 <= Z.log2 v).
  { apply Z.log2_le_pow2; [lia |]. change (2 ^ 1) with 2. lia. }
  apply Z.log2_unique; [lia |].
  replace (Z.succ (Z.log2 v - 1)) with (Z.log2 v) by lia.
  rewrite Z.pow_succ_r in Hhi by lia.
  replace (Z.log2 v) with (Z.succ (Z.log2 v - 1)) in Hlo at 1 by lia.
  rewrite Z.pow_succ_r in Hlo by lia.
  split.
  - apply Z.div_le_lower_bound; lia.
  - apply Z.div_lt_upper_bound; lia.
Qed.

Lemma halve_max w h d :
  1 <= w -> 1 <= h -> 1 <= d -> 2 <= Z.max (Z.max w h) d ->
  Z.max (Z.max (Z.max 1 (Z.quot w 2)) (Z.max 1 (Z.quot h 2))) (Z.max 1 (Z.quot d 2))
  = Z.quot (Z.max (Z.max w h) d) 2.
Proof.
  intros Hw Hh Hd Hm. rewrite !Z.quot_div_nonneg by lia.
  assert (Hmono : forall a b, a <= b -> a / 2 <= b / 2)
    by (intros a b Hab; apply Z.div_le_mono; lia).
  assert (H1 : 1 <= Z.max (Z.max w h) d / 2)
    by (apply Z.div_le_lower_bound; lia).
  pose proof (Hmono w (Z.max (Z.max w h) d) ltac:(lia)).
  pose proof (Hmono h (Z.max (Z.max w h) d) ltac:(lia)).
  pose proof (Hmono d (Z.max (Z.max w h) d) ltac:(lia)).
  destruct (Z.max_spec (Z.max w h) d) as [[_ E] | [_ E]];
    destruct (Z.max_spec w h) as [[_ E'] | [_ E']]; rewrite ?E, ?E' in *; lia.
Qed.

Lemma countMipmaps_loop_log2 fuel : forall w h d mipmap,
  1 <= w -> 1 <= h -> 1 <= d -> 0 <= mipmap ->
  Z.log2 (Z.max (Z.max w h) d) < Z.of_nat fuel ->
  mipmap + 1 + Z.log2 (Z.max (Z.max w h) d) < 2 ^ 32 ->
  countMipmaps_loop fuel w h d mipmap
  = Some (mipmap + 1 + Z.log2 (Z.max (Z.max w h) d)).
Proof.
  induction fuel as [| fuel IH]; intros w h d mipmap Hw Hh Hd Hm Hfuel Hrange.
  - pose proof (Z.log2_nonneg (Z.max (Z.max w h) d)). lia.
  - pose proof (Z.log2_nonneg (Z.max (Z.max w h) d)) as Hnn.
    simpl. destruct (negb (w =? 1) || negb (h =? 1) || negb (d =? 1)) eqn:E.
    + assert (Hbig : 2 <= Z.max (Z.max w h) d).
      { apply orb_true_iff in E as [E | E];
          [apply orb_true_iff in E as [E | E] |];
          apply negb_true_iff, Z.eqb_neq in E; lia. }
      rewrite to_uint_small by lia.
      pose proof (log2_half _ Hbig) as Hlog.
      pose proof (halve_max w h d Hw Hh Hd Hbig) as Hmax.
      rewrite IH; rewrite ?Hmax, ?Hlog; try lia.
      f_equal. lia.
    + apply orb_false_iff in E as [E Ed]. apply orb_false_iff in E as [Ew Eh].
      apply negb_false_iff, Z.eqb_eq in Ew, Eh, Ed. subst.
      change (Z.log2 (Z.max (Z.max 1 1) 1)) with 0 in *.
      rewrite to_uint_small by lia. f_equal. lia.
Qed.

(** X1. The mip count of positive extents is one more than the number of
    times the largest of them can be halved. *)
Theorem countMipmaps_closed_form (w h d : Z) :
  1 <= w < 2 ^ 32 -> 1 <= h < 2 ^ 32 -> 1 <= d < 2 ^ 32 ->
  countMipmaps w h d = Some (1 + Z.log2 (Z.max (Z.max w h) d)).
Proof.
  intros Hw Hh Hd. unfold countMipmaps.
  assert (Hlog : Z.log2 (Z.max (Z.max w h) d) < 32).
  { apply Z.log2_lt_pow2; lia. }
  rewrite countMipmaps_loop_log2; try lia. reflexivity.
Qed.

Lemma countMipmaps_closed_form_witness :
  countMipmaps 300 200 7 = Some (1 + Z.log2 (Z.max (Z.max 300 200) 7)).
Proof. apply (countMipmaps_closed_form 300 200 7); lia. Defined.

Lemma countMipmaps1_loop_eq fuel : forall w mipmap,
  countMipmaps1_loop fuel w mipmap = countMipmaps_loop fuel w 1 1 mipmap.
Proof.
  induction fuel as [| fuel IH]; intros w mipmap; [reflexivity |].
  simpl. rewrite IH. destruct (w =? 1); reflexivity.
Qed.

(** X2. The one-argument [countMipmaps] is the three-argument one at
    height and depth 1, for every width; for a positive width it is
    [1 + floor(log2 w)]. *)
Theorem countMipmaps1_agrees (w : Z) :
  countMipmaps1 w = countMipmaps w 1 1
  /\ (1 <= w < 2 ^ 32 -> countMipmaps1 w = Some (1 + Z.log2 w)).
Proof.
  assert (E : countMipmaps1 w = countMipmaps w 1 1)
    by apply countMipmaps1_loop_eq.
  split; [exact E |]. intros Hw. rewrite E.
  rewrite countMipmaps_closed_form by lia.
  do 3 f_equal. lia.
Qed.

Lemma countMipmaps1_agrees_witness : countMipmaps1 256 = Some (1 + Z.log2 256).
Proof. apply (countMipmaps1_agrees 256). lia. Defined.

(** ** Rounding to powers of two *)

Lemma pow2_mono j k : 0 <= j <= k -> 2 ^ j <= 2 ^ k.
Proof. intros H. apply Z.pow_le_mono_r; lia. Qed.

(** X3. [previousPowerOfTwo v] is the largest power of two that does not
    exceed [v]: it is a power of two, at most [v], and its double is above
    [v]. *)
Theorem previousPowerOfTwo_largest (v : Z) :
  1 <= v < 2 ^ 31 ->
  (exists k, 0 <= k /\ previousPowerOfTwo v = 2 ^ k)
  /\ previousPowerOfTwo v <= v < 2 * previousPowerOfTwo v
  /\ previousPowerOfTwo (previousPowerOfTwo v) = previousPowerOfTwo v.
Proof.
  intros Hv. rewrite (previousPowerOfTwo_eq v Hv).
  pose proof (Z.log2_spec v ltac:(lia)) as [Hlo Hhi].
  pose proof (Z.log2_nonneg v) as Hk.
  rewrite Z.pow_succ_r in Hhi by lia.
  split; [exists (Z.log2 v); split; [lia | reflexivity] |].
  split; [lia |].
  pose proof (Z.pow_pos_nonneg 2 (Z.log2 v) ltac:(lia) Hk).
  rewrite previousPowerOfTwo_eq by lia.
  rewrite Z.log2_pow2 by lia. reflexivity.
Qed.

Lemma previousPowerOfTwo_largest_witness :
  previousPowerOfTwo 100 <= 100 < 2 * previousPowerOfTwo 100.
Proof. apply (previousPowerOfTwo_largest 100). lia. Defined.

(** X4. [nearestPowerOfTwo v] is a power of two, no power of two is closer
    to [v], and when the next and the previous power of two are equally
    far the next one is returned. *)
Theorem nearestPowerOfTwo_nearest (v : Z) :
  1 <= v < 2 ^ 31 ->
  (exists k, 0 <= k /\ nearestPowerOfTwo v = 2 ^ k)
  /\ (forall j, 0 <= j -> Z.abs (nearestPowerOfTwo v - v) <= Z.abs (2 ^ j - v))
  /\ (nextPowerOfTwo v - v = v - previousPowerOfTwo v ->
      nearestPowerOfTwo v = nextPowerOfTwo v).
Proof.
  intros Hv. unfold nearestPowerOfTwo.
  rewrite (previousPowerOfTwo_eq v Hv), (nextPowerOfTwo_eq v) by lia.
  pose proof (Z.log2_log2_up_spec v ltac:(lia)) as [Hlo Hhi].
  pose proof (Z.log2_nonneg v) as Hk. pose proof (Z.log2_up_nonneg v) as Hku.
  pose proof (Z.le_log2_up_succ_log2 v) as Hsucc.
  assert (Hk31 : Z.log2_up v <= 31) by (apply Z.log2_up_le_pow2; lia).
  pose proof (pow2_le_31 (Z.log2_up v) ltac:(lia)) as Hn31.
  pose proof (Z.pow_pos_nonneg 2 (Z.log2 v) ltac:(lia) Hk) as Hppos.
  rewrite !to_uint_small by lia.
  assert (Hfar : forall j, 0 <= j ->
            2 ^ j <= 2 ^ Z.log2 v \/ 2 ^ Z.log2_up v <= 2 ^ j).
  { intros j Hj. destruct (Z.le_gt_cases j (Z.log2 v)) as [Hle | Hgt].
    - left. apply pow2_mono. lia.
    - right. apply pow2_mono. lia. }
  destruct (2 ^ Z.log2_up v - v <=? v - 2 ^ Z.log2 v) eqn:E.
  - apply Z.leb_le in E. split; [exists (Z.log2_up v); split; [lia | reflexivity] |].
    split; [| reflexivity].
    intros j Hj. destruct (Hfar j Hj); lia.
  - apply Z.leb_gt in E. split; [exists (Z.log2 v); split; [lia | reflexivity] |].
    split; [| lia].
    intros j Hj. destruct (Hfar j Hj); lia.
Qed.

Lemma nearestPowerOfTwo_nearest_witness :
  Z.abs (nearestPowerOfTwo 6 - 6) <= Z.abs (2 ^ 2 - 6)
  /\ nearestPowerOfTwo 6 = nextPowerOfTwo 6.
Proof.
  destruct (nearestPowerOfTwo_nearest 6 ltac:(lia)) as (_ & Hmin & Htie).
  split; [apply Hmin; lia | apply Htie; reflexivity].
Defined.

(** ** Extent rounding, applied twice *)

Lemma roundAxis_pow2_fixed roundMode k :
  0 <= k <= 30 -> roundAxis roundMode (2 ^ k) = 2 ^ k.
Proof.
  intros Hk.
  assert (H30 : 0 < 2 ^ k <= 2 ^ 30).
  { split; [apply Z.pow_pos_nonneg; lia | apply pow2_mono; lia]. }
  assert (Hn : nextPowerOfTwo (2 ^ k) = 2 ^ k).
  { rewrite nextPowerOfTwo_eq by lia. rewrite Z.log2_up_pow2 by lia. reflexivity. }
  assert (Hp : previousPowerOfTwo (2 ^ k) = 2 ^ k).
  { rewrite previousPowerOfTwo_eq by lia. rewrite Z.log2_pow2 by lia. reflexivity. }
  destruct roundMode; simpl; rewrite ?to_uint_small by lia.
  - reflexivity.
  - rewrite Hn. apply to_int_small. lia.
  - destruct (nearestPowerOfTwo_cases (2 ^ k)) as [-> | ->];
      rewrite ?Hn, ?Hp; apply to_int_small; lia.
  - rewrite Hp. apply to_int_small. lia.
Qed.

Lemma roundAxis_is_pow2 roundMode v k :
  roundMode <> RoundMode_None -> 0 <= k <= 30 -> 1 <= v <= 2 ^ k ->
  exists j, 0 <= j <= k /\ roundAxis roundMode v = 2 ^ j.
Proof.
  intros Hmode Hk Hv.
  assert (H30 : 0 < 2 ^ k <= 2 ^ 30).
  { split; [apply Z.pow_pos_nonneg; lia | apply pow2_mono; lia]. }
  assert (Hup : 0 <= Z.log2_up v <= k).
  { split; [apply Z.log2_up_nonneg | apply Z.log2_up_le_pow2; lia]. }
  assert (Hlo : 0 <= Z.log2 v <= k).
  { split; [apply Z.log2_nonneg |]. pose proof (Z.le_log2_log2_up v). lia. }
  assert (Hn : nextPowerOfTwo v = 2 ^ Z.log2_up v)
    by (apply nextPowerOfTwo_eq; lia).
  assert (Hp : previousPowerOfTwo v = 2 ^ Z.log2 v)
    by (apply previousPowerOfTwo_eq; lia).
  pose proof (pow2_mono (Z.log2_up v) k ltac:(lia)).
  pose proof (pow2_mono (Z.log2 v) k ltac:(lia)).
  pose proof (Z.pow_pos_nonneg 2 (Z.log2_up v) ltac:(lia) ltac:(lia)).
  pose proof (Z.pow_pos_nonneg 2 (Z.log2 v) ltac:(lia) ltac:(lia)).
  destruct roundMode; simpl; rewrite ?to_uint_small by lia.
  - congruence.
  - exists (Z.log2_up v). rewrite Hn. split; [lia | apply to_int_small; lia].
  - destruct (nearestPowerOfTwo_cases v) as [-> | ->].
    + exists (Z.log2_up v). rewrite Hn. split; [lia | apply to_int_small; lia].
    + exists (Z.log2 v). rewrite Hp. split; [lia | apply to_int_small; lia].
  - exists (Z.log2 v). rewrite Hp. split; [lia | apply to_int_small; lia].
Qed.

(** An extent that is within the cap and already rounded is returned as it
    is. *)
Lemma getTargetExtent_fixed w h d maxExtent roundMode textureType :
  let cap := roundedMaxExtent maxExtent roundMode in
  1 <= w <= cap -> 1 <= h <= cap -> 1 <= d <= cap -> cap < 2 ^ 30 ->
  roundAxis roundMode w = w -> roundAxis roundMode h = h ->
  roundAxis roundMode 1 = 1 ->
  (textureType = TextureType_3D -> roundAxis roundMode d = d) ->
  (textureType <> TextureType_3D -> d = 1) ->
  (textureType = TextureType_Cube -> w = h) ->
  getTargetExtent w h d maxExtent roundMode textureType = (w, h, d).
Proof.
  intros cap Hw Hh Hd Hcap Rw Rh R1 Rd Hflat Hsq.
  rewrite getTargetExtent_unfold. fold cap. unfold scaleExtent.
  replace (cap <? Z.max (Z.max w h) d) with false
    by (symmetry; apply Z.ltb_ge; lia).
  rewrite andb_false_r.
  destruct textureType; simpl.
  - rewrite Rw, Rh, R1, (Hflat ltac:(discriminate)). reflexivity.
  - rewrite <- (Hsq eq_refl), (Hflat ltac:(discriminate)).
    rewrite to_int_small by lia.
    replace (w + w) with (w * 2) by lia. rewrite Z.quot_mul by lia.
    rewrite Rw, R1. reflexivity.
  - rewrite Rw, Rh, (Rd eq_refl). reflexivity.
Qed.

Lemma shapeExtent_bounds sw sh sd cap textureType :
  1 <= sw <= cap -> 1 <= sh <= cap -> 1 <= sd <= cap -> cap < 2 ^ 30 ->
  let '(a, b, c) := shapeExtent (sw, sh, sd) textureType in
  (1 <= a <= cap) /\ (1 <= b <= cap) /\ (1 <= c <= cap)
  /\ (textureType <> TextureType_3D -> c = 1)
  /\ (textureType = TextureType_Cube -> a = b).
Proof.
  intros Hw Hh Hd Hcap. destruct textureType; simpl.
  - repeat split; try lia; congruence.
  - rewrite to_int_small by lia. rewrite Z.quot_div_nonneg by lia.
    pose proof (Z.div_le_lower_bound (sw + sh) 2 1 ltac:(lia) ltac:(lia)).
    pose proof (Z.div_le_upper_bound (sw + sh) 2 cap ltac:(lia) ltac:(lia)).
    repeat split; try lia; congruence.
  - repeat split; try lia; congruence.
Qed.

(** X5. For positive extents and a cap below 2^30, [getTargetExtent]
    returns positive extents, and applying it again to its own result
    (same cap, rounding mode and texture type) changes nothing. *)
Theorem getTargetExtent_idempotent
    (w h d maxExtent : Z) (roundMode : RoundMode) (textureType : TextureType) :
  0 < w -> 0 < h -> 0 < d -> 0 < maxExtent < 2 ^ 30 ->
  let t := getTargetExtent w h d maxExtent roundMode textureType in
  (1 <= t.1.1 /\ 1 <= t.1.2 /\ 1 <= t.2)
  /\ getTargetExtent t.1.1 t.1.2 t.2 maxExtent roundMode textureType = t.
Proof.
  intros Hw Hh Hd Hc t. subst t. rewrite (getTargetExtent_unfold w h d).
  set (cap := roundedMaxExtent maxExtent roundMode).
  assert (Hcap : 1 <= cap <= maxExtent
                 /\ (roundMode <> RoundMode_None ->
                     cap = 2 ^ Z.log2 maxExtent /\ 0 <= Z.log2 maxExtent <= 30)).
  { destruct (decide (roundMode = RoundMode_None)) as [-> | Hmode].
    - subst cap. rewrite roundedMaxExtent_None. split; [lia | congruence].
    - destruct (roundedMaxExtent_pow2 maxExtent roundMode Hmode) as (He & Hk & Hb).
      { unfold INT_MAX. lia. }
      subst cap. split; [lia | intros _; split; assumption]. }
  destruct Hcap as [Hcap Hpow].
  pose proof (scaleExtent_bounds w h d cap ltac:(lia) ltac:(lia) ltac:(lia) ltac:(lia))
    as Hs.
  destruct (scaleExtent w h d cap) as [[sw sh] sd]. destruct Hs as (Hsw & Hsh & Hsd).
  pose proof (shapeExtent_bounds sw sh sd cap textureType Hsw Hsh Hsd ltac:(lia))
    as Hshape.
  destruct (shapeExtent (sw, sh, sd) textureType) as [[a b] c].
  destruct Hshape as (Ha & Hb & Hcc & Hflat & Hsq). simpl.
  destruct (decide (roundMode = RoundMode_None)) as [Hnone | Hmode].
  - subst roundMode. simpl. split; [lia |].
    apply getTargetExtent_fixed; fold cap; try lia; try reflexivity; assumption.
  - destruct (Hpow Hmode) as [Ek Hk]. rewrite Ek in Ha, Hb, Hcc.
    destruct (roundAxis_is_pow2 roundMode a _ Hmode Hk Ha) as (ja & Hja & Ea).
    destruct (roundAxis_is_pow2 roundMode b _ Hmode Hk Hb) as (jb & Hjb & Eb).
    destruct (roundAxis_is_pow2 roundMode c _ Hmode Hk Hcc) as (jc & Hjc & Ec).
    pose proof (roundAxis_pow2_fixed roundMode 0 ltac:(lia)) as R1.
    change (2 ^ 0) with 1 in R1.
    pose proof (Z.pow_pos_nonneg 2 ja ltac:(lia) ltac:(lia)).
    pose proof (Z.pow_pos_nonneg 2 jb ltac:(lia) ltac:(lia)).
    pose proof (Z.pow_pos_nonneg 2 jc ltac:(lia) ltac:(lia)).
    pose proof (pow2_mono ja (Z.log2 maxExtent) ltac:(lia)).
    pose proof (pow2_mono jb (Z.log2 maxExtent) ltac:(lia)).
    pose proof (pow2_mono jc (Z.log2 maxExtent) ltac:(lia)).
    rewrite Ea, Eb, Ec. split; [lia |].
    apply getTargetExtent_fixed; fold cap; rewrite ?Ek; try lia; try exact R1.
    + apply roundAxis_pow2_fixed. lia.
    + apply roundAxis_pow2_fixed. lia.
    + intros _. apply roundAxis_pow2_fixed. lia.
    + intros Hflat3. rewrite <- Ec, (Hflat Hflat3). exact R1.
    + intros Hcube. rewrite <- Ea, <- Eb, (Hsq Hcube). reflexivity.
Qed.

Lemma getTargetExtent_idempotent_witness :
  getTargetExtent
    (getTargetExtent 300 200 7 100 RoundMode_ToNearestPowerOfTwo TextureType_Cube).1.1
    (getTargetExtent 300 200 7 100 RoundMode_ToNearestPowerOfTwo TextureType_Cube).1.2
    (getTargetExtent 300 200 7 100 RoundMode_ToNearestPowerOfTwo TextureType_Cube).2
    100 RoundMode_ToNearestPowerOfTwo TextureType_Cube
  = getTargetExtent 300 200 7 100 RoundMode_ToNearestPowerOfTwo TextureType_Cube.
Proof.
  apply (getTargetExtent_idempotent 300 200 7 100
           RoundMode_ToNearestPowerOfTwo TextureType_Cube); lia.
Defined.

(** X6. Whatever the extents, the cap and the rounding mode, a 2D target
    has depth 1 and a cube target is a square of depth 1. *)
Theorem getTargetExtent_flat
    (w h d maxExtent : Z) (roundMode : RoundMode) (textureType : TextureType) :
  let t := getTargetExtent w h d maxExtent roundMode textureType in
  match textureType with
  | TextureType_2D => t.2 = 1
  | TextureType_Cube => t.2 = 1 /\ t.1.1 = t.1.2
  | TextureType_3D => True
  end.
Proof.
  intros t. subst t. rewrite getTargetExtent_unfold.
  destruct (scaleExtent w h d _) as [[sw sh] sd].
  destruct textureType; simpl; [| split | exact I];
    try reflexivity; destruct roundMode; reflexivity.
Qed.

(** ** The reference counts follow the handles *)

Lemma store_wf_counted hs σ : store_wf hs σ <-> counted (holders hs) σ.
Proof.
  split.
  - intros Hwf p. destruct (σ !! p) as [st |] eqn:E.
    + exact (store_wf_lookup _ _ _ _ Hwf E).
    + exact (holders_dead _ _ _ Hwf E).
  - intros Hc. split.
    + apply Forall_forall. intros s Hs.
      apply list_elem_of_lookup in Hs as [i Hi].
      pose proof (holders_lookup _ _ _ Hi) as H1.
      specialize (Hc (m s)). destruct (σ !! m s); [eauto | lia].
    + intros p st Hp. specialize (Hc p). rewrite Hp in Hc. exact Hc.
Qed.

Lemma counted_ext cnt cnt' σ :
  (forall p, cnt p = cnt' p) -> counted cnt σ -> counted cnt' σ.
Proof.
  intros E Hc p. specialize (Hc p). rewrite <- E. exact Hc.
Qed.

Lemma counted_addRef cnt σ p :
  counted cnt σ -> is_Some (σ !! p) ->
  counted (fun r => if decide (r = p) then S (cnt r) else cnt r) (addRef p σ).
Proof.
  intros Hc [st Hst] r. unfold addRef. specialize (Hc r).
  destruct (decide (r = p)) as [-> | Hr].
  - rewrite lookup_alter_eq, Hst. simpl. rewrite Hst in Hc. lia.
  - rewrite lookup_alter_ne by congruence. exact Hc.
Qed.

Lemma counted_release cnt σ p :
  counted cnt σ -> (1 <= cnt p)%nat ->
  counted (fun r => if decide (r = p) then pred (cnt r) else cnt r) (release p σ).
Proof.
  intros Hc Hp r. unfold release. pose proof (Hc p) as Hcp.
  destruct (σ !! p) as [st |] eqn:Hst; [| lia].
  specialize (Hc r).
  destruct (decide (refCount st <= 1)%nat) as [Hlast | Hmore];
    destruct (decide (r = p)) as [-> | Hr].
  - rewrite lookup_delete_eq. lia.
  - rewrite lookup_delete_ne by congruence. exact Hc.
  - rewrite lookup_insert_eq. simpl. lia.
  - rewrite lookup_insert_ne by congruence. exact Hc.
Qed.

Lemma counted_alloc cnt σ st :
  counted cnt σ -> refCount st = 0%nat ->
  counted cnt (alloc st σ).2 /\ σ !! (alloc st σ).1 = None
  /\ (alloc st σ).2 !! (alloc st σ).1 = Some st.
Proof.
  intros Hc Hst. unfold alloc. simpl.
  assert (Hq : σ !! fresh (dom σ) = None) by (apply not_elem_of_dom, is_fresh).
  split; [| split; [exact Hq | apply lookup_insert_eq]].
  intros r. specialize (Hc r).
  destruct (decide (fresh (dom σ) = r)) as [<- | Hr].
  - rewrite lookup_insert_eq. rewrite Hq in Hc. lia.
  - rewrite lookup_insert_ne by exact Hr. exact Hc.
Qed.

Lemma counted_update cnt σ f this :
  (forall x, refCount (f x) = refCount x) -> counted cnt σ ->
  counted cnt (update f this σ).
Proof.
  intros Hf Hc r. unfold update. specialize (Hc r).
  destruct (decide (m this = r)) as [<- | Hr].
  - rewrite lookup_alter_eq. destruct (σ !! m this); simpl; [rewrite Hf |]; exact Hc.
  - rewrite lookup_alter_ne by exact Hr. exact Hc.
Qed.

Lemma holders_app hs s p :
  holders (hs ++ [s]) p
  = (holders hs p + (if decide (m s = p) then 1 else 0))%nat.
Proof.
  unfold holders. rewrite filter_app, length_app. f_equal.
  destruct (decide (m s = p)) as [E | E].
  - rewrite filter_cons_True by exact E. reflexivity.
  - rewrite filter_cons_False by exact E. reflexivity.
Qed.

Lemma holders_delete hs i s p :
  hs !! i = Some s ->
  (holders (delete i hs) p + (if decide (m s = p) then 1 else 0)
   = holders hs p)%nat.
Proof.
  revert i. induction hs as [| x hs IH]; intros [| i] Hi; simplify_eq/=.
  - rewrite holders_cons. lia.
  - rewrite !holders_cons. specialize (IH _ Hi). lia.
Qed.

Lemma store_wf_new hs σ :
  store_wf hs σ -> store_wf (hs ++ [(Surface_new σ).1]) (Surface_new σ).2.
Proof.
  intros Hwf. apply store_wf_counted in Hwf. apply store_wf_counted.
  destruct (counted_alloc _ σ Private_new Hwf eq_refl) as (Hc & Hfresh & Hnew).
  unfold Surface_new. destruct (alloc Private_new σ) as [p σ1]. simpl in *.
  eapply counted_ext; [| apply (counted_addRef _ _ p Hc); eauto].
  intros r. simpl. rewrite holders_app. simpl.
  destruct (decide (r = p)), (decide (p = r)); try congruence; lia.
Qed.

Lemma store_wf_copy hs σ i tex :
  store_wf hs σ -> hs !! i = Some tex ->
  store_wf (hs ++ [(Surface_copy tex σ).1]) (Surface_copy tex σ).2.
Proof.
  intros Hwf Hi. pose proof (store_wf_alive _ _ _ _ Hwf Hi) as Halive.
  apply store_wf_counted in Hwf. apply store_wf_counted.
  unfold Surface_copy. simpl.
  eapply counted_ext; [| apply (counted_addRef _ _ (m tex) Hwf Halive)].
  intros r. simpl. rewrite holders_app. simpl.
  destruct (decide (r = m tex)), (decide (m tex = r)); try congruence; lia.
Qed.

Lemma store_wf_delete hs σ i this :
  store_wf hs σ -> hs !! i = Some this ->
  store_wf (delete i hs) (Surface_delete this σ).
Proof.
  intros Hwf Hi. pose proof (holders_lookup _ _ _ Hi) as H1.
  apply store_wf_counted in Hwf. apply store_wf_counted.
  unfold Surface_delete.
  eapply counted_ext; [| apply (counted_release _ _ (m this) Hwf H1)].
  intros r. simpl. pose proof (holders_delete hs i this r Hi).
  destruct (decide (r = m this)), (decide (m this = r)); try congruence; lia.
Qed.

Lemma store_wf_assign hs σ i j this tex :
  store_wf hs σ -> hs !! i = Some this -> hs !! j = Some tex ->
  store_wf (<[i := (Surface_assign this tex σ).1]> hs) (Surface_assign this tex σ).2.
Proof.
  intros Hwf Hi Hj. pose proof (holders_lookup _ _ _ Hi) as H1.
  pose proof (store_wf_alive _ _ _ _ Hwf Hj) as Halive.
  apply store_wf_counted in Hwf. apply store_wf_counted.
  unfold Surface_assign. simpl.
  pose proof (counted_addRef _ _ (m tex) Hwf Halive) as Hc1.
  eapply counted_ext; [| apply (counted_release _ _ (m this) Hc1)].
  - intros r. simpl.
    pose proof (holders_insert hs i this (mkSurface (m tex)) r Hi) as Hh.
    simpl in Hh.
    destruct (decide (r = m this)), (decide (m this = r)), (decide (r = m tex)),
      (decide (m tex = r)); try congruence; subst; lia.
  - simpl. destruct (decide (m this = m tex)); lia.
Qed.

Lemma store_wf_detach hs σ i this :
  store_wf hs σ -> hs !! i = Some this ->
  store_wf (<[i := (detach this σ).1]> hs) (detach this σ).2.
Proof.
  intros Hwf Hi. unfold detach.
  destruct (decide (1 < refCount (deref this σ))%nat) as [Hrc | Hrc].
  - pose proof (holders_lookup _ _ _ Hi) as H1.
    destruct (store_wf_alive _ _ _ _ Hwf Hi) as [st Hst].
    pose proof (store_wf_lookup _ _ _ _ Hwf Hst) as Hcount.
    rewrite (deref_lookup _ _ _ Hst) in Hrc.
    apply store_wf_counted in Hwf. apply store_wf_counted.
    pose proof (counted_release _ _ (m this) Hwf H1) as Hc1.
    destruct (counted_alloc _ (release (m this) σ)
                (Private_copy (deref this (release (m this) σ))) Hc1 eq_refl)
      as (Hc2 & Hfresh & Hnew).
    destruct (alloc _ (release (m this) σ)) as [q σ2]. simpl in *.
    assert (Hq0 : holders hs q = 0%nat).
    { specialize (Hc1 q). rewrite Hfresh in Hc1. simpl in Hc1.
      destruct (decide (q = m this)) as [E | E]; [rewrite E in Hc1 |]; lia. }
    eapply counted_ext; [| apply (counted_addRef _ _ q Hc2); eauto].
    intros r. simpl.
    pose proof (holders_insert hs i this (mkSurface q) r Hi) as Hh. simpl in Hh.
    assert (q <> m this) by (intros ->; lia).
    destruct (decide (r = q)), (decide (q = r)), (decide (r = m this)),
      (decide (m this = r)); try congruence; subst; lia.
  - simpl. rewrite list_insert_id by exact Hi. exact Hwf.
Qed.

Lemma store_wf_mutating hs σ i this f :
  (forall x, refCount (f x) = refCount x) ->
  store_wf hs σ -> hs !! i = Some this ->
  store_wf (<[i := (mutating f this σ).1]> hs) (mutating f this σ).2.
Proof.
  intros Hf Hwf Hi. pose proof (store_wf_detach hs σ i this Hwf Hi) as Hd.
  unfold mutating. destruct (detach this σ) as [this' σ']. simpl in *.
  apply store_wf_counted. apply store_wf_counted in Hd.
  apply counted_update; assumption.
Qed.

(** X7. The reference counts follow the handles through every operation
    on handles: constructing, copying, destroying and assigning a
    [Surface], [detach], and a mutating method leave each state with a
    count equal to the number of handles that point at it, and keep every
    handle pointing at a live state. *)
Theorem store_wf_preserved (hs : list Surface) (σ : heap) :
  store_wf hs σ ->
  store_wf (hs ++ [(Surface_new σ).1]) (Surface_new σ).2
  /\ forall i this, hs !! i = Some this ->
       store_wf (hs ++ [(Surface_copy this σ).1]) (Surface_copy this σ).2
       /\ store_wf (delete i hs) (Surface_delete this σ)
       /\ store_wf (<[i := (detach this σ).1]> hs) (detach this σ).2
       /\ (forall f, (forall x, refCount (f x) = refCount x) ->
             store_wf (<[i := (mutating f this σ).1]> hs) (mutating f this σ).2)
       /\ (forall j tex, hs !! j = Some tex ->
             store_wf (<[i := (Surface_assign this tex σ).1]> hs)
                      (Surface_assign this tex σ).2).
Proof.
  intros Hwf. split; [apply store_wf_new, Hwf |].
  intros i this Hi.
  split; [eapply store_wf_copy; eassumption |].
  split; [apply store_wf_delete; assumption |].
  split; [apply store_wf_detach; assumption |].
  split.
  - intros f Hf. apply store_wf_mutating; assumption.
  - intros j tex Hj. eapply store_wf_assign; eassumption.
Qed.

Lemma store_wf_preserved_witness :
  store_wf ([] ++ [(Surface_new ∅).1]) (Surface_new ∅).2.
Proof.
  apply (store_wf_preserved [] ∅).
  apply (bool_decide_unpack _). vm_compute. exact I.
Defined.

Lemma set_refCount_twice n k st : set_refCount n (set_refCount k st) = set_refCount n st.
Proof. reflexivity. Qed.

Lemma release_addRef p σ st :
  σ !! p = Some st -> (1 <= refCount st)%nat -> release p (addRef p σ) = σ.
Proof.
  intros Hst Hrc. unfold release, addRef. rewrite lookup_alter_eq, Hst. simpl.
  rewrite decide_False by lia.
  apply map_eq. intros r. destruct (decide (p = r)) as [<- | Hr].
  - rewrite lookup_insert_eq, Hst. rewrite set_refCount_twice, set_refCount_id.
    reflexivity.
  - rewrite lookup_insert_ne, lookup_alter_ne by exact Hr. reflexivity.
Qed.

(** X8. On a live handle whose state has a positive count: copying the
    handle and destroying the copy gives back the store as it was;
    assigning the handle to itself changes nothing; destroying the only
    handle of a state frees the state, destroying one of several leaves the
    buffer in place. *)
Theorem handle_round_trips (this : Surface) (σ : heap) (st : Private) :
  σ !! m this = Some st -> (1 <= refCount st)%nat ->
  Surface_delete (Surface_copy this σ).1 (Surface_copy this σ).2 = σ
  /\ Surface_assign this this σ = (this, σ)
  /\ (refCount st = 1%nat -> Surface_delete this σ !! m this = None)
  /\ (1 < refCount st -> observe this (Surface_delete this σ) = observe this σ)%nat.
Proof.
  intros Hst Hrc.
  pose proof (release_addRef _ _ _ Hst Hrc) as Hround.
  split; [exact Hround |]. split.
  - unfold Surface_assign. rewrite Hround. destruct this. reflexivity.
  - unfold Surface_delete, release. rewrite Hst. split.
    + intros H1. rewrite decide_True by lia. apply lookup_delete_eq.
    + intros H2. rewrite decide_False by lia.
      unfold observe, deref. rewrite lookup_insert_eq, Hst. reflexivity.
Qed.

Lemma handle_round_trips_witness :
  Surface_assign sample_2d.1.2 sample_2d.1.2 sample_2d.2
  = (sample_2d.1.2, sample_2d.2).
Proof.
  destruct sample_2d_live as (Hst & _).
  apply (handle_round_trips sample_2d.1.2 sample_2d.2 _ Hst).
  vm_compute. lia.
Defined.

(** X9. [detach] establishes what its assertion checks: in a store whose
    counts follow the handles, the handle it returns is the sole owner of
    its state (count 1), that state carries the same buffer and metadata as
    before, and a second [detach] does nothing. *)
Theorem detach_sole_owner (hs : list Surface) (σ : heap) (i : nat) (this : Surface) :
  store_wf hs σ -> hs !! i = Some this ->
  let r := detach this σ in
  refCount (deref r.1 r.2) = 1%nat
  /\ deref r.1 r.2 = set_refCount 1 (deref this σ)
  /\ observe r.1 r.2 = observe this σ
  /\ detach r.1 r.2 = r.
Proof.
  intros Hwf Hi r.
  destruct (store_wf_alive _ _ _ _ Hwf Hi) as [st Hst].
  pose proof (store_wf_lookup _ _ _ _ Hwf Hst) as Hcount.
  pose proof (holders_lookup _ _ _ Hi) as H1.
  assert (Hd : deref r.1 r.2 = set_refCount 1 (deref this σ)).
  { subst r. rewrite (deref_lookup _ _ _ Hst).
    destruct (decide (1 < refCount st)%nat) as [Hrc | Hrc].
    - destruct (detach_shared this σ st Hst Hrc) as (-> & _ & _). simpl.
      unfold deref. simpl. rewrite lookup_insert_eq. reflexivity.
    - rewrite detach_sole by (rewrite (deref_lookup _ _ _ Hst); lia). simpl.
      rewrite (deref_lookup _ _ _ Hst).
      replace 1%nat with (refCount st) by lia. symmetry. apply set_refCount_id. }
  split; [rewrite Hd; reflexivity |]. split; [exact Hd |].
  split; [unfold observe; rewrite Hd; reflexivity |].
  destruct r as [this' σ'] eqn:Er. simpl in *.
  apply detach_sole. rewrite Hd. simpl. lia.
Qed.

Lemma detach_sole_owner_witness :
  refCount (deref (detach sample_2d.1.2 sample_copy.2).1
                  (detach sample_2d.1.2 sample_copy.2).2) = 1%nat.
Proof.
  apply (detach_sole_owner [sample_2d.1.2; sample_copy.1] sample_copy.2 0
           sample_2d.1.2).
  - apply (bool_decide_unpack _). vm_compute. exact I.
  - reflexivity.
Defined.

(** ** Metadata setters *)

Lemma set_wrapMode_id st : set_wrapMode (wrapMode st) st = st.
Proof. destruct st; reflexivity. Qed.

Lemma set_alphaMode_id st : set_alphaMode (alphaMode st) st = st.
Proof. destruct st; reflexivity. Qed.

Lemma set_isNormalMap_id st : set_isNormalMap (isNormalMap st) st = st.
Proof. destruct st; reflexivity. Qed.

(** A setter of the shape [if (m->field != v) { detach(); m->field = v; }]. *)
Lemma guarded_setter_spec (changed : bool) (f : Private -> Private) this σ st :
  σ !! m this = Some st -> (changed = false -> f st = st) ->
  (forall n x, f (set_refCount n x) = set_refCount n (f x)) ->
  let r := if changed then mutating f this σ else (this, σ) in
  (exists n, deref r.1 r.2 = set_refCount n (f st))
  /\ (changed = false -> r = (this, σ)).
Proof.
  intros Hst Hid Hcomm r. subst r. destruct changed.
  - split; [| discriminate].
    destruct (deref_mutating f this σ st Hst) as [n Hn].
    exists n. rewrite Hn. apply Hcomm.
  - split; [| reflexivity]. exists (refCount st). simpl.
    rewrite (deref_lookup _ _ _ Hst), (Hid eq_refl). symmetry. apply set_refCount_id.
Qed.

(** X10. On a live handle, [setWrapMode], [setAlphaMode] and
    [setNormalMap] leave a state that differs from the old one in the field
    that was set (and possibly in the reference count) and in nothing else;
    when the field already has the value, the handle and the store are
    returned untouched, so no clone is made even if the state is shared. *)
Theorem setters_spec (this : Surface) (σ : heap) (st : Private)
    (wm : WrapMode) (am : AlphaMode) (nm : bool) :
  σ !! m this = Some st ->
  ((exists n, deref (setWrapMode wm this σ).1 (setWrapMode wm this σ).2
              = set_refCount n (set_wrapMode wm st))
   /\ (wrapMode st = wm -> setWrapMode wm this σ = (this, σ)))
  /\ ((exists n, deref (setAlphaMode am this σ).1 (setAlphaMode am this σ).2
                 = set_refCount n (set_alphaMode am st))
      /\ (alphaMode st = am -> setAlphaMode am this σ = (this, σ)))
  /\ ((exists n, deref (setNormalMap nm this σ).1 (setNormalMap nm this σ).2
                 = set_refCount n (set_isNormalMap nm st))
      /\ (isNormalMap st = nm -> setNormalMap nm this σ = (this, σ))).
Proof.
  intros Hst. unfold setWrapMode, setAlphaMode, setNormalMap.
  rewrite (deref_lookup _ _ _ Hst).
  split; [| split].
  - destruct (guarded_setter_spec
                (bool_decide (wrapMode st <> wm)) (set_wrapMode wm) this σ st Hst)
      as [Hd Hsame].
    + intros E. apply bool_decide_eq_false in E.
      assert (wrapMode st = wm) as <- by (destruct (decide (wrapMode st = wm)); tauto).
      apply set_wrapMode_id.
    + reflexivity.
    + destruct (decide (wrapMode st <> wm)) as [Hne | Heq].
      * rewrite bool_decide_eq_true_2 in Hd by exact Hne.
        split; [exact Hd | intros E; contradiction].
      * rewrite bool_decide_eq_false_2 in Hd, Hsame by exact Heq.
        split; [exact Hd | intros _; reflexivity].
  - destruct (guarded_setter_spec
                (bool_decide (alphaMode st <> am)) (set_alphaMode am) this σ st Hst)
      as [Hd Hsame].
    + intros E. apply bool_decide_eq_false in E.
      assert (alphaMode st = am) as <- by (destruct (decide (alphaMode st = am)); tauto).
      apply set_alphaMode_id.
    + reflexivity.
    + destruct (decide (alphaMode st <> am)) as [Hne | Heq].
      * rewrite bool_decide_eq_true_2 in Hd by exact Hne.
        split; [exact Hd | intros E; contradiction].
      * rewrite bool_decide_eq_false_2 in Hd, Hsame by exact Heq.
        split; [exact Hd | intros _; reflexivity].
  - destruct (guarded_setter_spec
                (bool_decide (isNormalMap st <> nm)) (set_isNormalMap nm) this σ st Hst)
      as [Hd Hsame].
    + intros E. apply bool_decide_eq_false in E.
      assert (isNormalMap st = nm) as <-
        by (destruct (decide (isNormalMap st = nm)); tauto).
      apply set_isNormalMap_id.
    + reflexivity.
    + destruct (decide (isNormalMap st <> nm)) as [Hne | Heq].
      * rewrite bool_decide_eq_true_2 in Hd by exact Hne.
        split; [exact Hd | intros E; contradiction].
      * rewrite bool_decide_eq_false_2 in Hd, Hsame by exact Heq.
        split; [exact Hd | intros _; reflexivity].
Qed.

Lemma setters_spec_witness :
  setWrapMode WrapMode_Mirror sample_copy.1 sample_copy.2
  = (sample_copy.1, sample_copy.2).
Proof.
  assert (Hst : sample_copy.2 !! m sample_copy.1
                = Some (deref sample_copy.1 sample_copy.2))
    by (vm_compute; reflexivity).
  destruct (setters_spec sample_copy.1 sample_copy.2 _
              WrapMode_Mirror AlphaMode_None false Hst) as [[_ Hsame] _].
  apply Hsame. vm_compute. reflexivity.
Defined.

(** ** Shape requests that change nothing *)

Lemma shape_guard_true this σ st img w h d :
  σ !! m this = Some st -> image st = Some img -> fi_shape img = (w, h, d) ->
  isNull this σ
  || ((w =? width this σ) && (h =? height this σ) && (d =? depth this σ)) = true.
Proof.
  intros Hst Himg Hs. unfold isNull, width, height, depth.
  rewrite (deref_lookup _ _ _ Hst), Himg.
  unfold fi_shape in Hs. injection Hs as -> -> ->.
  rewrite !Z.eqb_refl. apply orb_true_r.
Qed.

Lemma shape_guard_null this σ st w h d :
  σ !! m this = Some st -> image st = None ->
  isNull this σ
  || ((w =? width this σ) && (h =? height this σ) && (d =? depth this σ)) = true.
Proof.
  intros Hst Himg. unfold isNull. rewrite (deref_lookup _ _ _ Hst), Himg.
  reflexivity.
Qed.

(** A guarded shape method: it does nothing on a null surface or on the
    requested shape, and otherwise leaves a buffer of the requested
    shape. *)
Lemma shape_method_spec (f : Private -> Private) this σ st w h d :
  σ !! m this = Some st ->
  (forall n img, image st = Some img ->
     state_shape (f (set_refCount n st)) = Some (w, h, d)) ->
  let guard := isNull this σ
    || ((w =? width this σ) && (h =? height this σ) && (d =? depth this σ)) in
  let r := if guard then (this, σ) else mutating f this σ in
  (image st = None -> r = (this, σ))
  /\ (forall img, image st = Some img -> fi_shape img = (w, h, d) -> r = (this, σ))
  /\ (forall img, image st = Some img ->
        exists st', r.2 !! m r.1 = Some st' /\ state_shape st' = Some (w, h, d)).
Proof.
  intros Hst Hf guard r. subst r guard. split; [| split].
  - intros Hnull. rewrite (shape_guard_null _ _ _ w h d Hst Hnull). reflexivity.
  - intros img Himg Hs. rewrite (shape_guard_true _ _ _ _ w h d Hst Himg Hs).
    reflexivity.
  - intros img Himg.
    destruct (decide (fi_shape img = (w, h, d))) as [Hs | Hs].
    + rewrite (shape_guard_true _ _ _ _ w h d Hst Himg Hs). simpl.
      exists st. split; [exact Hst |]. unfold state_shape. rewrite Himg. simpl.
      f_equal. exact Hs.
    + rewrite (shape_guard_false _ _ _ _ w h d Hst Himg Hs).
      destruct (lookup_mutating f this σ st Hst) as [n Hn].
      eexists. split; [exact Hn |]. eapply Hf. exact Himg.
Qed.

Lemma state_shape_guard this σ st w h d :
  σ !! m this = Some st -> state_shape st = Some (w, h, d) ->
  isNull this σ
  || ((w =? width this σ) && (h =? height this σ) && (d =? depth this σ)) = true.
Proof.
  intros Hst Hs. unfold state_shape in Hs.
  destruct (image st) as [img |] eqn:Himg; [| discriminate].
  simpl in Hs. assert (Hs' : fi_shape img = (w, h, d)) by congruence.
  exact (shape_guard_true _ _ _ _ w h d Hst Himg Hs').
Qed.

(** X11. [resize] and [canvasSize] return the handle and the store
    untouched (no clone, even of a shared state) when the surface is null
    or already has the requested shape.  Otherwise the surface has the
    requested shape afterwards, so that repeating the call - for [resize]
    with any filter - is such a no-op. *)
Theorem shape_requests_idempotent `{Collaborators}
    (this : Surface) (σ : heap) (st : Private) (w h d : Z)
    (filter filter' : ResizeFilter) (filterWidth filterWidth' : Q)
    (params params' : option (Q * Q)) :
  σ !! m this = Some st ->
  let r := resize w h d filter filterWidth params this σ in
  let c := canvasSize w h d this σ in
  (image st = None -> r = (this, σ) /\ c = (this, σ))
  /\ (forall img, image st = Some img -> fi_shape img = (w, h, d) ->
        r = (this, σ) /\ c = (this, σ))
  /\ (forall img, image st = Some img ->
        (width r.1 r.2, height r.1 r.2, depth r.1 r.2) = (w, h, d)
        /\ resize w h d filter' filterWidth' params' r.1 r.2 = r
        /\ (width c.1 c.2, height c.1 c.2, depth c.1 c.2) = (w, h, d)
        /\ canvasSize w h d c.1 c.2 = c).
Proof.
  intros Hst r c.
  destruct (shape_method_spec (resize_body w h d filter filterWidth params)
              this σ st w h d Hst) as (Rn & Rs & Rd).
  { intros n img Himg. apply resize_body_spec. simpl. rewrite Himg. discriminate. }
  destruct (shape_method_spec (canvasSize_body w h d) this σ st w h d Hst)
    as (Cn & Cs & Cd).
  { intros n img Himg. unfold state_shape, canvasSize_body. simpl. rewrite Himg.
    simpl. rewrite canvasSize_copy_shape. reflexivity. }
  fold (resize w h d filter filterWidth params this σ) in Rn, Rs, Rd.
  fold (canvasSize w h d this σ) in Cn, Cs, Cd. fold r in Rn, Rs, Rd.
  fold c in Cn, Cs, Cd.
  split; [intros Hn; split; [apply Rn | apply Cn]; exact Hn |].
  split; [intros img Hi Hs; split; [eapply Rs | eapply Cs]; eassumption |].
  intros img Himg.
  destruct (Rd img Himg) as (st1 & Hst1 & Hs1).
  destruct (Cd img Himg) as (st2 & Hst2 & Hs2).
  assert (Hacc : forall s τ st', τ !! m s = Some st' ->
            state_shape st' = Some (w, h, d) ->
            (width s τ, height s τ, depth s τ) = (w, h, d)).
  { intros s τ st' Hl Hs. unfold width, height, depth, state_shape in *.
    rewrite (deref_lookup _ _ _ Hl).
    destruct (image st') as [i' |]; [| discriminate].
    simpl in Hs. unfold fi_shape in Hs. congruence. }
  split; [exact (Hacc _ _ _ Hst1 Hs1) |].
  split.
  { unfold resize at 1. rewrite (state_shape_guard _ _ _ w h d Hst1 Hs1).
    destruct r. reflexivity. }
  split; [exact (Hacc _ _ _ Hst2 Hs2) |].
  unfold canvasSize at 1. rewrite (state_shape_guard _ _ _ w h d Hst2 Hs2).
  destruct c. reflexivity.
Qed.

Lemma shape_requests_idempotent_witness :
  resize (H := model_collaborators) 1 1 2 ResizeFilter_Kaiser 3 None
    sample_resized.1 sample_resized.2 = sample_resized.
Proof.
  destruct sample_2d_live as (Hst & Himg & _).
  destruct (shape_requests_idempotent (H := model_collaborators)
              sample_2d.1.2 sample_2d.2 _ 1 1 2 ResizeFilter_Box ResizeFilter_Kaiser
              (1 # 2) 3 None None Hst) as (_ & _ & Hrep).
  destruct (Hrep _ Himg) as (_ & Hr & _). exact Hr.
Defined.

(** ** Loops over one plane *)

Lemma plane_loop_spec (c : nat) (k : Q -> Q) img n :
  fi_wf img -> (c < 4)%nat -> (n <= pixelCount img)%nat ->
  let out := for_loop n (fun i x => chan_set x c i (k (chan_get x c i))) img in
  fi_wf out /\ fi_shape out = fi_shape img
  /\ forall c' j, chan_get out c' j
       = if decide (c = c' /\ (j < n)%nat) then k (chan_get img c j)
         else chan_get img c' j.
Proof.
  intros Hwf Hc. induction n as [| n IH]; intros Hn out; subst out.
  - split; [exact Hwf |]. split; [reflexivity |]. intros c' j.
    rewrite decide_False by lia. reflexivity.
  - rewrite for_loop_S. destruct (IH ltac:(lia)) as (Hw & Hs & Hr).
    set (x := for_loop n _ img) in *.
    split; [apply chan_set_wf, Hw |]. split; [exact Hs |].
    intros c' j.
    destruct (decide (c = c' /\ j = n)) as [[<- ->] | Hne].
    + rewrite chan_get_set_eq; [| exact Hw | exact Hc |].
      * rewrite Hr. rewrite decide_False by lia. rewrite decide_True by lia.
        reflexivity.
      * rewrite (pixelCount_shape _ _ Hs). lia.
    + rewrite chan_get_set_ne.
      * rewrite Hr. destruct (decide (c = c' /\ (j < n)%nat)) as [[? ?] | ?];
          destruct (decide (c = c' /\ (j < S n)%nat)) as [[? ?] | ?];
          try reflexivity; exfalso; intuition lia.
      * destruct (decide (c = c')); [right | left]; intuition congruence.
Qed.

Lemma map_rgb_planes_spec (k : Q -> Q) img :
  fi_wf img ->
  fi_wf (map_rgb_planes k img) /\ fi_shape (map_rgb_planes k img) = fi_shape img
  /\ forall c i, (i < pixelCount img)%nat ->
       chan_get (map_rgb_planes k img) c i
       = if decide (c < 3)%nat then k (chan_get img c i) else chan_get img c i.
Proof.
  intros Hwf. unfold map_rgb_planes.
  change (for_loop 3 ?b img) with (b 2%nat (b 1%nat (b 0%nat img))).
  destruct (plane_loop_spec 0 k img (pixelCount img) Hwf ltac:(lia) ltac:(lia))
    as (W0 & S0 & R0).
  set (i0 := for_loop (pixelCount img) _ img) in *.
  pose proof (pixelCount_shape _ _ S0) as C0.
  destruct (plane_loop_spec 1 k i0 (pixelCount img) W0 ltac:(lia) ltac:(lia))
    as (W1 & S1 & R1).
  set (i1 := for_loop (pixelCount img) _ i0) in *.
  pose proof (pixelCount_shape _ _ S1) as C1.
  destruct (plane_loop_spec 2 k i1 (pixelCount img) W1 ltac:(lia) ltac:(lia))
    as (W2 & S2 & R2).
  split; [exact W2 |]. split; [congruence |].
  intros c i Hi. rewrite R2.
  destruct (decide (2%nat = c /\ (i < pixelCount img)%nat)) as [[<- _] | H2].
  - rewrite R1, decide_False by lia. rewrite R0, decide_False by lia.
    rewrite decide_True by lia. reflexivity.
  - rewrite R1.
    destruct (decide (1%nat = c /\ (i < pixelCount img)%nat)) as [[<- _] | H1].
    + rewrite R0, decide_False by lia. rewrite decide_True by lia. reflexivity.
    + rewrite R0.
      destruct (decide (0%nat = c /\ (i < pixelCount img)%nat)) as [[<- _] | H0].
      * rewrite decide_True by lia. reflexivity.
      * rewrite decide_False by lia. reflexivity.
Qed.

(** Two per-image methods in a row, on a live, non-null handle. *)
Lemma image_methods_compose (F G : FloatImage -> FloatImage) this σ st img :
  σ !! m this = Some st -> image st = Some img ->
  let r1 := if isNull this σ then (this, σ) else mutating (on_image F) this σ in
  let r2 := if isNull r1.1 r1.2 then (r1.1, r1.2)
            else mutating (on_image G) r1.1 r1.2 in
  observe r1.1 r1.2 = Some (F img) /\ observe r2.1 r2.2 = Some (G (F img)).
Proof.
  intros Hst Himg r1 r2.
  destruct (image_method_spec F this σ st img Hst Himg) as (st1 & Hst1 & Himg1).
  fold r1 in Hst1.
  destruct (image_method_spec G r1.1 r1.2 st1 _ Hst1 Himg1) as (st2 & Hst2 & Himg2).
  fold r2 in Hst2.
  split.
  - rewrite (observe_lookup _ _ _ Hst1). exact Himg1.
  - rewrite (observe_lookup _ _ _ Hst2). exact Himg2.
Qed.

(** Two per-pixel methods in a row: what pixel [i] shows after each. *)
Lemma pixel_methods_compose (k1 k2 : Color -> Color) this σ st img i :
  σ !! m this = Some st -> image st = Some img -> fi_wf img ->
  (i < pixelCount img)%nat ->
  let r1 := if isNull this σ then (this, σ)
            else mutating (on_image (map_pixels k1)) this σ in
  let r2 := if isNull r1.1 r1.2 then (r1.1, r1.2)
            else mutating (on_image (map_pixels k2)) r1.1 r1.2 in
  observe_color r1.1 r1.2 i = Some (k1 (read_color img i))
  /\ observe_color r2.1 r2.2 i = Some (k2 (k1 (read_color img i))).
Proof.
  intros Hst Himg Hwf Hi r1 r2.
  destruct (image_methods_compose (map_pixels k1) (map_pixels k2) this σ st img
              Hst Himg) as [H1 H2].
  fold r1 in H1, H2. fold r2 in H2.
  destruct (map_pixels_spec k1 img Hwf) as (Hwf1 & Hs1 & Hread1).
  destruct (map_pixels_spec k2 _ Hwf1) as (_ & _ & Hread2).
  unfold observe_color. rewrite H1, H2. simpl.
  rewrite Hread2 by (rewrite (pixelCount_shape _ _ Hs1); exact Hi).
  rewrite Hread1 by exact Hi. split; reflexivity.
Qed.

Local Open Scope Q_scope.

(** ** YCoCg *)

(** X12. [toYCoCg] stores (Co, Cg, 1, Y) with Co = R - B,
    Cg = (2G - R - B)/2 and Y = (2G + R + B)/4; [fromYCoCg] applied to the
    result restores R, G and B exactly and sets alpha to 1. *)
Theorem YCoCg_round_trip
    (this : Surface) (σ : heap) (st : Private) (img : FloatImage)
    (i : nat) (r g b a : Q) :
  σ !! m this = Some st -> image st = Some img -> fi_wf img ->
  (i < pixelCount img)%nat -> read_color img i = (r, g, b, a) ->
  let enc := toYCoCg this σ in
  let dec := fromYCoCg enc.1 enc.2 in
  observe_color enc.1 enc.2 i
  = Some (r - b, (2 * g - r - b) * (1 # 2), 1, (2 * g + r + b) * (1 # 4))
  /\ exists cd, observe_color dec.1 dec.2 i = Some cd /\ color_eq cd (r, g, b, 1).
Proof.
  intros Hst Himg Hwf Hi Hc enc dec.
  destruct (pixel_methods_compose toYCoCg_pixel fromYCoCg_pixel this σ st img i
              Hst Himg Hwf Hi) as [H1 H2].
  fold (toYCoCg this σ) in H1, H2. fold enc in H1, H2.
  fold (fromYCoCg enc.1 enc.2) in H2. fold dec in H2.
  rewrite Hc in H1, H2. split; [exact H1 |].
  eexists. split; [exact H2 |].
  unfold color_eq. simpl. repeat split; try reflexivity; ring.
Qed.

Lemma YCoCg_round_trip_witness :
  exists cd,
    observe_color (fromYCoCg (toYCoCg sample_2d.1.2 sample_2d.2).1
                             (toYCoCg sample_2d.1.2 sample_2d.2).2).1
                  (fromYCoCg (toYCoCg sample_2d.1.2 sample_2d.2).1
                             (toYCoCg sample_2d.1.2 sample_2d.2).2).2 0 = Some cd
    /\ color_eq cd (1 # 4, 1 # 4, 1 # 4, 1).
Proof.
  destruct sample_2d_live as (Hst & Himg & Hwf).
  apply (YCoCg_round_trip sample_2d.1.2 sample_2d.2 _ sample_image 0
           (1 # 4) (1 # 4) (1 # 4) (1 # 4) Hst Himg Hwf).
  - unfold pixelCount. simpl. lia.
  - reflexivity.
Defined.

(** ** Grey scale *)

Lemma toGreyScale_pixel_grey rs gs bs als v :
  rs + gs + bs + als == 1 ->
  color_eq (toGreyScale_pixel rs gs bs als (v, v, v, v)) (v, v, v, v).
Proof.
  intros Hsum. unfold color_eq. simpl.
  assert (E : v * rs + v * gs + v * bs + v * als == v).
  { transitivity (v * (rs + gs + bs + als)); [ring | rewrite Hsum; ring]. }
  repeat split; exact E.
Qed.

(** X13. [toGreyScale] writes one and the same value to all four
    channels of a pixel.  In exact arithmetic, with weights whose sum is
    not zero, that value is the weighted mean of the four channels, and a
    second [toGreyScale], with any such weights, leaves it in place.  (In
    binary32 the divided weights need not sum to exactly 1, and the second
    call can move the value in the last place.) *)
Theorem toGreyScale_idempotent
    (this : Surface) (σ : heap) (st : Private) (img : FloatImage) (i : nat)
    (r g b a rs gs bs als rs' gs' bs' als' : Q) :
  σ !! m this = Some st -> image st = Some img -> fi_wf img ->
  (i < pixelCount img)%nat -> read_color img i = (r, g, b, a) ->
  ~ rs + gs + bs + als == 0 -> ~ rs' + gs' + bs' + als' == 0 ->
  let grey := (r * rs + g * gs + b * bs + a * als) / (rs + gs + bs + als) in
  let once := toGreyScale rs gs bs als this σ in
  let twice := toGreyScale rs' gs' bs' als' once.1 once.2 in
  exists c1 c2,
    observe_color once.1 once.2 i = Some c1 /\ color_eq c1 (grey, grey, grey, grey)
    /\ c1.1.1.1 = c1.1.1.2 /\ c1.1.1.2 = c1.1.2 /\ c1.1.2 = c1.2
    /\ observe_color twice.1 twice.2 i = Some c2
    /\ color_eq c2 (grey, grey, grey, grey).
Proof.
  intros Hst Himg Hwf Hi Hc Hsum Hsum' grey once twice.
  set (s := rs + gs + bs + als) in *. set (s' := rs' + gs' + bs' + als') in *.
  destruct (pixel_methods_compose
              (toGreyScale_pixel (rs / s) (gs / s) (bs / s) (als / s))
              (toGreyScale_pixel (rs' / s') (gs' / s') (bs' / s') (als' / s'))
              this σ st img i Hst Himg Hwf Hi) as [H1 H2].
  fold (toGreyScale_image rs gs bs als) in H1, H2.
  fold (toGreyScale rs gs bs als this σ) in H1, H2. fold once in H1, H2.
  fold (toGreyScale_image rs' gs' bs' als') in H2.
  fold (toGreyScale rs' gs' bs' als' once.1 once.2) in H2. fold twice in H2.
  rewrite Hc in H1, H2.
  assert (Eg : r * (rs / s) + g * (gs / s) + b * (bs / s) + a * (als / s) == grey).
  { subst grey. field. exact Hsum. }
  assert (E1 : rs' / s' + gs' / s' + bs' / s' + als' / s' == 1).
  { subst s'. field. exact Hsum'. }
  eexists. eexists. split; [exact H1 |].
  split; [unfold color_eq; simpl; repeat split; exact Eg |].
  split; [reflexivity |]. split; [reflexivity |]. split; [reflexivity |].
  split; [exact H2 |].
  eapply color_eq_trans; [apply toGreyScale_pixel_grey; exact E1 |].
  unfold color_eq. simpl. repeat split; exact Eg.
Qed.

Lemma toGreyScale_idempotent_witness :
  exists c1,
    observe_color (toGreyScale 2 7 1 0 sample_2d.1.2 sample_2d.2).1
                  (toGreyScale 2 7 1 0 sample_2d.1.2 sample_2d.2).2 0 = Some c1
    /\ c1.1.1.1 = c1.1.1.2.
Proof.
  destruct sample_2d_live as (Hst & Himg & Hwf).
  destruct (toGreyScale_idempotent sample_2d.1.2 sample_2d.2 _ sample_image 0
              (1 # 4) (1 # 4) (1 # 4) (1 # 4) 2 7 1 0 1 1 1 1 Hst Himg Hwf)
    as (c1 & c2 & H1 & _ & E & _).
  - unfold pixelCount. simpl. lia.
  - reflexivity.
  - vm_compute. discriminate.
  - vm_compute. discriminate.
  - exists c1. split; [exact H1 | exact E].
Defined.

(** ** sRGB *)

(** Two plane-wise methods in a row: what the channels show after each. *)
Lemma plane_methods_compose (k1 k2 : Q -> Q) this σ st img :
  σ !! m this = Some st -> image st = Some img -> fi_wf img ->
  let r1 := if isNull this σ then (this, σ)
            else mutating (on_image (map_rgb_planes k1)) this σ in
  let r2 := if isNull r1.1 r1.2 then (r1.1, r1.2)
            else mutating (on_image (map_rgb_planes k2)) r1.1 r1.2 in
  exists img1 img2,
    observe r1.1 r1.2 = Some img1 /\ observe r2.1 r2.2 = Some img2
    /\ fi_shape img1 = fi_shape img /\ fi_shape img2 = fi_shape img
    /\ forall c i, (i < pixelCount img)%nat ->
         chan_get img1 c i
         = (if decide (c < 3)%nat then k1 (chan_get img c i) else chan_get img c i)
         /\ chan_get img2 c i
            = (if decide (c < 3)%nat then k2 (k1 (chan_get img c i))
               else chan_get img c i).
Proof.
  intros Hst Himg Hwf r1 r2.
  destruct (image_methods_compose (map_rgb_planes k1) (map_rgb_planes k2)
              this σ st img Hst Himg) as [H1 H2].
  fold r1 in H1, H2. fold r2 in H2.
  destruct (map_rgb_planes_spec k1 img Hwf) as (Hwf1 & Hs1 & Hg1).
  destruct (map_rgb_planes_spec k2 _ Hwf1) as (_ & Hs2 & Hg2).
  exists (map_rgb_planes k1 img), (map_rgb_planes k2 (map_rgb_planes k1 img)).
  split; [exact H1 |]. split; [exact H2 |]. split; [exact Hs1 |].
  split; [congruence |].
  intros c i Hi. split; [apply Hg1; exact Hi |].
  rewrite Hg2 by (rewrite (pixelCount_shape _ _ Hs1); exact Hi).
  rewrite Hg1 by exact Hi. destruct (decide (c < 3)%nat); reflexivity.
Qed.

Lemma toSrgb_value_linear `{Libm} (v : Q) :
  0 <= v <= 31308 # 10000000 ->
  toSrgb_value v == (1292 # 100) * v
  /\ fromSrgb_value (toSrgb_value v) == v.
Proof.
  intros [Hlo Hhi].
  assert (E : toSrgb_value v == (1292 # 100) * v).
  { unfold toSrgb_value.
    destruct (Qle_bool v 0) eqn:E0.
    - apply Qle_bool_iff in E0. assert (v == 0) by lra. lra.
    - destruct (Qle_bool v (31308 # 10000000)) eqn:E1; [reflexivity |].
      apply Qle_bool_iff in Hhi. congruence. }
  split; [exact E |].
  unfold fromSrgb_value.
  destruct (Qlt_le_dec (toSrgb_value v) 0) as [Hn | _]; [lra |].
  destruct (Qlt_le_dec (toSrgb_value v) (4045 # 100000)) as [_ | Hge]; [| lra].
  rewrite E. field.
Qed.

Lemma toSrgb_value_clamps `{Libm} (v : Q) :
  (v <= 0 -> toSrgb_value v = 0 /\ fromSrgb_value (toSrgb_value v) == 0)
  /\ (1 < v -> toSrgb_value v = 1).
Proof.
  split.
  - intros Hv. assert (E : toSrgb_value v = 0).
    { unfold toSrgb_value. apply Qle_bool_iff in Hv. rewrite Hv. reflexivity. }
    split; [exact E |]. rewrite E. reflexivity.
  - intros Hv. unfold toSrgb_value.
    destruct (Qle_bool v 0) eqn:E0; [apply Qle_bool_iff in E0; lra |].
    destruct (Qle_bool v (31308 # 10000000)) eqn:E1;
      [apply Qle_bool_iff in E1; lra |].
    destruct (Qle_bool v 1) eqn:E2; [apply Qle_bool_iff in E2; lra |].
    reflexivity.
Qed.

(** X14. [toSrgb] and [toLinearFromSrgb] rewrite the red, green and blue
    planes and touch neither the alpha plane nor the extents.  [toSrgb]
    stores 0 for a value that is not positive, which [toLinearFromSrgb]
    leaves at 0, and 1 for a value above 1.  In exact arithmetic, on the
    linear segment 0 <= v <= 0.0031308, [toSrgb] stores 12.92 v and
    [toLinearFromSrgb] applied afterwards gives back v.  (In binary32 the
    product and the quotient are rounded, and the value that comes back
    can differ from v in the last place.) *)
Theorem srgb_linear_round_trip `{Libm}
    (this : Surface) (σ : heap) (st : Private) (img : FloatImage)
    (c i : nat) :
  σ !! m this = Some st -> image st = Some img -> fi_wf img ->
  (i < pixelCount img)%nat -> (c < 3)%nat ->
  let v := chan_get img c i in
  let enc := toSrgb this σ in
  let dec := toLinearFromSrgb enc.1 enc.2 in
  exists img1 img2,
    observe enc.1 enc.2 = Some img1 /\ observe dec.1 dec.2 = Some img2
    /\ fi_shape img1 = fi_shape img /\ fi_shape img2 = fi_shape img
    /\ chan_get img1 3 i = chan_get img 3 i
    /\ chan_get img2 3 i = chan_get img 3 i
    /\ (v <= 0 -> chan_get img1 c i = 0 /\ chan_get img2 c i == 0)
    /\ (1 < v -> chan_get img1 c i = 1)
    /\ (0 <= v <= 31308 # 10000000 ->
        chan_get img1 c i == (1292 # 100) * v /\ chan_get img2 c i == v).
Proof.
  intros Hst Himg Hwf Hi Hc v enc dec.
  destruct (plane_methods_compose toSrgb_value fromSrgb_value this σ st img
              Hst Himg Hwf) as (img1 & img2 & H1 & H2 & Hs1 & Hs2 & Hg).
  fold (toSrgb_image) in H1, H2. fold (toLinearFromSrgb_image) in H2.
  exists img1, img2.
  split; [exact H1 |]. split; [exact H2 |].
  split; [exact Hs1 |]. split; [exact Hs2 |].
  destruct (Hg c i Hi) as [G1 G2]. destruct (Hg 3%nat i Hi) as [A1 A2].
  destruct (decide (c < 3)%nat) as [_ | Hn]; [| lia].
  destruct (decide (3 < 3)%nat) as [Hn | _]; [lia |].
  fold v in G1, G2.
  split; [exact A1 |]. split; [exact A2 |].
  destruct (toSrgb_value_clamps v) as [Hlow Hhigh].
  rewrite G1, G2.
  split; [exact Hlow |]. split; [exact Hhigh |].
  apply toSrgb_value_linear.
Qed.

Lemma sample_dark_live :
  sample_dark.2 !! m sample_dark.1 = Some (deref sample_dark.1 sample_dark.2)
  /\ image (deref sample_dark.1 sample_dark.2) = Some sample_dark_image
  /\ fi_wf sample_dark_image.
Proof.
  split; [vm_compute; reflexivity |]. split; [vm_compute; reflexivity |].
  split; [reflexivity | repeat constructor].
Qed.

Lemma srgb_linear_round_trip_witness :
  exists img1 img2,
    observe (toSrgb (H := model_libm) sample_dark.1 sample_dark.2).1
            (toSrgb (H := model_libm) sample_dark.1 sample_dark.2).2 = Some img1
    /\ observe
         (toLinearFromSrgb (H := model_libm)
            (toSrgb (H := model_libm) sample_dark.1 sample_dark.2).1
            (toSrgb (H := model_libm) sample_dark.1 sample_dark.2).2).1
         (toLinearFromSrgb (H := model_libm)
            (toSrgb (H := model_libm) sample_dark.1 sample_dark.2).1
            (toSrgb (H := model_libm) sample_dark.1 sample_dark.2).2).2 = Some img2
    /\ chan_get img2 3 0 = 1
    /\ chan_get img2 0 0 == 1 # 1000.
Proof.
  destruct sample_dark_live as (Hst & Himg & Hwf).
  destruct (srgb_linear_round_trip (H := model_libm) sample_dark.1 sample_dark.2 _
              sample_dark_image 0 0 Hst Himg Hwf)
    as (img1 & img2 & H1 & H2 & _ & _ & _ & Ha & _ & _ & Hlin).
  - unfold pixelCount. simpl. lia.
  - lia.
  - exists img1, img2. split; [exact H1 |]. split; [exact H2 |].
    split; [exact Ha |]. apply Hlin. vm_compute. split; discriminate.
Defined.

(** What a handle shows after one image method. *)
Lemma image_method_observe (F : FloatImage -> FloatImage) this σ st img :
  σ !! m this = Some st -> image st = Some img ->
  let r := if isNull this σ then (this, σ) else mutating (on_image F) this σ in
  observe r.1 r.2 = Some (F img).
Proof.
  intros Hst Himg r.
  destruct (image_method_spec F this σ st img Hst Himg) as (st' & Hst' & Himg').
  fold r in Hst'. rewrite (observe_lookup _ _ _ Hst'). exact Himg'.
Qed.

(** ** The Xenon sRGB curve *)

Lemma toXenonSrgb_value_range (v : Q) :
  0 <= toXenonSrgb_value v <= 1.
Proof.
  unfold toXenonSrgb_value.
  change (1 / 16) with (1 # 16). change (1 / 8) with (1 # 8).
  repeat (destruct (Qlt_le_dec _ _)); split; lra.
Qed.

Lemma toXenonSrgb_value_mono (u v : Q) :
  u <= v -> toXenonSrgb_value u <= toXenonSrgb_value v.
Proof.
  intros Huv. unfold toXenonSrgb_value.
  change (1 / 16) with (1 # 16). change (1 / 8) with (1 # 8).
  repeat (destruct (Qlt_le_dec _ _)); lra.
Qed.

(** X15. [toXenonSrgb] maps every red, green and blue value into [0, 1]
    and keeps their order: a value that was not larger than another is not
    larger afterwards.  The alpha plane and the extents are left alone. *)
Theorem toXenonSrgb_monotone
    (this : Surface) (σ : heap) (st : Private) (img : FloatImage)
    (c c' i j : nat) :
  σ !! m this = Some st -> image st = Some img -> fi_wf img ->
  (i < pixelCount img)%nat -> (j < pixelCount img)%nat ->
  (c < 3)%nat -> (c' < 3)%nat ->
  let r := toXenonSrgb this σ in
  exists img1,
    observe r.1 r.2 = Some img1 /\ fi_shape img1 = fi_shape img
    /\ 0 <= chan_get img1 c i <= 1
    /\ (chan_get img c i <= chan_get img c' j ->
        chan_get img1 c i <= chan_get img1 c' j)
    /\ chan_get img1 3 i = chan_get img 3 i.
Proof.
  intros Hst Himg Hwf Hi Hj Hc Hc' r.
  pose proof (image_method_observe (map_rgb_planes toXenonSrgb_value)
                this σ st img Hst Himg) as Ho.
  fold (toXenonSrgb this σ) in Ho. fold r in Ho.
  destruct (map_rgb_planes_spec toXenonSrgb_value img Hwf) as (_ & Hs & Hg).
  eexists. split; [exact Ho |]. split; [exact Hs |].
  rewrite (Hg c i Hi), (Hg c' j Hj), (Hg 3%nat i Hi).
  rewrite !decide_True by lia. rewrite decide_False by lia.
  split; [apply toXenonSrgb_value_range |].
  split; [apply toXenonSrgb_value_mono | reflexivity].
Qed.

Lemma toXenonSrgb_monotone_witness :
  exists img1,
    observe (toXenonSrgb sample_2d.1.2 sample_2d.2).1
            (toXenonSrgb sample_2d.1.2 sample_2d.2).2 = Some img1
    /\ 0 <= chan_get img1 0 0 <= 1.
Proof.
  destruct sample_2d_live as (Hst & Himg & Hwf).
  destruct (toXenonSrgb_monotone sample_2d.1.2 sample_2d.2 _ sample_image
              0 1 0 0 Hst Himg Hwf)
    as (img1 & H1 & _ & Hr & _).
  - unfold pixelCount. simpl. lia.
  - unfold pixelCount. simpl. lia.
  - lia.
  - lia.
  - exists img1. split; [exact H1 | exact Hr].
Defined.

(** ** Fill, premultiplied alpha, absolute value *)

(** X16. [fill] makes every pixel the given colour, whatever the image
    held before, and keeps the extents. *)
Theorem fill_overwrites
    (this : Surface) (σ : heap) (st : Private) (img : FloatImage)
    (red green blue alpha : Q) (i : nat) :
  σ !! m this = Some st -> image st = Some img -> fi_wf img ->
  (i < pixelCount img)%nat ->
  let r := fill red green blue alpha this σ in
  exists img1,
    observe r.1 r.2 = Some img1 /\ fi_shape img1 = fi_shape img
    /\ read_color img1 i = (red, green, blue, alpha).
Proof.
  intros Hst Himg Hwf Hi r.
  pose proof (image_method_observe (map_pixels (fun _ => (red, green, blue, alpha)))
                this σ st img Hst Himg) as Ho.
  fold (fill red green blue alpha this σ) in Ho. fold r in Ho.
  destruct (map_pixels_spec (fun _ => (red, green, blue, alpha)) img Hwf)
    as (_ & Hs & Hr).
  eexists. split; [exact Ho |]. split; [exact Hs |]. apply Hr. exact Hi.
Qed.

Lemma fill_overwrites_witness :
  exists img1,
    observe sample_dark.1 sample_dark.2 = Some img1
    /\ read_color img1 0 = (1 # 1000, 1 # 1000, 1 # 1000, 1).
Proof.
  destruct sample_2d_live as (Hst & Himg & Hwf).
  destruct (fill_overwrites sample_2d.1.2 sample_2d.2 _ sample_image
              (1 # 1000) (1 # 1000) (1 # 1000) 1 0 Hst Himg Hwf)
    as (img1 & H1 & _ & Hr).
  - unfold pixelCount. simpl. lia.
  - exists img1. split; [exact H1 | exact Hr].
Defined.

(** X17. [premultiplyAlpha] multiplies red, green and blue by the pixel's
    alpha and keeps the alpha; a pixel whose alpha is 1 keeps its colour,
    and a pixel whose alpha is 0 becomes black.  A second call multiplies
    again: the method is not idempotent. *)
Theorem premultiplyAlpha_spec
    (this : Surface) (σ : heap) (st : Private) (img : FloatImage)
    (i : nat) (r g b a : Q) :
  σ !! m this = Some st -> image st = Some img -> fi_wf img ->
  (i < pixelCount img)%nat -> read_color img i = (r, g, b, a) ->
  let once := premultiplyAlpha this σ in
  let twice := premultiplyAlpha once.1 once.2 in
  observe_color once.1 once.2 i = Some (r * a, g * a, b * a, a)
  /\ observe_color twice.1 twice.2 i = Some (r * a * a, g * a * a, b * a * a, a)
  /\ (a == 1 -> color_eq (r * a, g * a, b * a, a) (r, g, b, a))
  /\ (a == 0 -> color_eq (r * a, g * a, b * a, a) (0, 0, 0, 0)).
Proof.
  intros Hst Himg Hwf Hi Hc once twice.
  destruct (pixel_methods_compose premultiplyAlpha_pixel premultiplyAlpha_pixel
              this σ st img i Hst Himg Hwf Hi) as [H1 H2].
  fold (premultiplyAlpha this σ) in H1, H2. fold once in H1, H2.
  fold (premultiplyAlpha once.1 once.2) in H2. fold twice in H2.
  rewrite Hc in H1, H2.
  split; [exact H1 |]. split; [exact H2 |].
  split; intros Ha; unfold color_eq; simpl; rewrite Ha; repeat split; ring.
Qed.

Lemma premultiplyAlpha_spec_witness :
  observe_color (premultiplyAlpha sample_2d.1.2 sample_2d.2).1
                (premultiplyAlpha sample_2d.1.2 sample_2d.2).2 0
  = Some ((1 # 4) * (1 # 4), (1 # 4) * (1 # 4), (1 # 4) * (1 # 4), 1 # 4).
Proof.
  destruct sample_2d_live as (Hst & Himg & Hwf).
  apply (premultiplyAlpha_spec sample_2d.1.2 sample_2d.2 _ sample_image 0
           (1 # 4) (1 # 4) (1 # 4) (1 # 4) Hst Himg Hwf).
  - unfold pixelCount. simpl. lia.
  - reflexivity.
Defined.

Lemma abs_image_spec (channel : nat) img :
  fi_wf img -> (channel < 4)%nat ->
  fi_wf (abs_image channel img) /\ fi_shape (abs_image channel img) = fi_shape img
  /\ forall c i, (i < pixelCount img)%nat ->
       chan_get (abs_image channel img) c i
       = if decide (c = channel) then Qabs (chan_get img c i) else chan_get img c i.
Proof.
  intros Hwf Hc.
  destruct (plane_loop_spec channel Qabs img (pixelCount img) Hwf Hc ltac:(lia))
    as (Hw & Hs & Hg).
  split; [exact Hw |]. split; [exact Hs |].
  intros c i Hi. unfold abs_image. rewrite Hg.
  destruct (decide (c = channel)) as [-> | Hne].
  - rewrite decide_True by (split; [reflexivity | exact Hi]). reflexivity.
  - rewrite decide_False by (intros [E _]; congruence). reflexivity.
Qed.

(** X18. [abs] replaces each value of the chosen channel by its absolute
    value and leaves the other channels and the extents alone; a second
    [abs] of the same channel changes nothing. *)
Theorem abs_idempotent
    (this : Surface) (σ : heap) (st : Private) (img : FloatImage)
    (channel c i : nat) :
  σ !! m this = Some st -> image st = Some img -> fi_wf img ->
  (channel < 4)%nat -> (i < pixelCount img)%nat ->
  let once := Surface_abs channel this σ in
  let twice := Surface_abs channel once.1 once.2 in
  exists img1 img2,
    observe once.1 once.2 = Some img1 /\ observe twice.1 twice.2 = Some img2
    /\ fi_shape img1 = fi_shape img
    /\ chan_get img1 channel i = Qabs (chan_get img channel i)
    /\ 0 <= chan_get img1 channel i
    /\ (c <> channel -> chan_get img1 c i = chan_get img c i)
    /\ chan_get img2 c i == chan_get img1 c i.
Proof.
  intros Hst Himg Hwf Hch Hi once twice.
  destruct (image_methods_compose (abs_image channel) (abs_image channel)
              this σ st img Hst Himg) as [H1 H2].
  fold (Surface_abs channel this σ) in H1, H2. fold once in H1, H2.
  fold (Surface_abs channel once.1 once.2) in H2. fold twice in H2.
  destruct (abs_image_spec channel img Hwf Hch) as (Hwf1 & Hs1 & Hg1).
  destruct (abs_image_spec channel _ Hwf1 Hch) as (_ & _ & Hg2).
  assert (Hi1 : (i < pixelCount (abs_image channel img))%nat)
    by (rewrite (pixelCount_shape _ _ Hs1); exact Hi).
  eexists. eexists. split; [exact H1 |]. split; [exact H2 |].
  split; [exact Hs1 |].
  split; [rewrite (Hg1 channel i Hi), decide_True by reflexivity; reflexivity |].
  split; [rewrite (Hg1 channel i Hi), decide_True by reflexivity; apply Qabs_nonneg |].
  split; [intros Hne; rewrite (Hg1 c i Hi), decide_False by exact Hne; reflexivity |].
  rewrite (Hg2 c i Hi1).
  destruct (decide (c = channel)) as [-> | Hne]; [| reflexivity].
  rewrite (Hg1 channel i Hi), decide_True by reflexivity.
  apply Qabs_pos. apply Qabs_nonneg.
Qed.

Lemma abs_idempotent_witness :
  exists img1,
    observe (Surface_abs 0 sample_2d.1.2 sample_2d.2).1
            (Surface_abs 0 sample_2d.1.2 sample_2d.2).2 = Some img1
    /\ 0 <= chan_get img1 0 0.
Proof.
  destruct sample_2d_live as (Hst & Himg & Hwf).
  destruct (abs_idempotent sample_2d.1.2 sample_2d.2 _ sample_image 0 0 0
              Hst Himg Hwf) as (img1 & img2 & H1 & _ & _ & _ & Hp & _).
  - lia.
  - unfold pixelCount. simpl. lia.
  - exists img1. split; [exact H1 | exact Hp].
Defined.

(** ** Copy on write for the per-pixel methods *)

(** X19. The colour-space and per-pixel methods detach before they write:
    when two handles share one image and one of them is converted, filled
    or otherwise rewritten, the other handle still shows the image as it
    was. *)
Theorem pixel_methods_copy_on_write `{Libm}
    (hs : list Surface) (σ : heap) (i j : nat) (s1 s2 : Surface)
    (red green blue alpha : Q) (channel : nat) :
  store_wf hs σ -> i <> j -> hs !! i = Some s1 -> hs !! j = Some s2 ->
  m s1 = m s2 ->
  observe s2 (toSrgb s1 σ).2 = observe s2 σ
  /\ observe s2 (toLinearFromSrgb s1 σ).2 = observe s2 σ
  /\ observe s2 (toXenonSrgb s1 σ).2 = observe s2 σ
  /\ observe s2 (toYCoCg s1 σ).2 = observe s2 σ
  /\ observe s2 (fromYCoCg s1 σ).2 = observe s2 σ
  /\ observe s2 (fill red green blue alpha s1 σ).2 = observe s2 σ
  /\ observe s2 (premultiplyAlpha s1 σ).2 = observe s2 σ
  /\ observe s2 (toGreyScale red green blue alpha s1 σ).2 = observe s2 σ
  /\ observe s2 (Surface_abs channel s1 σ).2 = observe s2 σ.
Proof.
  intros Hwf Hij Hi Hj Hm.
  unfold toSrgb, toLinearFromSrgb, toXenonSrgb, toYCoCg, fromYCoCg, fill,
    premultiplyAlpha, toGreyScale, Surface_abs.
  repeat split; eapply guarded_mutating_shared; eassumption.
Qed.

Lemma pixel_methods_copy_on_write_witness :
  observe sample_copy.1 (fill 0 0 0 1 sample_2d.1.2 sample_copy.2).2
  = observe sample_copy.1 sample_copy.2.
Proof.
  destruct (pixel_methods_copy_on_write (H := model_libm)
              [sample_2d.1.2; sample_copy.1] sample_copy.2 0 1
              sample_2d.1.2 sample_copy.1 0 0 0 1 0)
    as (_ & _ & _ & _ & _ & Hfill & _).
  - apply (bool_decide_unpack _). vm_compute. exact I.
  - lia.
  - reflexivity.
  - reflexivity.
  - reflexivity.
  - exact Hfill.
Defined.

(** ** Histogram totals *)

Lemma bin_total_alter (f : Z -> Z) k bins x :
  bins !! k = Some x ->
  bin_total (alter f k bins) = (bin_total bins - x + f x)%Z.
Proof.
  revert k. unfold bin_total, alter.
  induction bins as [| b bins IH]; intros k Hk; [discriminate |].
  destruct k as [| k]; simpl in *.
  - injection Hk as ->. lia.
  - rewrite (IH k Hk). lia.
Qed.

Lemma bin_total_ge bins k x :
  Forall (fun b => (0 <= b)%Z) bins -> bins !! k = Some x ->
  (0 <= x <= bin_total bins)%Z.
Proof.
  intros Hnn. revert k. unfold bin_total.
  induction Hnn as [| b bins Hb Hnn IH]; intros k Hk; [discriminate |].
  assert (0 <= foldr Z.add 0 bins)%Z.
  { clear -Hnn. induction Hnn; simpl; lia. }
  destruct k as [| k]; simpl in *.
  - injection Hk as ->. lia.
  - specialize (IH k Hk). lia.
Qed.

Lemma histogram_loop_total c rangeMin rangeMax binCount bins n :
  (0 < binCount)%Z -> length bins = Z.to_nat binCount ->
  Forall (fun b => (0 <= b)%Z) bins ->
  (bin_total bins + Z.of_nat n < 2 ^ 31)%Z ->
  let out := histogram_loop c n rangeMin rangeMax binCount bins in
  length out = length bins /\ Forall (fun b => (0 <= b)%Z) out
  /\ bin_total out = (bin_total bins + Z.of_nat n)%Z.
Proof.
  intros Hb Hlen Hnn. induction n as [| n IH]; intros Hsum out.
  - subst out. unfold histogram_loop, for_loop. simpl.
    split; [reflexivity |]. split; [exact Hnn | lia].
  - destruct (IH ltac:(lia)) as (Hl & Hp & Ht).
    subst out. rewrite histogram_loop_step.
    set (prev := histogram_loop c n rangeMin rangeMax binCount bins) in *.
    set (idx := histogram_bin _ _ _ _).
    pose proof (histogram_bin_range (inject_Z binCount / rangeMax)
                  (- (inject_Z binCount / rangeMax) * rangeMin) binCount
                  (default 0 (c !! n)) Hb) as Hidx.
    fold idx in Hidx.
    destruct (lookup_lt_is_Some_2 prev (Z.to_nat idx)) as [x Hx]; [lia |].
    destruct (bin_total_ge prev _ x Hp Hx) as [Hx0 Hx1].
    assert (Ex : to_int (x + 1) = (x + 1)%Z) by (apply to_int_small; lia).
    split; [rewrite length_alter; exact Hl |].
    split.
    + apply Forall_alter; [exact Hp |]. intros y Hy.
      rewrite Hx in Hy. injection Hy as <-. rewrite Ex. lia.
    + rewrite (bin_total_alter _ _ _ x Hx), Ex, Ht. lia.
Qed.

(** X20. [histogram] puts every pixel of the channel into exactly one of
    the [binCount] bins and adds to the counts it is given: the total of
    the array grows by the number of pixels, for every [rangeMin] and every
    [rangeMax] other than zero.  Without an image the array is left as it
    was. *)
Theorem histogram_accumulates
    (channel : nat) (rangeMin rangeMax : Q) (binCount : Z) (bins : list Z)
    (this : Surface) (σ : heap) :
  (0 < binCount)%Z -> length bins = Z.to_nat binCount ->
  Forall (fun b => (0 <= b)%Z) bins -> ~ rangeMax == 0 ->
  let out := histogram channel rangeMin rangeMax binCount bins this σ in
  match image (deref this σ) with
  | None => out = bins
  | Some img =>
      (bin_total bins + Z.of_nat (pixelCount img) < 2 ^ 31)%Z ->
      length out = length bins /\ Forall (fun b => (0 <= b)%Z) out
      /\ bin_total out = (bin_total bins + Z.of_nat (pixelCount img))%Z
  end.
Proof.
  intros Hb Hlen Hnn _ out. subst out. unfold histogram.
  destruct (image (deref this σ)) as [img |]; [| reflexivity].
  intros Hsum. apply histogram_loop_total; assumption.
Qed.

Lemma histogram_accumulates_witness :
  bin_total (histogram 0 0 1 4 [0; 0; 0; 0]%Z sample_2d.1.2 sample_2d.2) = 1%Z.
Proof.
  pose proof (histogram_accumulates 0 0 1 4 [0; 0; 0; 0]%Z sample_2d.1.2 sample_2d.2
                ltac:(lia) ltac:(reflexivity)
                ltac:(repeat constructor; lia)
                ltac:(vm_compute; discriminate)) as Hh.
  destruct sample_2d_live as (Hst & Himg & _).
  simpl in Hh. rewrite Himg in Hh.
  apply Hh. vm_compute. reflexivity.
Defined.

(** ** Range of a channel *)

Local Open Scope Q_scope.

Lemma range_loop_S c n :
  range_loop c (S n)
  = (let f := arr_get c n in
     let r := range_loop c n in
     let r := if Qlt_le_dec f r.1 then (f, r.2) else r in
     if Qlt_le_dec r.2 f then (r.1, f) else r).
Proof. unfold range_loop. rewrite for_loop_S. reflexivity. Qed.

Lemma range_loop_spec c n :
  (forall i, (i < n)%nat -> - FLT_MAX <= arr_get c i <= FLT_MAX) ->
  (forall i, (i < n)%nat ->
     (range_loop c n).1 <= arr_get c i <= (range_loop c n).2)
  /\ ((0 < n)%nat ->
      exists i j, (i < n)%nat /\ (j < n)%nat
        /\ (range_loop c n).1 == arr_get c i /\ (range_loop c n).2 == arr_get c j).
Proof.
  induction n as [| n IH]; intros Hfin.
  - split; [intros i Hi; lia | intros Hn; lia].
  - destruct IH as [IHb IHa]; [intros i Hi; apply Hfin; lia |].
    pose proof (Hfin n ltac:(lia)) as Hf.
    rewrite range_loop_S. cbv zeta.
    set (f := arr_get c n) in *. set (r := range_loop c n) in *.
    assert (Hinit : n = 0%nat -> r.1 == FLT_MAX /\ r.2 == - FLT_MAX).
    { intros ->. subst r. unfold range_loop, for_loop. simpl. split; reflexivity. }
    destruct (Nat.eq_dec n 0%nat) as [En | En].
    + destruct (Hinit En) as [E1 E2]. subst n.
      split.
      * intros i Hi. assert (i = 0%nat) as -> by lia. fold f.
        destruct (Qlt_le_dec f r.1); simpl;
          destruct (Qlt_le_dec _ f); simpl; lra.
      * intros _. exists 0%nat, 0%nat. fold f.
        split; [lia |]. split; [lia |].
        destruct (Qlt_le_dec f r.1); simpl;
          destruct (Qlt_le_dec _ f); simpl; split; lra.
    + destruct (IHa ltac:(lia)) as (i0 & j0 & Hi0 & Hj0 & Elo & Ehi).
      assert (Hord : r.1 <= r.2).
      { pose proof (IHb i0 Hi0) as Hb0. lra. }
      split.
      * intros i Hi.
        destruct (Nat.eq_dec i n) as [-> | Hne].
        -- fold f. destruct (Qlt_le_dec f r.1); simpl;
             destruct (Qlt_le_dec _ f); simpl; lra.
        -- pose proof (IHb i ltac:(lia)) as Hb.
           destruct (Qlt_le_dec f r.1); simpl;
             destruct (Qlt_le_dec _ f); simpl; lra.
      * intros _.
        destruct (Qlt_le_dec f r.1) as [Hlt | Hge]; simpl.
        -- destruct (Qlt_le_dec r.2 f) as [Hlt2 | Hge2]; simpl; [lra |].
           exists n, j0. split; [lia |]. split; [lia |].
           split; [reflexivity | exact Ehi].
        -- destruct (Qlt_le_dec r.2 f) as [Hlt2 | Hge2]; simpl.
           ++ exists i0, n. split; [lia |]. split; [lia |].
              split; [exact Elo | reflexivity].
           ++ exists i0, j0. split; [lia |]. split; [lia |].
              split; [exact Elo | exact Ehi].
Qed.

(** X21. For an image whose values in the channel are finite, [range]
    returns a pair that encloses every value of the channel, and each end
    of the pair is the value of some pixel.  For an image without pixels
    it returns the inverted pair (FLT_MAX, -FLT_MAX). *)
Theorem range_encloses
    (channel : nat) (this : Surface) (σ : heap) (img : FloatImage) :
  image (deref this σ) = Some img ->
  (forall i, (i < pixelCount img)%nat ->
     - FLT_MAX <= chan_get img channel i <= FLT_MAX) ->
  let r := range channel this σ in
  (forall i, (i < pixelCount img)%nat ->
     r.1 <= chan_get img channel i <= r.2)
  /\ ((0 < pixelCount img)%nat ->
      exists i j, (i < pixelCount img)%nat /\ (j < pixelCount img)%nat
        /\ r.1 == chan_get img channel i /\ r.2 == chan_get img channel j)
  /\ (pixelCount img = 0%nat -> r = (FLT_MAX, - FLT_MAX)).
Proof.
  intros Himg Hfin r. subst r. unfold range. rewrite Himg.
  destruct (range_loop_spec (fi_channel img channel) (pixelCount img) Hfin)
    as [Hb Ha].
  split; [exact Hb |]. split; [exact Ha |].
  intros ->. reflexivity.
Qed.

Lemma range_encloses_witness :
  (range 0 sample_2d.1.2 sample_2d.2).1 <= chan_get sample_image 0 0
  <= (range 0 sample_2d.1.2 sample_2d.2).2.
Proof.
  destruct sample_2d_live as (Hst & Himg & _).
  destruct (range_encloses 0 sample_2d.1.2 sample_2d.2 sample_image Himg)
    as (Hb & _).
  - intros i Hi. unfold pixelCount in Hi. simpl in Hi.
    assert (i = 0%nat) as -> by lia. vm_compute. split; discriminate.
  - apply Hb. unfold pixelCount. simpl. lia.
Defined.

(** ** The undithered quantizer *)

Lemma Qfloor_between (x : Q) (n : Z) :
  inject_Z n <= x -> x < inject_Z (n + 1) -> Qfloor x = n.
Proof.
  intros Hlo Hhi.
  pose proof (Qfloor_le x) as H1. pose proof (Qlt_floor x) as H2.
  assert (A : (n < Qfloor x + 1)%Z).
  { rewrite Zlt_Qlt. apply (Qle_lt_trans _ x); assumption. }
  assert (B : (Qfloor x < n + 1)%Z).
  { rewrite Zlt_Qlt. apply (Qle_lt_trans _ x); assumption. }
  lia.
Qed.

Lemma quantize_scale_pos (bits : Z) (e : bool) :
  (1 <= bits <= 30)%Z -> 0 < quantize_scale bits e.
Proof.
  intros Hb. unfold quantize_scale.
  rewrite Z.shiftl_1_l.
  assert (H1 : (2 ^ 1 <= 2 ^ bits)%Z) by (apply Z.pow_le_mono_r; lia).
  assert (H2 : (2 ^ bits <= 2 ^ 30)%Z) by (apply Z.pow_le_mono_r; lia).
  change (2 ^ 1)%Z with 2%Z in H1. change (2 ^ 30)%Z with 1073741824%Z in H2.
  assert (E1 : to_int (2 ^ bits) = (2 ^ bits)%Z)
    by (apply to_int_small; change (2 ^ 31)%Z with 2147483648%Z; lia).
  assert (E2 : to_int (2 ^ bits - 1) = (2 ^ bits - 1)%Z)
    by (apply to_int_small; change (2 ^ 31)%Z with 2147483648%Z; lia).
  destruct e.
  - rewrite E1, E2. change 0 with (inject_Z 0). rewrite <- Zlt_Qlt. lia.
  - rewrite E1. change 0 with (inject_Z 0). rewrite <- Zlt_Qlt. lia.
Qed.

Lemma quantize_offset_range (e : bool) :
  0 <= quantize_offset e /\ quantize_offset e < 1.
Proof. destruct e; unfold quantize_offset; split; lra. Qed.

Lemma quantizer_bounds (scale offset v : Q) :
  0 < scale ->
  v - (1 - offset) / scale < floorf (v * scale + offset) / scale
  /\ floorf (v * scale + offset) / scale <= v + offset / scale.
Proof.
  intros Hs. unfold floorf.
  pose proof (Qfloor_le (v * scale + offset)) as H1.
  pose proof (Qlt_floor (v * scale + offset)) as H2.
  rewrite inject_Z_plus in H2. change (inject_Z 1) with 1 in H2.
  set (F := inject_Z (Qfloor (v * scale + offset))) in *.
  split.
  - apply Qlt_shift_div_l; [exact Hs |].
    assert (E : (v - (1 - offset) / scale) * scale == v * scale + offset - 1)
      by (field; lra).
    rewrite E. lra.
  - apply Qle_shift_div_r; [exact Hs |].
    assert (E : (v + offset / scale) * scale == v * scale + offset)
      by (field; lra).
    rewrite E. exact H1.
Qed.

Lemma quantizer_idempotent (scale offset v : Q) :
  0 < scale -> 0 <= offset -> offset < 1 ->
  quantizer_fixed scale offset (floorf (v * scale + offset) / scale).
Proof.
  intros Hs Ho0 Ho1. unfold quantizer_fixed, floorf.
  set (n := Qfloor (v * scale + offset)).
  assert (E : Qfloor (inject_Z n / scale * scale + offset) = n).
  { apply Qfloor_between.
    - assert (E : inject_Z n / scale * scale + offset == inject_Z n + offset)
        by (field; lra).
      rewrite E. lra.
    - rewrite inject_Z_plus. change (inject_Z 1) with 1.
      assert (E : inject_Z n / scale * scale + offset == inject_Z n + offset)
        by (field; lra).
      rewrite E. lra. }
  rewrite E. reflexivity.
Qed.

Lemma quantize_scale_value (bits : Z) (e : bool) :
  (1 <= bits <= 30)%Z ->
  quantize_scale bits e = inject_Z (if e then 2 ^ bits - 1 else 2 ^ bits)
  /\ (1 <= (if e then 2 ^ bits - 1 else 2 ^ bits))%Z.
Proof.
  intros Hb. unfold quantize_scale.
  rewrite Z.shiftl_1_l.
  assert (H1 : (2 ^ 1 <= 2 ^ bits)%Z) by (apply Z.pow_le_mono_r; lia).
  assert (H2 : (2 ^ bits <= 2 ^ 30)%Z) by (apply Z.pow_le_mono_r; lia).
  change (2 ^ 1)%Z with 2%Z in H1. change (2 ^ 30)%Z with 1073741824%Z in H2.
  assert (E1 : to_int (2 ^ bits) = (2 ^ bits)%Z)
    by (apply to_int_small; change (2 ^ 31)%Z with 2147483648%Z; lia).
  assert (E2 : to_int (2 ^ bits - 1) = (2 ^ bits - 1)%Z)
    by (apply to_int_small; change (2 ^ 31)%Z with 2147483648%Z; lia).
  destruct e.
  - rewrite E1, E2. split; [reflexivity | lia].
  - rewrite E1. split; [reflexivity | lia].
Qed.

Lemma quantizer_unit_range (s : Z) (offset v : Q) :
  (1 <= s)%Z -> 0 <= offset -> offset < 1 -> 0 <= v <= 1 ->
  (0 <= Qfloor (v * inject_Z s + offset) <= s)%Z.
Proof.
  intros Hs Ho0 Ho1 [Hv0 Hv1].
  assert (Hs' : 1 <= inject_Z s).
  { change 1 with (inject_Z 1). rewrite <- Zle_Qle. exact Hs. }
  split.
  - change 0%Z with (Qfloor 0). apply Qfloor_resp_le. nra.
  - pose proof (Qfloor_le (v * inject_Z s + offset)) as Hf.
    assert (Hlt : inject_Z (Qfloor (v * inject_Z s + offset)) < inject_Z (s + 1)).
    { rewrite inject_Z_plus. change (inject_Z 1) with 1.
      apply (Qle_lt_trans _ _ _ Hf). nra. }
    rewrite <- Zlt_Qlt in Hlt. lia.
Qed.

Lemma level_unit_range (k s : Z) :
  (0 <= k <= s)%Z -> (1 <= s)%Z -> 0 <= inject_Z k / inject_Z s <= 1.
Proof.
  intros Hk Hs.
  assert (Hs' : 0 < inject_Z s).
  { change 0 with (inject_Z 0). rewrite <- Zlt_Qlt. lia. }
  split.
  - apply Qle_shift_div_l; [exact Hs' |].
    rewrite Qmult_0_l. change 0 with (inject_Z 0). rewrite <- Zle_Qle. lia.
  - apply Qle_shift_div_r; [exact Hs' |].
    rewrite Qmult_1_l. rewrite <- Zle_Qle. lia.
Qed.

(** X22. Without dithering, on a value v of the channel that lies in
    [0, 1], as the method assumes: [quantize] with 1 to 22 bits stores a
    value in [0, 1] and leaves the other channels and the extents alone.
    When the end points are not exact (scale 2^bits, offset 0.5) the
    stored value is one of the levels k/2^bits, 0 <= k <= 2^bits, it is
    less than one step 1/2^bits away from v, and quantizing it again with
    the same settings does not move it.  (The distance is stated as a
    whole step: in exact arithmetic it is at most half a step, but the
    code rounds v * scale + 0.5 to binary32 before it floors, and a value
    within rounding distance below a boundary is stored one level up.) *)
Theorem quantize_undithered_levels
    (channel : nat) (bits : Z) (exactEndPoints : bool)
    (this : Surface) (σ : heap) (st : Private) (img : FloatImage) (c i : nat) :
  σ !! m this = Some st -> image st = Some img -> fi_wf img ->
  (channel < 4)%nat -> (i < pixelCount img)%nat -> (1 <= bits <= 22)%Z ->
  0 <= chan_get img channel i <= 1 ->
  let v := chan_get img channel i in
  let once := quantize channel bits exactEndPoints false this σ in
  let twice := quantize channel bits exactEndPoints false once.1 once.2 in
  exists img1 img2,
    observe once.1 once.2 = Some img1 /\ observe twice.1 twice.2 = Some img2
    /\ fi_shape img1 = fi_shape img
    /\ (c <> channel -> chan_get img1 c i = chan_get img c i)
    /\ 0 <= chan_get img1 channel i <= 1
    /\ (exactEndPoints = false ->
        (exists k : Z, (0 <= k <= 2 ^ bits)%Z
           /\ chan_get img1 channel i == inject_Z k / inject_Z (2 ^ bits))
        /\ Qabs (chan_get img1 channel i - v) < 1 / inject_Z (2 ^ bits)
        /\ chan_get img2 channel i == chan_get img1 channel i).
Proof.
  intros Hst Himg Hwf Hc Hi Hb Hv v once twice.
  set (scale := quantize_scale bits exactEndPoints).
  set (offset := quantize_offset exactEndPoints).
  pose proof (quantize_scale_pos bits exactEndPoints ltac:(lia)) as Hs.
  fold scale in Hs.
  destruct (quantize_scale_value bits exactEndPoints ltac:(lia)) as [Esc Hsz].
  fold scale in Esc.
  destruct (quantize_offset_range exactEndPoints) as [Ho0 Ho1].
  fold offset in Ho0, Ho1.
  destruct (image_methods_compose
              (quantize_image channel bits exactEndPoints false)
              (quantize_image channel bits exactEndPoints false)
              this σ st img Hst Himg) as [H1 H2].
  fold (quantize channel bits exactEndPoints false this σ) in H1, H2.
  fold once in H1, H2.
  fold (quantize channel bits exactEndPoints false once.1 once.2) in H2.
  fold twice in H2.
  unfold quantize_image in H1, H2. simpl negb in H1, H2. cbv iota in H1, H2.
  fold scale offset in H1, H2.
  set (k := fun x : Q => floorf (x * scale + offset) / scale).
  destruct (plane_loop_spec channel k img (pixelCount img) Hwf Hc ltac:(lia))
    as (Hwf1 & Hs1 & Hg1).
  fold (quantize_plain channel scale offset img) in Hwf1, Hs1, Hg1.
  set (img1 := quantize_plain channel scale offset img) in *.
  assert (Hn1 : pixelCount img1 = pixelCount img) by (apply pixelCount_shape, Hs1).
  destruct (plane_loop_spec channel k img1 (pixelCount img1) Hwf1 Hc ltac:(lia))
    as (_ & _ & Hg2).
  fold (quantize_plain channel scale offset img1) in Hg2.
  assert (E1 : chan_get img1 channel i = k v).
  { rewrite Hg1, decide_True by (split; [reflexivity | exact Hi]). reflexivity. }
  assert (E2 : chan_get (quantize_plain channel scale offset img1) channel i
               = k (chan_get img1 channel i)).
  { rewrite Hg2, decide_True by (split; [reflexivity | lia]). reflexivity. }
  pose proof (quantizer_unit_range _ offset v Hsz Ho0 Ho1 Hv) as Hk.
  rewrite <- Esc in Hk.
  assert (Eout : k v
                 = inject_Z (Qfloor (v * scale + offset))
                   / inject_Z (if exactEndPoints then 2 ^ bits - 1 else 2 ^ bits)).
  { unfold k, floorf. f_equal. exact Esc. }
  exists img1, (quantize_plain channel scale offset img1).
  split; [exact H1 |]. split; [exact H2 |]. split; [exact Hs1 |].
  split.
  { intros Hne. rewrite Hg1, decide_False by (intros [E _]; congruence).
    reflexivity. }
  split.
  { rewrite E1, Eout. apply level_unit_range; [exact Hk | exact Hsz]. }
  intros Hmode. rewrite Hmode in Eout, Hk, Esc.
  split; [| split].
  - exists (Qfloor (v * scale + offset)). split; [exact Hk |].
    rewrite E1, Eout. reflexivity.
  - rewrite E1.
    destruct (quantizer_bounds scale offset v Hs) as [B1 B2].
    fold (k v) in B1, B2. rewrite <- Esc.
    assert (Eo : offset = 1 # 2) by (unfold offset; rewrite Hmode; reflexivity).
    rewrite Eo in B1, B2.
    assert (Hinv : 0 < / scale) by (apply Qinv_lt_0_compat; exact Hs).
    unfold Qdiv in B1, B2 |- *.
    set (h := / scale) in *. set (kv := k v) in *.
    apply Qabs_Qlt_condition. split; lra.
  - rewrite E2, E1.
    apply (quantizer_idempotent scale offset v Hs Ho0 Ho1).
Qed.

Lemma quantize_undithered_levels_witness :
  exists img1,
    observe (quantize 0 8 false false sample_2d.1.2 sample_2d.2).1
            (quantize 0 8 false false sample_2d.1.2 sample_2d.2).2 = Some img1
    /\ 0 <= chan_get img1 0 0 <= 1
    /\ Qabs (chan_get img1 0 0 - chan_get sample_image 0 0) < 1 / inject_Z (2 ^ 8).
Proof.
  destruct sample_2d_live as (Hst & Himg & Hwf).
  destruct (quantize_undithered_levels 0 8 false sample_2d.1.2 sample_2d.2 _
              sample_image 0 0 Hst Himg Hwf)
    as (img1 & img2 & H1 & _ & _ & _ & Hr & Hlev).
  - lia.
  - unfold pixelCount. simpl. lia.
  - lia.
  - vm_compute. split; discriminate.
  - exists img1. split; [exact H1 |]. split; [exact Hr |].
    destruct (Hlev eq_refl) as (_ & Hd & _). exact Hd.
Defined.

(** ** Binarize *)

Lemma above_cases threshold f :
  (above threshold f = 1 /\ threshold < f) \/ (above threshold f = 0 /\ f <= threshold).
Proof. unfold above. destruct (Qlt_le_dec threshold f); [left | right]; tauto. Qed.

Lemma above_idempotent threshold f :
  0 <= threshold -> threshold < 1 ->
  above threshold (above threshold f) = above threshold f.
Proof.
  intros H0 H1. destruct (above_cases threshold f) as [[E _] | [E _]]; rewrite E.
  - unfold above. destruct (Qlt_le_dec threshold 1); [reflexivity | lra].
  - unfold above. destruct (Qlt_le_dec threshold 0); [lra | reflexivity].
Qed.

(** X23. Without dithering, [binarize] writes 1 where the value of the
    channel is above the threshold and 0 elsewhere, and leaves the other
    channels alone; with a threshold in [0, 1) a second call changes
    nothing. *)
Theorem binarize_undithered
    (channel : nat) (threshold : Q)
    (this : Surface) (σ : heap) (st : Private) (img : FloatImage) (c i : nat) :
  σ !! m this = Some st -> image st = Some img -> fi_wf img ->
  (channel < 4)%nat -> (i < pixelCount img)%nat ->
  let v := chan_get img channel i in
  let once := binarize channel threshold false this σ in
  let twice := binarize channel threshold false once.1 once.2 in
  exists img1 img2,
    observe once.1 once.2 = Some img1 /\ observe twice.1 twice.2 = Some img2
    /\ (threshold < v -> chan_get img1 channel i = 1)
    /\ (v <= threshold -> chan_get img1 channel i = 0)
    /\ (c <> channel -> chan_get img1 c i = chan_get img c i)
    /\ (0 <= threshold -> threshold < 1 ->
        chan_get img2 c i = chan_get img1 c i).
Proof.
  intros Hst Himg Hwf Hc Hi v once twice.
  destruct (image_methods_compose
              (binarize_image channel threshold false)
              (binarize_image channel threshold false)
              this σ st img Hst Himg) as [H1 H2].
  fold (binarize channel threshold false this σ) in H1, H2. fold once in H1, H2.
  fold (binarize channel threshold false once.1 once.2) in H2. fold twice in H2.
  unfold binarize_image in H1, H2. simpl negb in H1, H2. cbv iota in H1, H2.
  destruct (plane_loop_spec channel (above threshold) img (pixelCount img)
              Hwf Hc ltac:(lia)) as (Hwf1 & Hs1 & Hg1).
  fold (binarize_plain channel threshold img) in Hwf1, Hs1, Hg1.
  set (img1 := binarize_plain channel threshold img) in *.
  assert (Hn1 : pixelCount img1 = pixelCount img) by (apply pixelCount_shape, Hs1).
  destruct (plane_loop_spec channel (above threshold) img1 (pixelCount img1)
              Hwf1 Hc ltac:(lia)) as (_ & _ & Hg2).
  fold (binarize_plain channel threshold img1) in Hg2.
  assert (E1 : chan_get img1 channel i = above threshold v).
  { rewrite Hg1, decide_True by (split; [reflexivity | exact Hi]). reflexivity. }
  exists img1, (binarize_plain channel threshold img1).
  split; [exact H1 |]. split; [exact H2 |].
  split.
  { intros Hv. rewrite E1. unfold above.
    destruct (Qlt_le_dec threshold v); [reflexivity | lra]. }
  split.
  { intros Hv. rewrite E1. unfold above.
    destruct (Qlt_le_dec threshold v); [lra | reflexivity]. }
  split.
  { intros Hne. rewrite Hg1, decide_False by (intros [E _]; congruence).
    reflexivity. }
  intros H0 H1'. rewrite Hg2.
  destruct (decide (channel = c /\ (i < pixelCount img1)%nat)) as [[<- _] | Hn].
  - rewrite E1. apply above_idempotent; assumption.
  - reflexivity.
Qed.

Lemma binarize_undithered_witness :
  exists img1,
    observe (binarize 0 (1 # 8) false sample_2d.1.2 sample_2d.2).1
            (binarize 0 (1 # 8) false sample_2d.1.2 sample_2d.2).2 = Some img1
    /\ chan_get img1 0 0 = 1.
Proof.
  destruct sample_2d_live as (Hst & Himg & Hwf).
  destruct (binarize_undithered 0 (1 # 8) sample_2d.1.2 sample_2d.2 _
              sample_image 0 0 Hst Himg Hwf)
    as (img1 & img2 & H1 & _ & Hone & _).
  - lia.
  - unfold pixelCount. simpl. lia.
  - exists img1. split; [exact H1 |]. apply Hone. vm_compute. reflexivity.
Defined.

(** ** The dithered paths and the slices of a volume *)

Lemma set_pixel_untouched img0 channel img x y v :
  untouched img0 channel img ->
  (x < Z.to_nat (fi_width img0))%nat -> (y < Z.to_nat (fi_height img0))%nat ->
  untouched img0 channel (set_pixel img channel x y 0 v).
Proof.
  intros [Hs Hu] Hx Hy. split; [exact Hs |].
  intros c j Hcj. unfold set_pixel.
  rewrite chan_get_set_ne; [apply Hu; exact Hcj |].
  destruct Hcj as [Hc | Hj]; [left; congruence |].
  right. unfold pixel_index, slice_size in *.
  assert (Ew : fi_width img = fi_width img0) by (unfold fi_shape in Hs; congruence).
  assert (Eh : fi_height img = fi_height img0) by (unfold fi_shape in Hs; congruence).
  rewrite Ew, Eh.
  set (w := Z.to_nat (fi_width img0)) in *.
  set (h := Z.to_nat (fi_height img0)) in *.
  nia.
Qed.

Lemma dither_row_untouched img0 channel
    (pix : nat -> FloatImage * list Q * list Q -> FloatImage * list Q * list Q)
    (w : nat) (fresh_row : list Q) s :
  (forall x s, (x < w)%nat -> untouched img0 channel s.1.1 ->
               untouched img0 channel (pix x s).1.1) ->
  untouched img0 channel s.1.1 ->
  untouched img0 channel
    (let '(img, row0, row1) := for_loop w pix s in (img, row1, fresh_row)).1.1.
Proof.
  intros Hpix Hs.
  assert (H : untouched img0 channel (for_loop w pix s).1.1).
  { apply (for_loop_ind (fun s => untouched img0 channel s.1.1)); [exact Hs |].
    intros x s' Hx Hs'. apply Hpix; assumption. }
  destruct (for_loop w pix s) as [[img1 r0] r1]. exact H.
Qed.

Lemma dither_slices_untouched img0 channel
    (row : nat -> FloatImage * list Q * list Q -> FloatImage * list Q * list Q)
    (h d : nat) (rows : list Q * list Q) :
  (forall y s, (y < h)%nat -> untouched img0 channel s.1.1 ->
               untouched img0 channel (row y s).1.1) ->
  untouched img0 channel
    (for_loop d (fun z img =>
       fst (fst (for_loop h row (img, rows.1, rows.2)))) img0).
Proof.
  intros Hrow.
  apply (for_loop_ind (untouched img0 channel)).
  { split; [reflexivity |]. intros c j _. reflexivity. }
  intros z img Hz Himg.
  apply (for_loop_ind (fun s => untouched img0 channel s.1.1)); [exact Himg |].
  intros y s Hy Hs. apply Hrow; assumption.
Qed.

Lemma quantize_dither_untouched channel scale offset img :
  untouched img channel (quantize_dither channel scale offset img).
Proof.
  unfold quantize_dither.
  apply (dither_slices_untouched img channel
           (quantize_dither_row channel scale offset (Z.to_nat (fi_width img)))
           (Z.to_nat (fi_height img)) (Z.to_nat (fi_depth img))
           (replicate (Z.to_nat (fi_width img) + 2) 0,
            replicate (Z.to_nat (fi_width img) + 2) 0)).
  intros y s Hy Hs. unfold quantize_dither_row.
  apply dither_row_untouched; [| exact Hs].
  intros x [[img1 r0] r1] Hx Hs1. simpl in *.
  apply set_pixel_untouched; assumption.
Qed.

Lemma binarize_dither_untouched channel threshold img :
  untouched img channel (binarize_dither channel threshold img).
Proof.
  unfold binarize_dither.
  apply (dither_slices_untouched img channel
           (binarize_dither_row channel threshold (Z.to_nat (fi_width img)))
           (Z.to_nat (fi_height img)) (Z.to_nat (fi_depth img))
           (replicate (Z.to_nat (fi_width img) + 2) 0,
            replicate (Z.to_nat (fi_width img) + 2) 0)).
  intros y s Hy Hs. unfold binarize_dither_row.
  apply dither_row_untouched; [| exact Hs].
  intros x [[img1 r0] r1] Hx Hs1. simpl in *.
  apply set_pixel_untouched; assumption.
Qed.

(** X24. The Floyd-Steinberg paths of [quantize] and [binarize] loop over
    the depth but always address slice 0: in a volume, every pixel outside
    the first width x height values of the channel is left as it was - it
    is neither quantized nor binarized - and so are the other channels. *)
Theorem dither_writes_slice_zero_only
    (channel : nat) (bits : Z) (exactEndPoints : bool) (threshold : Q)
    (this : Surface) (σ : heap) (st : Private) (img : FloatImage) (c j : nat) :
  σ !! m this = Some st -> image st = Some img ->
  c <> channel \/ (slice_size img <= j)%nat ->
  let q := quantize channel bits exactEndPoints true this σ in
  let b := binarize channel threshold true this σ in
  exists imgq imgb,
    observe q.1 q.2 = Some imgq /\ observe b.1 b.2 = Some imgb
    /\ fi_shape imgq = fi_shape img /\ fi_shape imgb = fi_shape img
    /\ chan_get imgq c j = chan_get img c j
    /\ chan_get imgb c j = chan_get img c j.
Proof.
  intros Hst Himg Hcj q b.
  pose proof (image_method_observe
                (quantize_image channel bits exactEndPoints true)
                this σ st img Hst Himg) as Hq.
  pose proof (image_method_observe
                (binarize_image channel threshold true)
                this σ st img Hst Himg) as Hb.
  fold (quantize channel bits exactEndPoints true this σ) in Hq. fold q in Hq.
  fold (binarize channel threshold true this σ) in Hb. fold b in Hb.
  unfold quantize_image in Hq. unfold binarize_image in Hb.
  simpl negb in Hq, Hb. cbv iota in Hq, Hb.
  destruct (quantize_dither_untouched channel (quantize_scale bits exactEndPoints)
              (quantize_offset exactEndPoints) img) as [Sq Uq].
  destruct (binarize_dither_untouched channel threshold img) as [Sb Ub].
  eexists. eexists. split; [exact Hq |]. split; [exact Hb |].
  split; [exact Sq |]. split; [exact Sb |].
  split; [apply Uq; exact Hcj | apply Ub; exact Hcj].
Qed.

Lemma dither_writes_slice_zero_only_witness :
  exists imgq,
    observe (quantize 0 8 true true sample_canvas.1 sample_canvas.2).1
            (quantize 0 8 true true sample_canvas.1 sample_canvas.2).2 = Some imgq
    /\ chan_get imgq 0 1 = chan_get sample_canvas_image 0 1.
Proof.
  destruct (dither_writes_slice_zero_only 0 8 true (1 # 2)
              sample_canvas.1 sample_canvas.2
              (deref sample_canvas.1 sample_canvas.2) sample_canvas_image 0 1)
    as (imgq & imgb & Hq & _ & _ & _ & E & _).
  - vm_compute. reflexivity.
  - vm_compute. reflexivity.
  - right. unfold slice_size. simpl. lia.
  - exists imgq. split; [exact Hq | exact E].
Defined.

(** ** What [canvasSize] keeps *)

Lemma mul_add_inj (w a a' x x' : nat) :
  (x < w)%nat -> (x' < w)%nat -> (a * w + x = a' * w + x')%nat -> a = a' /\ x = x'.
Proof.
  intros Hx Hx' E. destruct (lt_eq_lt_dec a a') as [[Hlt | ->] | Hgt]; [nia | lia | nia].
Qed.

Lemma pixel_index_inj img x y z x' y' z' :
  (x < Z.to_nat (fi_width img))%nat -> (x' < Z.to_nat (fi_width img))%nat ->
  (y < Z.to_nat (fi_height img))%nat -> (y' < Z.to_nat (fi_height img))%nat ->
  pixel_index img x y z = pixel_index img x' y' z' ->
  x = x' /\ y = y' /\ z = z'.
Proof.
  unfold pixel_index. intros Hx Hx' Hy Hy' E.
  destruct (mul_add_inj _ _ _ _ _ Hx Hx' E) as [E1 ->].
  destruct (mul_add_inj _ _ _ _ _ Hy Hy' E1) as [-> ->].
  repeat split.
Qed.

Lemma pixel_index_lt img x y z :
  (x < Z.to_nat (fi_width img))%nat -> (y < Z.to_nat (fi_height img))%nat ->
  (z < Z.to_nat (fi_depth img))%nat ->
  (pixel_index img x y z < pixelCount img)%nat.
Proof.
  intros Hx Hy Hz. unfold pixel_index, pixelCount.
  assert (0 <= fi_width img)%Z by lia.
  assert (0 <= fi_height img)%Z by lia.
  assert (0 <= fi_depth img)%Z by lia.
  rewrite !Z2Nat.inj_mul by lia.
  set (w := Z.to_nat (fi_width img)) in *.
  set (h := Z.to_nat (fi_height img)) in *.
  set (d := Z.to_nat (fi_depth img)) in *.
  assert (A1 : (z * h + y + 1 <= d * h)%nat) by nia.
  assert (A2 : ((z * h + y) * w + x + 1 <= (z * h + y + 1) * w)%nat) by nia.
  assert (A3 : ((z * h + y + 1) * w <= d * h * w)%nat)
    by (apply Nat.mul_le_mono_r; exact A1).
  nia.
Qed.

Lemma copied_ext img new0 (S S' : nat -> nat -> nat -> Prop) new :
  (forall x y z, S x y z <-> S' x y z) -> copied img new0 S new -> copied img new0 S' new.
Proof.
  intros HS (Hwf & Hs & Hc). split; [exact Hwf |]. split; [exact Hs |].
  intros x y z Hx Hy Hz. destruct (Hc x y z Hx Hy Hz) as [H1 H2].
  split; intros H; [apply H1 | apply H2]; rewrite HS; exact H.
Qed.

Lemma canvasSize_step_color img new0 new x y z :
  fi_shape new = fi_shape new0 ->
  canvasSize_step img x y z new
  = write_color new (pixel_index new0 x y z) (read_color img (pixel_index img x y z)).
Proof.
  intros Hs. unfold fi_shape in Hs.
  assert (Ew : fi_width new = fi_width new0) by congruence.
  assert (Eh : fi_height new = fi_height new0) by congruence.
  unfold canvasSize_step, set_pixel, write_color, read_color, pixel, pixel_index.
  simpl. rewrite Ew, Eh. reflexivity.
Qed.

Lemma canvasSize_step_copied img new0 S new x y z :
  (x < Z.to_nat (fi_width new0))%nat -> (y < Z.to_nat (fi_height new0))%nat ->
  (z < Z.to_nat (fi_depth new0))%nat ->
  copied img new0 S new ->
  copied img new0 (fun x' y' z' => S x' y' z' \/ (x' = x /\ y' = y /\ z' = z))
    (canvasSize_step img x y z new).
Proof.
  intros Hx Hy Hz (Hwf & Hs & Hc).
  rewrite (canvasSize_step_color img new0 new x y z Hs).
  split; [apply write_color_wf; exact Hwf |].
  split; [rewrite write_color_shape; exact Hs |].
  intros x' y' z' Hx' Hy' Hz'.
  destruct (decide (x' = x /\ y' = y /\ z' = z)) as [(-> & -> & ->) | Hne].
  - split; [| intros Hn; exfalso; apply Hn; right; repeat split].
    intros _. apply read_write_color_eq; [exact Hwf |].
    rewrite (pixelCount_shape _ _ Hs). apply pixel_index_lt; assumption.
  - assert (Hidx : pixel_index new0 x y z <> pixel_index new0 x' y' z').
    { intros E. apply Hne.
      destruct (pixel_index_inj new0 x y z x' y' z' Hx Hx' Hy Hy' E) as (-> & -> & ->).
      repeat split. }
    rewrite (read_write_color_ne _ _ _ _ Hidx).
    destruct (Hc x' y' z' Hx' Hy' Hz') as [H1 H2].
    split.
    + intros [HS | Heq]; [apply H1; exact HS | contradiction].
    + intros Hn. apply H2. intros HS. apply Hn. left. exact HS.
Qed.

Lemma canvasSize_row_copied img new0 S y z n new :
  (n <= Z.to_nat (fi_width new0))%nat -> (y < Z.to_nat (fi_height new0))%nat ->
  (z < Z.to_nat (fi_depth new0))%nat ->
  copied img new0 S new ->
  copied img new0 (fun x' y' z' => S x' y' z' \/ ((x' < n)%nat /\ y' = y /\ z' = z))
    (for_loop n (fun x new => canvasSize_step img x y z new) new).
Proof.
  intros Hn Hy Hz Hc. induction n as [| n IH].
  - unfold for_loop. simpl. eapply copied_ext; [| exact Hc].
    intros x' y' z'. split; [tauto |]. intros [H | (H & _)]; [exact H | lia].
  - rewrite for_loop_S.
    eapply copied_ext;
      [| apply canvasSize_step_copied; [lia | exact Hy | exact Hz | apply IH; lia]].
    intros x' y' z'. simpl. split.
    + intros [[H | (H1 & H2 & H3)] | (-> & H2 & H3)];
        [left; exact H | right; split; [lia | tauto] | right; split; [lia | tauto]].
    + intros [H | (H1 & H2 & H3)]; [left; left; exact H |].
      destruct (decide (x' = n)) as [-> | Hne]; [right; tauto |].
      left. right. split; [lia | tauto].
Qed.

Lemma canvasSize_slice_copied img new0 S ww z n new :
  (ww <= Z.to_nat (fi_width new0))%nat -> (n <= Z.to_nat (fi_height new0))%nat ->
  (z < Z.to_nat (fi_depth new0))%nat ->
  copied img new0 S new ->
  copied img new0
    (fun x' y' z' => S x' y' z' \/ ((x' < ww)%nat /\ (y' < n)%nat /\ z' = z))
    (for_loop n (fun y =>
       for_loop ww (fun x new => canvasSize_step img x y z new)) new).
Proof.
  intros Hw Hn Hz Hc. induction n as [| n IH].
  - unfold for_loop at 1. simpl. eapply copied_ext; [| exact Hc].
    intros x' y' z'. split; [tauto |]. intros [H | (_ & H & _)]; [exact H | lia].
  - rewrite for_loop_S.
    eapply copied_ext;
      [| apply canvasSize_row_copied; [exact Hw | lia | exact Hz | apply IH; lia]].
    intros x' y' z'. simpl. split.
    + intros [[H | (H1 & H2 & H3)] | (H1 & -> & H3)];
        [left; exact H | right; repeat split; [exact H1 | lia | exact H3]
        | right; repeat split; [exact H1 | lia | exact H3]].
    + intros [H | (H1 & H2 & H3)]; [left; left; exact H |].
      destruct (decide (y' = n)) as [-> | Hne]; [right; tauto |].
      left. right. repeat split; [exact H1 | lia | exact H3].
Qed.

Lemma canvasSize_volume_copied img new0 S ww hh n new :
  (ww <= Z.to_nat (fi_width new0))%nat -> (hh <= Z.to_nat (fi_height new0))%nat ->
  (n <= Z.to_nat (fi_depth new0))%nat ->
  copied img new0 S new ->
  copied img new0
    (fun x' y' z' => S x' y' z' \/ ((x' < ww)%nat /\ (y' < hh)%nat /\ (z' < n)%nat))
    (for_loop n (fun z =>
       for_loop hh (fun y =>
         for_loop ww (fun x new => canvasSize_step img x y z new))) new).
Proof.
  intros Hw Hh Hn Hc. induction n as [| n IH].
  - unfold for_loop at 1. simpl. eapply copied_ext; [| exact Hc].
    intros x' y' z'. split; [tauto |]. intros [H | (_ & _ & H)]; [exact H | lia].
  - rewrite for_loop_S.
    eapply copied_ext;
      [| apply canvasSize_slice_copied; [exact Hw | exact Hh | lia | apply IH; lia]].
    intros x' y' z'. simpl. split.
    + intros [[H | (H1 & H2 & H3)] | (H1 & H2 & ->)];
        [left; exact H | right; repeat split; [exact H1 | exact H2 | lia]
        | right; repeat split; [exact H1 | exact H2 | lia]].
    + intros [H | (H1 & H2 & H3)]; [left; left; exact H |].
      destruct (decide (z' = n)) as [-> | Hne]; [right; tauto |].
      left. right. repeat split; [exact H1 | exact H2 | lia].
Qed.

Lemma fi_clear_copied img w h d :
  copied img (fi_clear (fi_allocate 4 w h d)) (fun _ _ _ => False)
    (fi_clear (fi_allocate 4 w h d)).
Proof.
  split.
  { unfold fi_wf, fi_clear, fi_allocate, pixelCount. simpl.
    split; [reflexivity |].
    repeat constructor; rewrite !length_replicate; reflexivity. }
  split; [reflexivity |].
  intros x y z _ _ _. split; [tauto |]. intros _.
  unfold read_color, chan_get, fi_channel, fi_clear, fi_allocate. simpl.
  set (i := pixel_index _ x y z). rewrite !length_replicate.
  destruct (replicate (Z.to_nat (w * h * d)) (0 : Q) !! i) as [q |] eqn:E.
  - apply lookup_replicate in E as [-> _]. reflexivity.
  - reflexivity.
Qed.

Lemma canvasSize_copy_steps w h d img new_img :
  canvasSize_copy w h d img new_img
  = for_loop (Z.to_nat d) (fun z =>
      for_loop (Z.to_nat h) (fun y =>
        for_loop (Z.to_nat w) (fun x new => canvasSize_step img x y z new))) new_img.
Proof. reflexivity. Qed.

Lemma canvasSize_clip (w W : Z) :
  (0 < w < 2 ^ 31)%Z -> (0 <= W)%Z ->
  to_int (Z.min (to_uint w) W) = Z.min w W.
Proof.
  intros Hw HW. rewrite to_uint_small by lia. apply to_int_small. lia.
Qed.

(** X25. [canvasSize] to a different shape gives a buffer of the requested
    shape in which every pixel whose coordinates also exist in the old
    image keeps its colour, and every other pixel is cleared to zero in
    all four channels. *)
Theorem canvasSize_keeps_overlap
    (w h d : Z) (this : Surface) (σ : heap) (st : Private) (img : FloatImage)
    (x y z : nat) :
  σ !! m this = Some st -> image st = Some img ->
  (0 < w < 2 ^ 31)%Z -> (0 < h < 2 ^ 31)%Z -> (0 < d < 2 ^ 31)%Z ->
  (0 <= fi_width img)%Z -> (0 <= fi_height img)%Z -> (0 <= fi_depth img)%Z ->
  fi_shape img <> (w, h, d) ->
  (Z.of_nat x < w)%Z -> (Z.of_nat y < h)%Z -> (Z.of_nat z < d)%Z ->
  let r := canvasSize w h d this σ in
  exists new,
    observe r.1 r.2 = Some new /\ fi_shape new = (w, h, d)
    /\ read_color new (pixel_index new x y z)
       = if decide ((Z.of_nat x < fi_width img)%Z /\ (Z.of_nat y < fi_height img)%Z
                    /\ (Z.of_nat z < fi_depth img)%Z)
         then read_color img (pixel_index img x y z) else (0, 0, 0, 0).
Proof.
  intros Hst Himg Hw Hh Hd HW HH HD Hne Hx Hy Hz r. subst r. unfold canvasSize.
  rewrite (shape_guard_false _ _ _ _ w h d Hst Himg Hne).
  destruct (lookup_mutating (canvasSize_body w h d) this σ st Hst) as [n Hn].
  rewrite (observe_lookup _ _ _ Hn).
  unfold canvasSize_body. simpl image at 1. rewrite Himg. simpl.
  rewrite !canvasSize_clip by assumption.
  rewrite canvasSize_copy_steps.
  set (new0 := fi_clear (fi_allocate 4 w h d)).
  destruct (canvasSize_volume_copied img new0 (fun _ _ _ => False)
              (Z.to_nat (Z.min w (fi_width img)))
              (Z.to_nat (Z.min h (fi_height img)))
              (Z.to_nat (Z.min d (fi_depth img))) new0)
    as (Hwf & Hs & Hc).
  { subst new0. simpl. lia. }
  { subst new0. simpl. lia. }
  { subst new0. simpl. lia. }
  { apply fi_clear_copied. }
  eexists. split; [reflexivity |]. split; [exact Hs |].
  assert (Eidx : forall a b c,
             pixel_index (for_loop (Z.to_nat (Z.min d (fi_depth img))) (fun z0 =>
               for_loop (Z.to_nat (Z.min h (fi_height img))) (fun y0 =>
                 for_loop (Z.to_nat (Z.min w (fi_width img)))
                   (fun x0 new => canvasSize_step img x0 y0 z0 new))) new0) a b c
             = pixel_index new0 a b c).
  { intros a b c. unfold pixel_index. unfold fi_shape in Hs.
    assert (E1 : fi_width (for_loop (Z.to_nat (Z.min d (fi_depth img))) (fun z0 =>
               for_loop (Z.to_nat (Z.min h (fi_height img))) (fun y0 =>
                 for_loop (Z.to_nat (Z.min w (fi_width img)))
                   (fun x0 new => canvasSize_step img x0 y0 z0 new))) new0)
                 = fi_width new0) by congruence.
    assert (E2 : fi_height (for_loop (Z.to_nat (Z.min d (fi_depth img))) (fun z0 =>
               for_loop (Z.to_nat (Z.min h (fi_height img))) (fun y0 =>
                 for_loop (Z.to_nat (Z.min w (fi_width img)))
                   (fun x0 new => canvasSize_step img x0 y0 z0 new))) new0)
                 = fi_height new0) by congruence.
    rewrite E1, E2. reflexivity. }
  rewrite Eidx.
  destruct (Hc x y z) as [H1 H2].
  { subst new0. simpl. lia. }
  { subst new0. simpl. lia. }
  { subst new0. simpl. lia. }
  destruct (decide ((Z.of_nat x < fi_width img)%Z /\ (Z.of_nat y < fi_height img)%Z
                    /\ (Z.of_nat z < fi_depth img)%Z)) as [(A & B & C) | Hout].
  - apply H1. right. lia.
  - apply H2. intros [[] | (A & B & C)]. apply Hout. lia.
Qed.

Lemma canvasSize_keeps_overlap_witness :
  exists new,
    observe sample_canvas.1 sample_canvas.2 = Some new
    /\ read_color new (pixel_index new 0 0 0) = (1 # 4, 1 # 4, 1 # 4, 1 # 4)
    /\ read_color new (pixel_index new 0 0 1) = (0, 0, 0, 0).
Proof.
  destruct sample_2d_live as (Hst & Himg & _).
  destruct (canvasSize_keeps_overlap 1 1 2 sample_2d.1.2 sample_2d.2 _ sample_image
              0 0 0 Hst Himg) as (new & Ho & _ & E0); try (simpl; lia).
  { discriminate. }
  destruct (canvasSize_keeps_overlap 1 1 2 sample_2d.1.2 sample_2d.2 _ sample_image
              0 0 1 Hst Himg) as (new' & Ho' & _ & E1); try (simpl; lia).
  { discriminate. }
  fold sample_canvas in Ho, Ho'.
  assert (new' = new) as -> by congruence.
  exists new. split; [exact Ho |]. split; [exact E0 | exact E1].
Defined.

(** ** What [setImage] stores *)

Lemma write_loop_prefix (g : nat -> Color) img n :
  fi_wf img -> (n <= pixelCount img)%nat ->
  let out := for_loop n (fun i x => write_color x i (g i)) img in
  fi_wf out /\ fi_shape out = fi_shape img
  /\ forall i, read_color out i = if decide (i < n)%nat then g i else read_color img i.
Proof.
  intros Hwf. induction n as [| n IH]; intros Hn out; subst out.
  - split; [exact Hwf |]. split; [reflexivity |]. intros i.
    rewrite decide_False by lia. reflexivity.
  - rewrite for_loop_S. destruct (IH ltac:(lia)) as (Hw & Hs & Hr).
    set (x := for_loop n _ img) in *. simpl.
    split; [apply write_color_wf, Hw |].
    split; [rewrite write_color_shape; exact Hs |].
    intros i. destruct (decide (i = n)) as [-> | Hin].
    + rewrite read_write_color_eq.
      * rewrite decide_True by lia. reflexivity.
      * exact Hw.
      * rewrite (pixelCount_shape _ _ Hs). lia.
    + rewrite read_write_color_ne by congruence. rewrite Hr.
      destruct (decide (i < n)%nat), (decide (i < S n)%nat); try lia; reflexivity.
Qed.

Lemma fi_allocate_wf w h d : fi_wf (fi_allocate 4 w h d).
Proof.
  unfold fi_wf, fi_allocate, pixelCount. simpl. split; [reflexivity |].
  repeat constructor; rewrite length_replicate; reflexivity.
Qed.

(** X26. [setImage] with interleaved input leaves a buffer of the
    requested extents, whatever the surface held before, in which pixel
    [i] holds the [i]-th element of the input decoded as the format says:
    four bytes in B, G, R, A order divided by 255, four halves, or four
    floats.  It returns false all the same, for every format: the block
    after the fill loop, meant as an exception handler, runs
    unconditionally. *)
Theorem setImage_read_back `{Collaborators}
    (format : InputFormat) (w h d : Z) (data : Buffer)
    (this : Surface) (σ : heap) (st : Private) (i : nat) :
  σ !! m this = Some st -> (i < Z.to_nat (w * h * d))%nat ->
  let r := setImage format w h d data this σ in
  r.1.1 = false
  /\ exists img,
       observe r.1.2 r.2 = Some img /\ fi_shape img = (w, h, d)
       /\ read_color img i
          = match format with
            | InputFormat_BGRA_8UB =>
                (inject_Z (c32_r (as_color32 data i)) / 255,
                 inject_Z (c32_g (as_color32 data i)) / 255,
                 inject_Z (c32_b (as_color32 data i)) / 255,
                 inject_Z (c32_a (as_color32 data i)) / 255)
            | InputFormat_RGBA_16F =>
                (half_to_float (as_uint16 data (4 * i + 0)),
                 half_to_float (as_uint16 data (4 * i + 1)),
                 half_to_float (as_uint16 data (4 * i + 2)),
                 half_to_float (as_uint16 data (4 * i + 3)))
            | InputFormat_RGBA_32F =>
                (as_float data (4 * i + 0), as_float data (4 * i + 1),
                 as_float data (4 * i + 2), as_float data (4 * i + 3))
            end.
Proof.
  intros Hst Hi r. subst r. unfold setImage.
  destruct (lookup_mutating (setImage_body format w h d data) this σ st Hst)
    as [n Hn].
  destruct (mutating (setImage_body format w h d data) this σ) as [this' σ'].
  simpl in *. split; [destruct format; reflexivity |].
  rewrite (observe_lookup _ _ _ Hn).
  unfold setImage_body, on_image. simpl.
  pose proof (fi_allocate_wf w h d) as Hwf.
  set (img0 := fi_allocate 4 w h d) in *.
  assert (Hcount : pixelCount img0 = Z.to_nat (w * h * d)) by reflexivity.
  eexists. split; [reflexivity |].
  unfold setImage_fill.
  destruct format; simpl.
  - destruct (write_loop_prefix
                (fun i => (inject_Z (c32_r (as_color32 data i)) / 255,
                           inject_Z (c32_g (as_color32 data i)) / 255,
                           inject_Z (c32_b (as_color32 data i)) / 255,
                           inject_Z (c32_a (as_color32 data i)) / 255))
                img0 (pixelCount img0) Hwf ltac:(lia)) as (_ & Hs & Hr).
    split; [exact Hs |]. rewrite Hr, decide_True by lia. reflexivity.
  - destruct (write_loop_prefix
                (fun i => (half_to_float (as_uint16 data (4 * i + 0)),
                           half_to_float (as_uint16 data (4 * i + 1)),
                           half_to_float (as_uint16 data (4 * i + 2)),
                           half_to_float (as_uint16 data (4 * i + 3))))
                img0 (pixelCount img0) Hwf ltac:(lia)) as (_ & Hs & Hr).
    split; [exact Hs |]. rewrite Hr, decide_True by lia. reflexivity.
  - destruct (write_loop_prefix
                (fun i => (as_float data (4 * i + 0), as_float data (4 * i + 1),
                           as_float data (4 * i + 2), as_float data (4 * i + 3)))
                img0 (pixelCount img0) Hwf ltac:(lia)) as (_ & Hs & Hr).
    split; [exact Hs |]. rewrite Hr, decide_True by lia. reflexivity.
Qed.

Lemma setImage_read_back_witness :
  sample_2d.1.1 = false
  /\ exists img,
       observe sample_2d.1.2 sample_2d.2 = Some img
       /\ read_color img 0 = (1 # 4, 1 # 4, 1 # 4, 1 # 4).
Proof.
  destruct (setImage_read_back (H := model_collaborators) InputFormat_RGBA_32F
              1 1 1 sample_buffer (Surface_new ∅).1 (Surface_new ∅).2
              (deref (Surface_new ∅).1 (Surface_new ∅).2) 0)
    as (Hflag & img & Ho & _ & Hr).
  - vm_compute. reflexivity.
  - simpl. lia.
  - split; [exact Hflag |]. exists img. split; [exact Ho | exact Hr].
Defined.

(** ** Stereographic normals *)




